(** * MMQ: the in-memory bounded message queue of Bricks/mq/inmemory/mq.h

    A shallow embedding of [bricks::mq::MMQ].  The queue object is a record,
    every critical section of the source (a block that holds [mutex_]) is one
    atomic state transformer, and the unlocked statements between two
    critical sections are atomic transformers of their own.  A call of
    [PushMessage] / [EmplaceMessage] is the sequential composition of these
    transformers; the threads of a running queue interleave them.

    [size_t] values are integers of [Z] with the wrap-around at 2^64 written
    out. *)

From Stdlib Require Import ZArith Lia Bool List.
From Stdlib Require String.
From stdpp Require Import base numbers list.

Open Scope Z_scope.

(** ** Machine integers *)

(** [static_cast<size_t>(-1)]: the value [PushMessageAllocate] returns when
    no slot was reserved. *)
Definition size_max : Z := 2 ^ 64 - 1.

(** Arithmetic on [size_t] is modulo 2^64. *)
Definition wrap (z : Z) : Z := z mod 2 ^ 64.

(** ** The message type

    [T_MESSAGE] is a template parameter.  What the queue uses of it: a default
    constructor (the vector of entries is value-initialised), copy assignment,
    move assignment and construction from [ARGS].  Each of the last three may
    throw. *)
Class MessageType (MSG ARGS : Type) : Type := {
  default_message : MSG;
  copy_throws : MSG -> bool;
  move_throws : MSG -> bool;
  construct : ARGS -> option MSG
}.

(** ** Entries and the queue object *)

(** [enum { FREE, BEING_IMPORTED, READY, BEING_EXPORTED } status]. *)
Inductive Status : Type := FREE | BEING_IMPORTED | READY | BEING_EXPORTED.

Definition status_eqb (a b : Status) : bool :=
  match a, b with
  | FREE, FREE | BEING_IMPORTED, BEING_IMPORTED
  | READY, READY | BEING_EXPORTED, BEING_EXPORTED => true
  | _, _ => false
  end.

Lemma status_eqb_eq (a b : Status) : status_eqb a b = true <-> a = b.
Proof. destruct a, b; simpl; split; congruence. Qed.

Lemma status_eqb_neq (a b : Status) : status_eqb a b = false <-> a <> b.
Proof. destruct a, b; simpl; split; congruence. Qed.

Section Queue.

Context {MSG ARGS : Type} {MT : MessageType MSG ARGS}.

(** [struct Entry]. *)
Record Entry : Type := mkEntry {
  absolute_index : Z;
  message_body : MSG;
  status : Status
}.

(** A value-initialised entry: [status = Entry::FREE] by its default member
    initialiser, the other members zero / default constructed. *)
Definition Entry_default : Entry :=
  {| absolute_index := 0; message_body := default_message; status := FREE |}.

Definition with_status (st : Status) (e : Entry) : Entry :=
  {| absolute_index := absolute_index e; message_body := message_body e;
     status := st |}.

Definition with_absolute_index (a : Z) (e : Entry) : Entry :=
  {| absolute_index := a; message_body := message_body e;
     status := status e |}.

Definition with_message_body (m : MSG) (e : Entry) : Entry :=
  {| absolute_index := absolute_index e; message_body := m;
     status := status e |}.

(** The data members of [class MMQ] that the queue's own code reads and
    writes.  [consumer_] is the sink (see [Dispatch] below), [mutex_] and
    [condition_variable_] are accounted for by the atomicity of the
    transformers, [consumer_thread_] by [ConsumerThread]. *)
Record MMQ : Type := mkMMQ {
  circular_buffer_size_ : Z;
  circular_buffer_ : list Entry;
  head_ : Z;
  total_messages_ : Z;
  destructing_ : bool
}.

(** The constructor: [circular_buffer_(circular_buffer_size_)],
    [total_messages_(0u)], [head_ = 0u], [destructing_ = false].  Nothing
    checks [buffer_size]. *)
Definition MMQ_new (buffer_size : Z) : MMQ :=
  {| circular_buffer_size_ := buffer_size;
     circular_buffer_ := replicate (Z.to_nat buffer_size) Entry_default;
     head_ := 0;
     total_messages_ := 0;
     destructing_ := false |}.

(** [~MMQ()], the locked part: [destructing_ = true]. *)
Definition MMQ_destruct (q : MMQ) : MMQ :=
  {| circular_buffer_size_ := circular_buffer_size_ q;
     circular_buffer_ := circular_buffer_ q;
     head_ := head_ q;
     total_messages_ := total_messages_ q;
     destructing_ := true |}.

Definition set_buffer (buf : list Entry) (q : MMQ) : MMQ :=
  {| circular_buffer_size_ := circular_buffer_size_ q;
     circular_buffer_ := buf;
     head_ := head_ q;
     total_messages_ := total_messages_ q;
     destructing_ := destructing_ q |}.

Definition set_head (h : Z) (q : MMQ) : MMQ :=
  {| circular_buffer_size_ := circular_buffer_size_ q;
     circular_buffer_ := circular_buffer_ q;
     head_ := h;
     total_messages_ := total_messages_ q;
     destructing_ := destructing_ q |}.

Definition set_total (t : Z) (q : MMQ) : MMQ :=
  {| circular_buffer_size_ := circular_buffer_size_ q;
     circular_buffer_ := circular_buffer_ q;
     head_ := head_ q;
     total_messages_ := t;
     destructing_ := destructing_ q |}.

(** [circular_buffer_[i]]: [None] stands for an access outside the vector,
    which is undefined behaviour in the source. *)
Definition entry_at (buf : list Entry) (i : Z) : option Entry :=
  if i <? 0 then None else buf !! Z.to_nat i.

(** [circular_buffer_[i].member = ...]. *)
Definition update_at (f : Entry -> Entry) (i : Z) (q : MMQ) : option MMQ :=
  match entry_at (circular_buffer_ q) i with
  | Some e => Some (set_buffer (<[Z.to_nat i := f e]> (circular_buffer_ q)) q)
  | None => None
  end.

(** [Increment]: [i = (i + 1) % circular_buffer_size_].  [None] is the
    division by zero. *)
Definition Increment (size i : Z) : option Z :=
  if size =? 0 then None else Some (wrap (i + 1) mod size).

(** ** Outcomes of a piece of queue code

    [Returned a q]: ran to its end with value [a], leaving the queue [q].
    [Blocked]: sleeps in [condition_variable_.wait] (nothing was changed).
    [Threw q]: an exception of the message type left the function.
    [Fault]: undefined behaviour (out-of-range access, division by zero). *)
Inductive Outcome (A : Type) : Type :=
| Returned (a : A) (q : MMQ)
| Blocked
| Threw (q : MMQ)
| Fault.

Arguments Returned {A} a q.
Arguments Blocked {A}.
Arguments Threw {A} q.
Arguments Fault {A}.

Definition Code (A : Type) : Type := MMQ -> Outcome A.

Definition ret {A : Type} (a : A) : Code A := fun q => Returned a q.

Definition bind {A B : Type} (c : Code A) (k : A -> Code B) : Code B :=
  fun q =>
    match c q with
    | Returned a q' => k a q'
    | Blocked => Blocked
    | Threw q' => Threw q'
    | Fault => Fault
    end.

Definition lift (f : MMQ -> option MMQ) : Code unit :=
  fun q => match f q with Some q' => Returned tt q' | None => Fault end.

Notation "x <- c ;; k" := (bind c (fun x => k))
  (at level 100, c at next level, right associativity).
Notation "c ;;; k" := (bind c (fun _ => k))
  (at level 100, right associativity).

(** ** The producer side *)

(** The "regular case" shared by both [PushMessageAllocate]s:
    [index = head_; Increment(head_); circular_buffer_[index].status =
    BEING_IMPORTED; return index]. *)
Definition reserve_head : Code Z :=
  fun q =>
    let index := head_ q in
    match Increment (circular_buffer_size_ q) (head_ q) with
    | None => Fault
    | Some h =>
        match update_at (with_status BEING_IMPORTED) index (set_head h q) with
        | None => Fault
        | Some q' => Returned index q'
        end
    end.

(** [PushMessageAllocate], both instances of the template; one critical
    section each.

    [DROP = true]: the head entry is FREE, or the message is discarded.
    [destructing_] is not read.

    [DROP = false]: [destructing_] is tested first; then the thread waits
    until the head entry is FREE.  A thread that sleeps in [wait] holds no
    lock and has changed nothing; when it runs again it holds the lock, and
    the statements from the return of [wait] to the end of the function
    take the same decisions as the ones from the function's entry:
    [destructing_] gives the sentinel, a FREE head entry is reserved, and
    otherwise the predicate of [wait] is false and the thread sleeps on.  So
    one transformer stands for both, with [Blocked] for the sleep. *)
Definition PushMessageAllocate (DROP : bool) : Code Z :=
  fun q =>
    if DROP then
      match entry_at (circular_buffer_ q) (head_ q) with
      | None => Fault
      | Some e =>
          if status_eqb (status e) FREE then reserve_head q
          else Returned size_max q
      end
    else
      if destructing_ q then Returned size_max q
      else
        match entry_at (circular_buffer_ q) (head_ q) with
        | None => Fault
        | Some e =>
            if status_eqb (status e) FREE then reserve_head q
            else Blocked
        end.

(** [circular_buffer_[index].absolute_index = total_messages_]. *)
Definition store_absolute_index (index : Z) : Code unit :=
  fun q => lift (update_at (with_absolute_index (total_messages_ q)) index) q.

(** [circular_buffer_[index].message_body = <value>], where building or
    assigning the value may throw ([None]). *)
Definition store_message_body (index : Z) (v : option MSG) : Code unit :=
  fun q =>
    match v with
    | None => Threw q
    | Some m => lift (update_at (with_message_body m) index) q
    end.

(** [PushMessageCommit]: [circular_buffer_[index].status = READY]. *)
Definition PushMessageCommit (index : Z) : Code unit :=
  lift (update_at (with_status READY) index).

(** [++total_messages_]. *)
Definition count_message : Code unit :=
  fun q => Returned tt (set_total (wrap (total_messages_ q + 1)) q).

(** The three ways a payload reaches the entry. *)
Definition by_copy (message : MSG) : option MSG :=
  if copy_throws message then None else Some message.

Definition by_move (message : MSG) : option MSG :=
  if move_throws message then None else Some message.

Definition by_construction (args : ARGS) : option MSG :=
  match construct args with
  | None => None
  | Some m => by_move m
  end.

(** [bool PushMessage(const T_MESSAGE& message)]. *)
Definition PushMessage (DROP : bool) (message : MSG) : Code bool :=
  index <- PushMessageAllocate DROP ;;
  result <- (if negb (index =? size_max) then
               store_absolute_index index ;;;
               store_message_body index (by_copy message) ;;;
               PushMessageCommit index ;;;
               ret true
             else ret false) ;;
  count_message ;;;
  ret result.

(** [bool PushMessage(T_MESSAGE&& message)]. *)
Definition PushMessage_rvalue (DROP : bool) (message : MSG) : Code bool :=
  index <- PushMessageAllocate DROP ;;
  result <- (if negb (index =? size_max) then
               store_absolute_index index ;;;
               store_message_body index (by_move message) ;;;
               PushMessageCommit index ;;;
               ret true
             else ret false) ;;
  count_message ;;;
  ret result.

(** [bool EmplaceMessage(ARGS&&... args)]. *)
Definition EmplaceMessage (DROP : bool) (args : ARGS) : Code bool :=
  index <- PushMessageAllocate DROP ;;
  result <- (if negb (index =? size_max) then
               store_absolute_index index ;;;
               store_message_body index (by_construction args) ;;;
               PushMessageCommit index ;;;
               ret true
             else ret false) ;;
  count_message ;;;
  ret result.

(** ** The consumer side *)

(** What the first block of the loop of [ConsumerThread] does when the
    thread runs with the lock: leave the function, sleep in [wait], or mark
    the entry at [tail] BEING_EXPORTED and go on. *)
Inductive Await : Type :=
| Exit
| Sleep
| Export (q : MMQ)
| AwaitFault.

(** The first block of the loop.  As in [PushMessageAllocate], the same
    decisions are taken at the entry of the block and on return from
    [wait]. *)
Definition ConsumerThread_await (tail : Z) (q : MMQ) : Await :=
  match entry_at (circular_buffer_ q) tail with
  | None => AwaitFault
  | Some e =>
      if negb (status_eqb (status e) READY) then
        (if destructing_ q then Exit else Sleep)
      else if destructing_ q then Exit
      else
        match update_at (with_status BEING_EXPORTED) tail q with
        | Some q' => Export q'
        | None => AwaitFault
        end
  end.

(** One call of the sink: the message, its absolute index and the value of
    [total_messages_] at the call. *)
Record Dispatch : Type := mkDispatch {
  d_message : MSG;
  d_index : Z;
  d_total : Z
}.

(** Modelled from the spec: [blocks::ss::DispatchEntryByRValue] of
    Blocks/SS/ss.h is not part of the sources at hand.  The sink is invoked
    with the payload, the entry's [absolute_index] and a snapshot of
    [total_messages_]; the call is recorded.  The entry keeps its
    (moved-from) body. *)
Definition ConsumerThread_dispatch (tail : Z) (q : MMQ) : option Dispatch :=
  match entry_at (circular_buffer_ q) tail with
  | None => None
  | Some e =>
      Some {| d_message := message_body e;
              d_index := absolute_index e;
              d_total := total_messages_ q |}
  end.

(** The third block: [circular_buffer_[tail].status = FREE] under the lock,
    then [Increment(tail)].  The result is the queue and the new [tail]. *)
Definition ConsumerThread_recycle (tail : Z) (q : MMQ) : option (MMQ * Z) :=
  match update_at (with_status FREE) tail q with
  | None => None
  | Some q' =>
      match Increment (circular_buffer_size_ q') tail with
      | None => None
      | Some t => Some (q', t)
      end
  end.

(** ** Threads

    Any number of producer threads, each with the calls it is going to make,
    one consumer thread, and the thread that destroys the queue.  A thread's
    program counter says which transformer it runs next. *)

Inductive Call : Type :=
| ByCopy (message : MSG)
| ByMove (message : MSG)
| Emplace (args : ARGS).

Definition payload_of (c : Call) : option MSG :=
  match c with
  | ByCopy m => by_copy m
  | ByMove m => by_move m
  | Emplace a => by_construction a
  end.

(** How a call ended for its caller. *)
Inductive Return : Type :=
| Ret (result : bool)
| Raised.

(** Where a producer stands inside [PushMessage] / [EmplaceMessage]. *)
Inductive ProducerPC : Type :=
| P_Allocate
| P_Index (index : Z)
| P_Body (index : Z)
| P_Commit (index : Z)
| P_Count (result : bool).

(** A producer thread: its place in the current call, the calls to make
    (the current one first) and what its finished calls gave, oldest
    first. *)
Record Producer : Type := mkProducer {
  p_pc : ProducerPC;
  p_calls : list Call;
  p_returns : list Return
}.

Inductive ConsumerPC : Type := C_Await | C_Dispatch | C_Recycle | C_Exited.

(** The consumer thread: its place in the loop and its local [tail]. *)
Record Consumer : Type := mkConsumer {
  c_pc : ConsumerPC;
  c_tail : Z
}.

Record System : Type := mkSystem {
  sys_queue : MMQ;
  sys_producers : list Producer;
  sys_consumer : Consumer;
  sys_dispatched : list Dispatch
}.

Inductive Thread : Type :=
| Producing (i : nat)
| Consuming
| Destroying.

(** What a thread does when it is scheduled: a transition, nothing (it
    sleeps or has finished), or undefined behaviour. *)
Inductive Step (A : Type) : Type :=
| Next (a : A)
| Idle
| Crash.

Arguments Next {A} a.
Arguments Idle {A}.
Arguments Crash {A}.

Definition at_pc (pc : ProducerPC) (p : Producer) : Producer :=
  {| p_pc := pc; p_calls := p_calls p; p_returns := p_returns p |}.

(** The current call is over: its outcome is recorded and the next call, if
    any, starts at [PushMessageAllocate]. *)
Definition finish_call (r : Return) (p : Producer) : Producer :=
  {| p_pc := P_Allocate; p_calls := tail (p_calls p);
     p_returns := p_returns p ++ [r] |}.

Definition producer_step (DROP : bool) (q : MMQ) (p : Producer)
  : Step (MMQ * Producer) :=
  match p_calls p with
  | [] => Idle
  | c :: _ =>
      match p_pc p with
      | P_Allocate =>
          match PushMessageAllocate DROP q with
          | Returned index q' =>
              if negb (index =? size_max)
              then Next (q', at_pc (P_Index index) p)
              else Next (q', at_pc (P_Count false) p)
          | Blocked => Idle
          | Threw _ | Fault => Crash
          end
      | P_Index index =>
          match store_absolute_index index q with
          | Returned _ q' => Next (q', at_pc (P_Body index) p)
          | Blocked => Idle
          | Threw _ | Fault => Crash
          end
      | P_Body index =>
          match store_message_body index (payload_of c) q with
          | Returned _ q' => Next (q', at_pc (P_Commit index) p)
          | Threw q' => Next (q', finish_call Raised p)
          | Blocked => Idle
          | Fault => Crash
          end
      | P_Commit index =>
          match PushMessageCommit index q with
          | Returned _ q' => Next (q', at_pc (P_Count true) p)
          | Blocked => Idle
          | Threw _ | Fault => Crash
          end
      | P_Count result =>
          match count_message q with
          | Returned _ q' => Next (q', finish_call (Ret result) p)
          | Blocked => Idle
          | Threw _ | Fault => Crash
          end
      end
  end.

Definition consumer_step (q : MMQ) (c : Consumer) (log : list Dispatch)
  : Step (MMQ * Consumer * list Dispatch) :=
  match c_pc c with
  | C_Await =>
      match ConsumerThread_await (c_tail c) q with
      | Exit => Next (q, {| c_pc := C_Exited; c_tail := c_tail c |}, log)
      | Sleep => Idle
      | Export q' =>
          Next (q', {| c_pc := C_Dispatch; c_tail := c_tail c |}, log)
      | AwaitFault => Crash
      end
  | C_Dispatch =>
      match ConsumerThread_dispatch (c_tail c) q with
      | Some d =>
          Next (q, {| c_pc := C_Recycle; c_tail := c_tail c |}, log ++ [d])
      | None => Crash
      end
  | C_Recycle =>
      match ConsumerThread_recycle (c_tail c) q with
      | Some (q', t) => Next (q', {| c_pc := C_Await; c_tail := t |}, log)
      | None => Crash
      end
  | C_Exited => Idle
  end.

Definition step (DROP : bool) (t : Thread) (s : System) : Step System :=
  match t with
  | Producing i =>
      match sys_producers s !! i with
      | None => Idle
      | Some p =>
          match producer_step DROP (sys_queue s) p with
          | Next (q', p') =>
              Next {| sys_queue := q';
                      sys_producers := <[i := p']> (sys_producers s);
                      sys_consumer := sys_consumer s;
                      sys_dispatched := sys_dispatched s |}
          | Idle => Idle
          | Crash => Crash
          end
      end
  | Consuming =>
      match consumer_step (sys_queue s) (sys_consumer s) (sys_dispatched s) with
      | Next (q', c', log') =>
          Next {| sys_queue := q';
                  sys_producers := sys_producers s;
                  sys_consumer := c';
                  sys_dispatched := log' |}
      | Idle => Idle
      | Crash => Crash
      end
  | Destroying =>
      if destructing_ (sys_queue s) then Idle
      else
        Next {| sys_queue := MMQ_destruct (sys_queue s);
                sys_producers := sys_producers s;
                sys_consumer := sys_consumer s;
                sys_dispatched := sys_dispatched s |}
  end.

(** A queue right after its constructor, with the consumer thread at the
    top of its loop ([tail = 0u]) and one producer per list of calls. *)
Definition boot (buffer_size : Z) (calls : list (list Call)) : System :=
  {| sys_queue := MMQ_new buffer_size;
     sys_producers :=
       map (fun cs => {| p_pc := P_Allocate; p_calls := cs; p_returns := [] |})
           calls;
     sys_consumer := {| c_pc := C_Await; c_tail := 0 |};
     sys_dispatched := [] |}.

Inductive reachable (DROP : bool) (s0 : System) : System -> Prop :=
| reachable_start : reachable DROP s0 s0
| reachable_step s t s' :
    reachable DROP s0 s -> step DROP t s = Next s' -> reachable DROP s0 s'.

(** Running a schedule: the threads named are scheduled in turn; a thread
    that can do nothing is skipped; [None] is undefined behaviour. *)
Fixpoint run (DROP : bool) (schedule : list Thread) (s : System)
  : option System :=
  match schedule with
  | [] => Some s
  | t :: rest =>
      match step DROP t s with
      | Next s' => run DROP rest s'
      | Idle => run DROP rest s
      | Crash => None
      end
  end.

(** The legal changes of an entry's status. *)
Inductive transition : Status -> Status -> Prop :=
| producer_reserves : transition FREE BEING_IMPORTED
| producer_publishes : transition BEING_IMPORTED READY
| consumer_pops : transition READY BEING_EXPORTED
| consumer_finishes : transition BEING_EXPORTED FREE.

(** The three submission operations, by the kind of call. *)
Definition submit (DROP : bool) (c : Call) : Code bool :=
  match c with
  | ByCopy m => PushMessage DROP m
  | ByMove m => PushMessage_rvalue DROP m
  | Emplace a => EmplaceMessage DROP a
  end.

(** ** Facts about the transformers *)

Lemma entry_at_Some (buf : list Entry) (i : Z) (e : Entry) :
  entry_at buf i = Some e -> 0 <= i < Z.of_nat (length buf).
Proof.
  unfold entry_at. destruct (Z.ltb_spec i 0); [discriminate|].
  intros He. apply lookup_lt_Some in He. lia.
Qed.

Lemma entry_at_in_range (buf : list Entry) (i : Z) :
  0 <= i < Z.of_nat (length buf) -> exists e, entry_at buf i = Some e.
Proof.
  intros Hi. unfold entry_at. destruct (Z.ltb_spec i 0); [lia|].
  destruct (lookup_lt_is_Some_2 buf (Z.to_nat i)) as [e He]; [lia|]. eauto.
Qed.

Lemma entry_at_None (buf : list Entry) (i : Z) :
  entry_at buf i = None <-> ~ (0 <= i < Z.of_nat (length buf)).
Proof.
  split.
  - intros Hn Hi. destruct (entry_at_in_range buf i Hi). congruence.
  - intros Hi. destruct (entry_at buf i) eqn:E; [|reflexivity].
    apply entry_at_Some in E. contradiction.
Qed.

Lemma entry_at_insert_eq (buf : list Entry) (i : Z) (e e' : Entry) :
  entry_at buf i = Some e -> entry_at (<[Z.to_nat i := e']> buf) i = Some e'.
Proof.
  intros He. pose proof (entry_at_Some _ _ _ He).
  unfold entry_at. destruct (Z.ltb_spec i 0); [lia|].
  apply list_lookup_insert_eq. lia.
Qed.

Lemma entry_at_insert_ne (buf : list Entry) (i j : Z) (e' : Entry) :
  0 <= i -> i <> j -> entry_at (<[Z.to_nat i := e']> buf) j = entry_at buf j.
Proof.
  intros Hi Hne. unfold entry_at. destruct (Z.ltb_spec j 0); [reflexivity|].
  apply list_lookup_insert_ne. lia.
Qed.

Lemma update_at_Some (f : Entry -> Entry) (i : Z) (q q' : MMQ) :
  update_at f i q = Some q' ->
  exists e, entry_at (circular_buffer_ q) i = Some e /\
            q' = set_buffer (<[Z.to_nat i := f e]> (circular_buffer_ q)) q.
Proof.
  unfold update_at. destruct (entry_at _ i) as [e|]; [|discriminate].
  intros [= <-]. eauto.
Qed.

Lemma update_at_entry (f : Entry -> Entry) (i : Z) (q q' : MMQ) (e : Entry) :
  update_at f i q = Some q' -> entry_at (circular_buffer_ q) i = Some e ->
  entry_at (circular_buffer_ q') i = Some (f e).
Proof.
  intros Hu He. apply update_at_Some in Hu as (e0 & He0 & ->).
  simpl. rewrite He0 in He. injection He as ->.
  eapply entry_at_insert_eq; eauto.
Qed.

Lemma update_at_other (f : Entry -> Entry) (i j : Z) (q q' : MMQ) :
  update_at f i q = Some q' -> i <> j ->
  entry_at (circular_buffer_ q') j = entry_at (circular_buffer_ q) j.
Proof.
  intros Hu Hne. apply update_at_Some in Hu as (e0 & He0 & ->).
  simpl. apply entry_at_insert_ne; [|assumption].
  apply entry_at_Some in He0. lia.
Qed.

Lemma update_at_frame (f : Entry -> Entry) (i : Z) (q q' : MMQ) :
  update_at f i q = Some q' ->
  circular_buffer_size_ q' = circular_buffer_size_ q /\
  head_ q' = head_ q /\
  total_messages_ q' = total_messages_ q /\
  destructing_ q' = destructing_ q /\
  length (circular_buffer_ q') = length (circular_buffer_ q).
Proof.
  intros Hu. apply update_at_Some in Hu as (e0 & He0 & ->).
  simpl. rewrite length_insert. auto.
Qed.

Lemma Increment_Some (size i h : Z) :
  Increment size i = Some h -> size <> 0 /\ h = wrap (i + 1) mod size.
Proof.
  unfold Increment. destruct (Z.eqb_spec size 0); [discriminate|].
  intros [= <-]. auto.
Qed.

(** What a successful reservation does. *)
Lemma reserve_head_Returned (q q' : MMQ) (index : Z) :
  reserve_head q = Returned index q' ->
  index = head_ q /\
  exists e h,
    entry_at (circular_buffer_ q) index = Some e /\
    Increment (circular_buffer_size_ q) (head_ q) = Some h /\
    q' = set_buffer (<[Z.to_nat index := with_status BEING_IMPORTED e]>
                       (circular_buffer_ q)) (set_head h q).
Proof.
  unfold reserve_head.
  destruct (Increment _ _) as [h|] eqn:Hh; [|discriminate].
  destruct (update_at _ _ _) as [q1|] eqn:Hu; [|discriminate].
  intros [= <- <-]. split; [reflexivity|].
  apply update_at_Some in Hu as (e & He & ->). simpl in He. eauto.
Qed.

(** [PushMessageAllocate] returns the sentinel and leaves the queue alone,
    or reserves the FREE head entry. *)
Lemma PushMessageAllocate_Returned (DROP : bool) (q q' : MMQ) (index : Z) :
  PushMessageAllocate DROP q = Returned index q' ->
  (index = size_max /\ q' = q /\
   (if DROP
    then exists e, entry_at (circular_buffer_ q) (head_ q) = Some e /\
                   status e <> FREE
    else destructing_ q = true)) \/
  (reserve_head q = Returned index q' /\
   (DROP = false -> destructing_ q = false) /\
   exists e, entry_at (circular_buffer_ q) (head_ q) = Some e /\
             status e = FREE).
Proof.
  unfold PushMessageAllocate. destruct DROP.
  - destruct (entry_at _ _) as [e|] eqn:He; [|discriminate].
    destruct (status_eqb (status e) FREE) eqn:Hs.
    + intros Hr. right. apply status_eqb_eq in Hs. split; [|split]; eauto.
      discriminate.
    + intros [= <- <-]. left. apply status_eqb_neq in Hs. eauto.
  - destruct (destructing_ q) eqn:Hd.
    + intros [= <- <-]. left. auto.
    + destruct (entry_at _ _) as [e|] eqn:He; [|discriminate].
      destruct (status_eqb (status e) FREE) eqn:Hs; [|discriminate].
      intros Hr. right. apply status_eqb_eq in Hs. eauto.
Qed.

(** The body shared by the three operations, with the payload abstracted:
    they differ in the payload only. *)
Definition push_payload (DROP : bool) (v : option MSG) : Code bool :=
  index <- PushMessageAllocate DROP ;;
  result <- (if negb (index =? size_max) then
               store_absolute_index index ;;;
               store_message_body index v ;;;
               PushMessageCommit index ;;;
               ret true
             else ret false) ;;
  count_message ;;;
  ret result.

Lemma submit_push_payload (DROP : bool) (c : Call) :
  submit DROP c = push_payload DROP (payload_of c).
Proof. destruct c; reflexivity. Qed.

(** A call, in one equation: what it gives once [PushMessageAllocate] has
    answered. *)
Lemma push_payload_unfold (DROP : bool) (v : option MSG) (q : MMQ) :
  push_payload DROP v q =
  match PushMessageAllocate DROP q with
  | Returned index q1 =>
      if index =? size_max then
        Returned false (set_total (wrap (total_messages_ q1 + 1)) q1)
      else
        match entry_at (circular_buffer_ q1) index with
        | None => Fault
        | Some e =>
            match v with
            | None =>
                Threw (set_buffer
                         (<[Z.to_nat index :=
                              with_absolute_index (total_messages_ q1) e]>
                            (circular_buffer_ q1)) q1)
            | Some m =>
                Returned true
                  (set_total (wrap (total_messages_ q1 + 1))
                     (set_buffer
                        (<[Z.to_nat index :=
                             {| absolute_index := total_messages_ q1;
                                message_body := m;
                                status := READY |}]>
                           (circular_buffer_ q1)) q1))
            end
        end
  | Blocked => Blocked
  | Threw q1 => Threw q1
  | Fault => Fault
  end.
Proof.
  unfold push_payload, bind.
  destruct (PushMessageAllocate DROP q) as [index q1| |q1|]; try reflexivity.
  destruct (index =? size_max); simpl; [reflexivity|].
  unfold store_absolute_index, lift, update_at.
  destruct (entry_at (circular_buffer_ q1) index) as [e|] eqn:He;
    [|reflexivity].
  destruct v as [m|]; simpl; [|reflexivity].
  unfold PushMessageCommit, lift, update_at. simpl.
  rewrite (entry_at_insert_eq _ _ _ _ He). simpl.
  rewrite list_insert_insert_eq.
  rewrite (entry_at_insert_eq _ _ _ _ He). simpl.
  rewrite list_insert_insert_eq. reflexivity.
Qed.

Lemma PushMessageAllocate_frame (DROP : bool) (q q' : MMQ) (index : Z) :
  PushMessageAllocate DROP q = Returned index q' ->
  circular_buffer_size_ q' = circular_buffer_size_ q /\
  total_messages_ q' = total_messages_ q /\
  destructing_ q' = destructing_ q /\
  length (circular_buffer_ q') = length (circular_buffer_ q).
Proof.
  intros Ha.
  apply PushMessageAllocate_Returned in Ha as [(_ & -> & _)|(Hr & _)].
  - auto.
  - apply reserve_head_Returned in Hr as (_ & e & h & _ & _ & ->).
    simpl. rewrite length_insert. auto.
Qed.

(** A reservation leaves the reserved entry BEING_IMPORTED at the old head. *)
Lemma PushMessageAllocate_reserved (DROP : bool) (q q' : MMQ) (index : Z) :
  PushMessageAllocate DROP q = Returned index q' -> index <> size_max ->
  index = head_ q /\
  exists e, entry_at (circular_buffer_ q) index = Some e /\
            status e = FREE /\
            entry_at (circular_buffer_ q') index =
              Some (with_status BEING_IMPORTED e).
Proof.
  intros Ha Hne.
  apply PushMessageAllocate_Returned in Ha as [(-> & _)|(Hr & _ & e & He & Hs)];
    [contradiction|].
  apply reserve_head_Returned in Hr as (-> & e' & h & He' & _ & ->).
  split; [reflexivity|]. rewrite He in He'. injection He' as <-.
  exists e. split; [assumption|]. split; [assumption|].
  simpl. eapply entry_at_insert_eq; eauto.
Qed.

(** ** The moves of the threads

    The step functions, read as relations: one constructor per transformer
    that can run. *)

Inductive producer_moves (DROP : bool) (q : MMQ) (p : Producer)
  : MMQ -> Producer -> Prop :=
| pm_allocate index q' :
    p_pc p = P_Allocate -> p_calls p <> [] ->
    PushMessageAllocate DROP q = Returned index q' ->
    producer_moves DROP q p q'
      (at_pc (if negb (index =? size_max) then P_Index index
              else P_Count false) p)
| pm_index x q' :
    p_pc p = P_Index x ->
    update_at (with_absolute_index (total_messages_ q)) x q = Some q' ->
    producer_moves DROP q p q' (at_pc (P_Body x) p)
| pm_body x c rest m q' :
    p_pc p = P_Body x -> p_calls p = c :: rest -> payload_of c = Some m ->
    update_at (with_message_body m) x q = Some q' ->
    producer_moves DROP q p q' (at_pc (P_Commit x) p)
| pm_raise x c rest :
    p_pc p = P_Body x -> p_calls p = c :: rest -> payload_of c = None ->
    producer_moves DROP q p q (finish_call Raised p)
| pm_commit x q' :
    p_pc p = P_Commit x ->
    update_at (with_status READY) x q = Some q' ->
    producer_moves DROP q p q' (at_pc (P_Count true) p)
| pm_count r :
    p_pc p = P_Count r ->
    producer_moves DROP q p (set_total (wrap (total_messages_ q + 1)) q)
      (finish_call (Ret r) p).

Lemma producer_step_Next (DROP : bool) (q q' : MMQ) (p p' : Producer) :
  producer_step DROP q p = Next (q', p') -> producer_moves DROP q p q' p'.
Proof.
  unfold producer_step.
  destruct (p_calls p) as [|c rest] eqn:Hc; [discriminate|].
  destruct (p_pc p) as [|x|x|x|r] eqn:Hpc.
  - destruct (PushMessageAllocate DROP q) as [index q1| |q1|] eqn:Ha;
      try discriminate.
    intros Hn.
    assert (q' = q1 /\
            p' = at_pc (if negb (index =? size_max) then P_Index index
                        else P_Count false) p) as [-> ->].
    { destruct (negb (index =? size_max)); injection Hn as <- <-; auto. }
    apply pm_allocate; [assumption|congruence|assumption].
  - unfold store_absolute_index, lift.
    destruct (update_at _ x q) as [q1|] eqn:Hu; [|discriminate].
    intros [= <- <-]. eapply pm_index; eassumption.
  - unfold store_message_body, lift.
    destruct (payload_of c) as [m|] eqn:Hp.
    + destruct (update_at _ x q) as [q1|] eqn:Hu; [|discriminate].
      intros [= <- <-]. eapply pm_body; eassumption.
    + intros [= <- <-]. eapply pm_raise; eassumption.
  - unfold PushMessageCommit, lift.
    destruct (update_at _ x q) as [q1|] eqn:Hu; [|discriminate].
    intros [= <- <-]. eapply pm_commit; eassumption.
  - unfold count_message. intros [= <- <-]. eapply pm_count; eassumption.
Qed.

Inductive consumer_moves (q : MMQ) (c : Consumer) (log : list Dispatch)
  : MMQ -> Consumer -> list Dispatch -> Prop :=
| cm_exit e :
    c_pc c = C_Await ->
    entry_at (circular_buffer_ q) (c_tail c) = Some e ->
    destructing_ q = true ->
    consumer_moves q c log q {| c_pc := C_Exited; c_tail := c_tail c |} log
| cm_export e q' :
    c_pc c = C_Await ->
    entry_at (circular_buffer_ q) (c_tail c) = Some e ->
    destructing_ q = false -> status e = READY ->
    update_at (with_status BEING_EXPORTED) (c_tail c) q = Some q' ->
    consumer_moves q c log q' {| c_pc := C_Dispatch; c_tail := c_tail c |} log
| cm_dispatch e :
    c_pc c = C_Dispatch ->
    entry_at (circular_buffer_ q) (c_tail c) = Some e ->
    consumer_moves q c log q {| c_pc := C_Recycle; c_tail := c_tail c |}
      (log ++ [{| d_message := message_body e;
                  d_index := absolute_index e;
                  d_total := total_messages_ q |}])
| cm_recycle q' t :
    c_pc c = C_Recycle ->
    update_at (with_status FREE) (c_tail c) q = Some q' ->
    Increment (circular_buffer_size_ q) (c_tail c) = Some t ->
    consumer_moves q c log q' {| c_pc := C_Await; c_tail := t |} log.

Lemma consumer_step_Next
  (q q' : MMQ) (c c' : Consumer) (log log' : list Dispatch) :
  consumer_step q c log = Next (q', c', log') ->
  consumer_moves q c log q' c' log'.
Proof.
  unfold consumer_step. destruct (c_pc c) eqn:Hpc; try discriminate.
  - unfold ConsumerThread_await.
    destruct (entry_at _ _) as [e|] eqn:He; [|discriminate].
    destruct (status_eqb (status e) READY) eqn:Hs; simpl.
    + apply status_eqb_eq in Hs. destruct (destructing_ q) eqn:Hd.
      * intros [= <- <- <-]. eapply cm_exit; eassumption.
      * destruct (update_at _ _ q) as [q1|] eqn:Hu; [|discriminate].
        intros [= <- <- <-]. eapply cm_export; eassumption.
    + destruct (destructing_ q) eqn:Hd; [|discriminate].
      intros [= <- <- <-]. eapply cm_exit; eassumption.
  - unfold ConsumerThread_dispatch.
    destruct (entry_at _ _) as [e|] eqn:He; [|discriminate].
    intros [= <- <- <-]. apply cm_dispatch; assumption.
  - unfold ConsumerThread_recycle.
    destruct (update_at _ _ q) as [q1|] eqn:Hu; [|discriminate].
    destruct (Increment _ _) as [t|] eqn:Ht; [|discriminate].
    intros [= <- <- <-]. apply cm_recycle; [assumption..|].
    apply update_at_frame in Hu as (<- & _). assumption.
Qed.

(** The moves of the whole system. *)
Inductive moves (DROP : bool) (s : System) : System -> Prop :=
| m_producer i p q' p' :
    sys_producers s !! i = Some p ->
    producer_moves DROP (sys_queue s) p q' p' ->
    moves DROP s {| sys_queue := q';
                    sys_producers := <[i := p']> (sys_producers s);
                    sys_consumer := sys_consumer s;
                    sys_dispatched := sys_dispatched s |}
| m_consumer q' c' log' :
    consumer_moves (sys_queue s) (sys_consumer s) (sys_dispatched s)
      q' c' log' ->
    moves DROP s {| sys_queue := q';
                    sys_producers := sys_producers s;
                    sys_consumer := c';
                    sys_dispatched := log' |}
| m_destroy :
    destructing_ (sys_queue s) = false ->
    moves DROP s {| sys_queue := MMQ_destruct (sys_queue s);
                    sys_producers := sys_producers s;
                    sys_consumer := sys_consumer s;
                    sys_dispatched := sys_dispatched s |}.

Lemma step_Next (DROP : bool) (t : Thread) (s s' : System) :
  step DROP t s = Next s' -> moves DROP s s'.
Proof.
  unfold step. destruct t as [i| |].
  - destruct (sys_producers s !! i) as [p|] eqn:Hp; [|discriminate].
    destruct (producer_step DROP (sys_queue s) p) as [[q' p']| |] eqn:Hs;
      try discriminate.
    intros [= <-]. eapply m_producer; [eassumption|].
    apply producer_step_Next. assumption.
  - destruct (consumer_step _ _ _) as [[[q' c'] log']| |] eqn:Hs;
      try discriminate.
    intros [= <-]. apply m_consumer. apply consumer_step_Next. assumption.
  - destruct (destructing_ (sys_queue s)) eqn:Hd; [discriminate|].
    intros [= <-]. apply m_destroy. assumption.
Qed.

(** An invariant of the moves holds in every reachable state. *)
Lemma reachable_invariant (DROP : bool) (P : System -> Prop) (s0 s : System) :
  P s0 ->
  (forall s1 s2, P s1 -> moves DROP s1 s2 -> P s2) ->
  reachable DROP s0 s -> P s.
Proof.
  intros H0 Hstep Hr. induction Hr as [|s1 t s2 _ IH Hs]; [assumption|].
  eapply Hstep; [exact IH|]. eapply step_Next. exact Hs.
Qed.

(** ** Who owns which entry

    The entry a producer has reserved and not yet published is
    BEING_IMPORTED and belongs to that producer alone; the entry the
    consumer is handing to the sink is BEING_EXPORTED. *)

Definition status_at (q : MMQ) (i : Z) : option Status :=
  match entry_at (circular_buffer_ q) i with
  | Some e => Some (status e)
  | None => None
  end.

(** The entry a producer holds between reservation and publication. *)
Definition held (p : Producer) : option Z :=
  match p_pc p with
  | P_Index x | P_Body x | P_Commit x => Some x
  | P_Allocate | P_Count _ => None
  end.

Definition exporting (c : Consumer) : bool :=
  match c_pc c with
  | C_Dispatch | C_Recycle => true
  | C_Await | C_Exited => false
  end.

Record coherent (s : System) : Prop := mkCoherent {
  coh_held : forall i p x,
    sys_producers s !! i = Some p -> held p = Some x ->
    status_at (sys_queue s) x = Some BEING_IMPORTED;
  coh_apart : forall i j p p' x,
    sys_producers s !! i = Some p -> sys_producers s !! j = Some p' ->
    held p = Some x -> held p' = Some x -> i = j;
  coh_export :
    exporting (sys_consumer s) = true ->
    status_at (sys_queue s) (c_tail (sys_consumer s)) = Some BEING_EXPORTED
}.

Lemma status_at_update (f : Entry -> Entry) (x : Z) (q q' : MMQ) :
  update_at f x q = Some q' ->
  exists e,
    entry_at (circular_buffer_ q) x = Some e /\
    status_at q' x = Some (status (f e)) /\
    forall j, j <> x -> status_at q' j = status_at q j.
Proof.
  intros Hu. pose proof (update_at_Some _ _ _ _ Hu) as (e & He & _).
  exists e. split; [assumption|]. split.
  - unfold status_at. rewrite (update_at_entry _ _ _ _ _ Hu He). reflexivity.
  - intros j Hj. unfold status_at.
    rewrite (update_at_other _ _ j _ _ Hu); [reflexivity|congruence].
Qed.

(** An update that keeps the status keeps every status. *)
Lemma status_at_update_keep (f : Entry -> Entry) (x : Z) (q q' : MMQ) :
  (forall e, status (f e) = status e) ->
  update_at f x q = Some q' ->
  forall j, status_at q' j = status_at q j.
Proof.
  intros Hf Hu j. destruct (status_at_update _ _ _ _ Hu) as (e & He & Hx & Ho).
  destruct (Z.eq_dec j x) as [->|Hne]; [|auto].
  rewrite Hx, Hf. unfold status_at. rewrite He. reflexivity.
Qed.

(** The effect of [PushMessageAllocate] on the statuses. *)
Lemma PushMessageAllocate_status (DROP : bool) (q q' : MMQ) (index : Z) :
  PushMessageAllocate DROP q = Returned index q' ->
  (index = size_max /\ q' = q) \/
  (index = head_ q /\
   status_at q index = Some FREE /\
   status_at q' index = Some BEING_IMPORTED /\
   forall j, j <> index -> status_at q' j = status_at q j).
Proof.
  intros Ha.
  apply PushMessageAllocate_Returned in Ha as [(-> & -> & _)|(Hr & _ & e & He & Hs)];
    [left; auto|right].
  apply reserve_head_Returned in Hr as (-> & e' & h & He' & _ & ->).
  rewrite He in He'. injection He' as <-.
  split; [reflexivity|]. unfold status_at. simpl.
  rewrite He, Hs. split; [reflexivity|].
  rewrite (entry_at_insert_eq _ _ _ _ He). split; [reflexivity|].
  intros j Hj. rewrite entry_at_insert_ne; [reflexivity| |congruence].
  apply entry_at_Some in He. lia.
Qed.

Lemma held_at_pc (pc : ProducerPC) (p : Producer) :
  held (at_pc pc p) =
  match pc with
  | P_Index x | P_Body x | P_Commit x => Some x
  | P_Allocate | P_Count _ => None
  end.
Proof. reflexivity. Qed.

Lemma held_finish_call (r : Return) (p : Producer) :
  held (finish_call r p) = None.
Proof. reflexivity. Qed.

Lemma lookup_insert_producer
  (ps : list Producer) (i k : nat) (p' pk : Producer) :
  <[i := p']> ps !! k = Some pk ->
  (k = i /\ pk = p') \/ (k <> i /\ ps !! k = Some pk).
Proof.
  intros H. apply list_lookup_insert_Some in H as [(-> & -> & _)|(Hne & H)];
    [left|right]; auto.
Qed.

(** A move of a producer that changes no status and gives the producer no
    new entry keeps the system coherent. *)
Lemma coherent_producer_quiet
  (s : System) (i : nat) (p p' : Producer) (q' : MMQ)
  (log : list Dispatch) :
  coherent s ->
  sys_producers s !! i = Some p ->
  (forall j, status_at q' j = status_at (sys_queue s) j) ->
  (forall x, held p' = Some x -> held p = Some x) ->
  coherent {| sys_queue := q';
              sys_producers := <[i := p']> (sys_producers s);
              sys_consumer := sys_consumer s;
              sys_dispatched := log |}.
Proof.
  intros [Hh Ha He] Hp Hq Hheld. constructor; simpl.
  - intros k pk x Hk Hx. rewrite Hq.
    apply lookup_insert_producer in Hk as [(-> & ->)|(Hne & Hk)]; eauto.
  - intros k l pk pl x Hk Hl Hx Hy.
    apply lookup_insert_producer in Hk as [(-> & ->)|(Hnk & Hk)];
      apply lookup_insert_producer in Hl as [(-> & ->)|(Hnl & Hl)]; eauto.
  - intros Hex. rewrite Hq. auto.
Qed.

Lemma moves_coherent (DROP : bool) (s s' : System) :
  coherent s -> moves DROP s s' -> coherent s'.
Proof.
  intros Hc Hm. destruct Hm as [i p q' p' Hp Hpm|q' c' log' Hcm|Hd].
  - destruct Hpm as [index q' Hpc Hcalls Ha|x q' Hpc Hu|x c rest m q' Hpc Hcs Hpl Hu
                    |x c rest Hpc Hcs Hpl|x q' Hpc Hu|r Hpc].
    + (* PushMessageAllocate *)
      apply PushMessageAllocate_status in Ha
        as [(-> & ->)|(-> & Hfree & Hnew & Hother)].
      * apply coherent_producer_quiet with (p := p); auto. discriminate.
      * destruct Hc as [Hh Hap He].
        assert (forall k pk y, sys_producers s !! k = Some pk ->
                  held pk = Some y -> y <> head_ (sys_queue s)) as Hfresh.
        { intros k pk y Hk Hy ->. rewrite (Hh _ _ _ Hk Hy) in Hfree.
          discriminate. }
        assert (forall y, held (at_pc
                  (if negb (head_ (sys_queue s) =? size_max)
                   then P_Index (head_ (sys_queue s)) else P_Count false) p)
                  = Some y -> y = head_ (sys_queue s)) as Hmine.
        { intros y. destruct (negb _); rewrite held_at_pc; congruence. }
        constructor; simpl.
        -- intros k pk y Hk Hy.
           apply lookup_insert_producer in Hk as [(-> & ->)|(Hne & Hk)].
           ++ apply Hmine in Hy as ->. assumption.
           ++ rewrite Hother; eauto.
        -- intros k l pk pl y Hk Hl Hy Hz.
           apply lookup_insert_producer in Hk as [(-> & ->)|(Hnk & Hk)];
             apply lookup_insert_producer in Hl as [(-> & ->)|(Hnl & Hl)];
             eauto.
           ++ apply Hmine in Hy as ->. exfalso. eapply Hfresh; eauto.
           ++ apply Hmine in Hz as ->. exfalso. eapply Hfresh; eauto.
        -- intros Hex. rewrite Hother; [auto|].
           intros Heq. rewrite Heq, Hfree in He. specialize (He Hex).
           discriminate.
    + (* absolute_index *)
      apply coherent_producer_quiet with (p := p); auto.
      * eapply status_at_update_keep; [|exact Hu]. reflexivity.
      * unfold held. rewrite Hpc. simpl. auto.
    + (* message_body *)
      apply coherent_producer_quiet with (p := p); auto.
      * eapply status_at_update_keep; [|exact Hu]. reflexivity.
      * unfold held. rewrite Hpc. simpl. auto.
    + (* the payload throws *)
      apply coherent_producer_quiet with (p := p); auto. discriminate.
    + (* PushMessageCommit *)
      destruct (status_at_update _ _ _ _ Hu) as (e & He & Hx & Hother).
      destruct Hc as [Hh Hap Hex].
      assert (held p = Some x) as Hpx by (unfold held; rewrite Hpc; auto).
      constructor; simpl.
      * intros k pk y Hk Hy.
        apply lookup_insert_producer in Hk as [(-> & ->)|(Hne & Hk)];
          [discriminate|].
        rewrite Hother; [eauto|]. intros ->. apply Hne. eauto.
      * intros k l pk pl y Hk Hl Hy Hz.
        apply lookup_insert_producer in Hk as [(-> & ->)|(Hnk & Hk)];
          [discriminate|].
        apply lookup_insert_producer in Hl as [(-> & ->)|(Hnl & Hl)];
          [discriminate|]. eauto.
      * intros Hexp. rewrite Hother; [auto|].
        intros Heq. specialize (Hex Hexp). rewrite Heq in Hex.
        rewrite (Hh _ _ _ Hp Hpx) in Hex. discriminate.
    + (* ++total_messages_ *)
      apply coherent_producer_quiet with (p := p); auto. discriminate.
  - destruct Hc as [Hh Hap Hex].
    destruct Hcm as [e Hpc He Hd|e q' Hpc He Hd Hs Hu|e Hpc He|q' t Hpc Hu Ht].
    + constructor; simpl; eauto. discriminate.
    + destruct (status_at_update _ _ _ _ Hu) as (e' & He' & Hx & Hother).
      assert (status_at (sys_queue s) (c_tail (sys_consumer s)) = Some READY)
        as Hready by (unfold status_at; rewrite He, Hs; reflexivity).
      constructor; simpl; eauto.
      intros k pk y Hk Hy. rewrite Hother; [eauto|].
      intros ->. rewrite (Hh _ _ _ Hk Hy) in Hready. discriminate.
    + constructor; simpl; eauto.
      intros _. apply Hex. unfold exporting. rewrite Hpc. reflexivity.
    + destruct (status_at_update _ _ _ _ Hu) as (e' & He' & Hx & Hother).
      assert (status_at (sys_queue s) (c_tail (sys_consumer s)) =
                Some BEING_EXPORTED) as Hbe.
      { apply Hex. unfold exporting. rewrite Hpc. reflexivity. }
      constructor; simpl; eauto; [|discriminate].
      intros k pk y Hk Hy. rewrite Hother; [eauto|].
      intros ->. rewrite (Hh _ _ _ Hk Hy) in Hbe. discriminate.
  - destruct Hc as [Hh Hap Hex]. constructor; simpl; eauto.
Qed.

Lemma boot_coherent (n : Z) (calls : list (list Call)) :
  coherent (boot n calls).
Proof.
  constructor; simpl.
  - intros i p x Hp. apply list_lookup_fmap_Some in Hp as (cs & -> & _).
    discriminate.
  - intros i j p p' x Hp. apply list_lookup_fmap_Some in Hp as (cs & -> & _).
    discriminate.
  - discriminate.
Qed.

Lemma reachable_coherent
  (DROP : bool) (n : Z) (calls : list (list Call)) (s : System) :
  reachable DROP (boot n calls) s -> coherent s.
Proof.
  apply reachable_invariant.
  - apply boot_coherent.
  - intros s1 s2. apply moves_coherent.
Qed.

(** In a coherent system a move changes the status of an entry along one
    of the four transitions, if at all. *)
Lemma moves_transition (DROP : bool) (s s' : System) (j : Z) (a b : Status) :
  coherent s -> moves DROP s s' ->
  status_at (sys_queue s) j = Some a ->
  status_at (sys_queue s') j = Some b ->
  a = b \/ transition a b.
Proof.
  intros [Hh Hap Hex] Hm Ha Hb.
  assert (forall f x q',
            update_at f x (sys_queue s) = Some q' ->
            sys_queue s' = q' ->
            (forall e, status (f e) = status e) -> a = b) as Hkeep.
  { intros f x q' Hu Hq Hf. rewrite Hq in Hb.
    rewrite (status_at_update_keep _ _ _ _ Hf Hu) in Hb. congruence. }
  assert (forall st x q' c,
            update_at (with_status st) x (sys_queue s) = Some q' ->
            sys_queue s' = q' ->
            status_at (sys_queue s) x = Some c -> transition c st ->
            a = b \/ transition a b) as Hone.
  { intros st x q' c Hu Hq Hc Ht. rewrite Hq in Hb.
    destruct (status_at_update _ _ _ _ Hu) as (e & He & Hx & Hother).
    destruct (Z.eq_dec j x) as [->|Hne].
    - right. simpl in Hx. congruence.
    - left. rewrite Hother in Hb by assumption. congruence. }
  destruct Hm as [i p q' p' Hp Hpm|q' c' log' Hcm|Hd]; simpl in Hb.
  - destruct Hpm as [index q' Hpc Hcalls Hal|x q' Hpc Hu|x c rest m q' Hpc Hcs Hpl Hu
                    |x c rest Hpc Hcs Hpl|x q' Hpc Hu|r Hpc].
    + apply PushMessageAllocate_status in Hal
        as [(-> & ->)|(-> & Hfree & Hnew & Hother)]; [left; congruence|].
      destruct (Z.eq_dec j (head_ (sys_queue s))) as [->|Hne].
      * right. assert (a = FREE) as -> by congruence.
        assert (b = BEING_IMPORTED) as -> by congruence. constructor.
      * left. rewrite Hother in Hb by assumption. congruence.
    + left. eapply Hkeep; [exact Hu|reflexivity..].
    + left. eapply Hkeep; [exact Hu|reflexivity..].
    + left. congruence.
    + eapply Hone; [exact Hu|reflexivity| |constructor].
      eapply Hh; [exact Hp|]. unfold held. rewrite Hpc. reflexivity.
    + left. unfold status_at in *. simpl in Hb. congruence.
  - destruct Hcm as [e Hpc He Hd|e q' Hpc He Hd Hs Hu|e Hpc He|q' t Hpc Hu Ht];
      simpl in Hb.
    + left. congruence.
    + eapply Hone; [exact Hu|reflexivity| |constructor].
      unfold status_at. rewrite He, Hs. reflexivity.
    + left. congruence.
    + eapply Hone; [exact Hu|reflexivity| |constructor].
      apply Hex. unfold exporting. rewrite Hpc. reflexivity.
  - left. unfold status_at in *. simpl in Hb. congruence.
Qed.

Lemma moves_length (DROP : bool) (s s' : System) :
  moves DROP s s' ->
  length (circular_buffer_ (sys_queue s')) =
  length (circular_buffer_ (sys_queue s)).
Proof.
  intros Hm. destruct Hm as [i p q' p' Hp Hpm|q' c' log' Hcm|Hd]; simpl.
  - destruct Hpm as [index q' Hpc Hcalls Hal|x q' Hpc Hu|x c rest m q' Hpc Hcs Hpl Hu
                    |x c rest Hpc Hcs Hpl|x q' Hpc Hu|r Hpc];
      try reflexivity;
      try (apply update_at_frame in Hu; tauto).
    apply PushMessageAllocate_frame in Hal. tauto.
  - destruct Hcm as [e Hpc He Hd|e q' Hpc He Hd Hs Hu|e Hpc He|q' t Hpc Hu Ht];
      try reflexivity; apply update_at_frame in Hu; tauto.
  - reflexivity.
Qed.

(** ** Indices stay inside the buffer *)

Record in_bounds (n : Z) (s : System) : Prop := mkInBounds {
  ib_size : circular_buffer_size_ (sys_queue s) = n;
  ib_length : Z.of_nat (length (circular_buffer_ (sys_queue s))) = n;
  ib_head : 0 <= head_ (sys_queue s) < n;
  ib_tail : 0 <= c_tail (sys_consumer s) < n;
  ib_held : forall i p x,
    sys_producers s !! i = Some p -> held p = Some x -> 0 <= x < n
}.

Lemma Increment_in_range (n i : Z) :
  1 <= n -> exists h, Increment n i = Some h /\ 0 <= h < n.
Proof.
  intros Hn. unfold Increment. destruct (Z.eqb_spec n 0); [lia|].
  eexists. split; [reflexivity|]. apply Z.mod_pos_bound. lia.
Qed.

Lemma boot_in_bounds (n : Z) (calls : list (list Call)) :
  1 <= n -> in_bounds n (boot n calls).
Proof.
  intros Hn. constructor; simpl; try lia.
  - rewrite length_replicate. lia.
  - intros i p x Hp. apply list_lookup_fmap_Some in Hp as (cs & -> & _).
    discriminate.
Qed.

Lemma moves_in_bounds (DROP : bool) (n : Z) (s s' : System) :
  1 <= n -> in_bounds n s -> moves DROP s s' -> in_bounds n s'.
Proof.
  intros Hn [Hsz Hlen Hhd Htl Hheld] Hm.
  assert (forall f x q',
            update_at f x (sys_queue s) = Some q' ->
            circular_buffer_size_ q' = n /\
            Z.of_nat (length (circular_buffer_ q')) = n /\
            0 <= head_ q' < n) as Hupd.
  { intros f x q' Hu. apply update_at_frame in Hu as (-> & -> & _ & _ & ->).
    auto. }
  assert (forall i p p' k pk x,
            sys_producers s !! i = Some p ->
            (forall y, held p' = Some y -> 0 <= y < n) ->
            <[i := p']> (sys_producers s) !! k = Some pk ->
            held pk = Some x -> 0 <= x < n) as Hins.
  { intros i p p' k pk x Hp Hp' Hk Hx.
    apply lookup_insert_producer in Hk as [(-> & ->)|(Hne & Hk)]; eauto. }
  destruct Hm as [i p q' p' Hp Hpm|q' c' log' Hcm|Hd].
  - destruct Hpm as [index q' Hpc Hcalls Hal|x q' Hpc Hu|x c rest m q' Hpc Hcs Hpl Hu
                    |x c rest Hpc Hcs Hpl|x q' Hpc Hu|r Hpc].
    + apply PushMessageAllocate_Returned in Hal
        as [(-> & -> & _)|(Hres & _)].
      * constructor; simpl; auto.
        intros k pk x. apply (Hins i p _ k pk x Hp). discriminate.
      * apply reserve_head_Returned in Hres as (-> & e & h & He & Hinc & ->).
        apply Increment_Some in Hinc as (_ & ->).
        constructor; simpl; auto.
        -- rewrite length_insert. assumption.
        -- rewrite Hsz. apply Z.mod_pos_bound. lia.
        -- intros k pk x. apply (Hins i p _ k pk x Hp).
           intros y. destruct (negb _); rewrite held_at_pc; [|discriminate].
           intros [= <-]. assumption.
    + destruct (Hupd _ _ _ Hu) as (? & ? & ?). constructor; simpl; auto.
      intros k pk y. apply (Hins i p _ k pk y Hp).
      intros z [= <-]. apply (Hheld i p x Hp). unfold held. rewrite Hpc. auto.
    + destruct (Hupd _ _ _ Hu) as (? & ? & ?). constructor; simpl; auto.
      intros k pk y. apply (Hins i p _ k pk y Hp).
      intros z [= <-]. apply (Hheld i p x Hp). unfold held. rewrite Hpc. auto.
    + constructor; simpl; auto.
      intros k pk y. apply (Hins i p _ k pk y Hp). discriminate.
    + destruct (Hupd _ _ _ Hu) as (? & ? & ?). constructor; simpl; auto.
      intros k pk y. apply (Hins i p _ k pk y Hp). discriminate.
    + constructor; simpl; auto.
      intros k pk y. apply (Hins i p _ k pk y Hp). discriminate.
  - destruct Hcm as [e Hpc He Hd|e q' Hpc He Hd Hs Hu|e Hpc He|q' t Hpc Hu Ht].
    + constructor; simpl; auto.
    + destruct (Hupd _ _ _ Hu) as (? & ? & ?). constructor; simpl; auto.
    + constructor; simpl; auto.
    + destruct (Hupd _ _ _ Hu) as (? & ? & ?). constructor; simpl; auto.
      apply Increment_Some in Ht as (_ & ->). rewrite Hsz.
      apply Z.mod_pos_bound. lia.
  - constructor; simpl; auto.
Qed.

Lemma update_at_in_range (f : Entry -> Entry) (x : Z) (q : MMQ) :
  0 <= x < Z.of_nat (length (circular_buffer_ q)) ->
  exists q', update_at f x q = Some q'.
Proof.
  intros Hx. unfold update_at.
  destruct (entry_at_in_range _ _ Hx) as [e ->]. eauto.
Qed.

(** Within bounds no step is undefined behaviour. *)
Lemma in_bounds_no_crash (DROP : bool) (n : Z) (s : System) (t : Thread) :
  1 <= n -> in_bounds n s -> step DROP t s <> Crash.
Proof.
  intros Hn [Hsz Hlen Hhd Htl Hheld].
  assert (forall f x, 0 <= x < n ->
            exists q', update_at f x (sys_queue s) = Some q') as Hupd.
  { intros f x Hx. apply update_at_in_range. lia. }
  unfold step. destruct t as [i| |].
  - destruct (sys_producers s !! i) as [p|] eqn:Hp; [|discriminate].
    assert (producer_step DROP (sys_queue s) p <> Crash) as Hnc.
    { unfold producer_step.
      destruct (p_calls p) as [|c rest]; [discriminate|].
      destruct (p_pc p) as [|x|x|x|r] eqn:Hpc.
      - assert ((exists index q', PushMessageAllocate DROP (sys_queue s) =
                                    Returned index q') \/
                PushMessageAllocate DROP (sys_queue s) = Blocked) as Hal.
        { unfold PushMessageAllocate, reserve_head.
          destruct (entry_at_in_range (circular_buffer_ (sys_queue s))
                      (head_ (sys_queue s))) as [e ->]; [lia|].
          rewrite Hsz.
          destruct (Increment_in_range n (head_ (sys_queue s)) Hn)
            as (h & -> & _).
          destruct (update_at_in_range (with_status BEING_IMPORTED)
                      (head_ (sys_queue s)) (set_head h (sys_queue s)))
            as [q1 ->]; [simpl; lia|].
          destruct DROP, (destructing_ (sys_queue s)),
            (status_eqb (status e) FREE); eauto. }
        destruct Hal as [(index & q' & ->) | ->]; [|discriminate].
        destruct (negb _); discriminate.
      - assert (0 <= x < n) as Hx
          by (apply (Hheld i p x Hp); unfold held; rewrite Hpc; auto).
        unfold store_absolute_index, lift.
        destruct (Hupd (with_absolute_index
                          (total_messages_ (sys_queue s))) x Hx) as [q' ->].
        discriminate.
      - assert (0 <= x < n) as Hx
          by (apply (Hheld i p x Hp); unfold held; rewrite Hpc; auto).
        unfold store_message_body, lift.
        destruct (payload_of c) as [m|]; [|discriminate].
        destruct (Hupd (with_message_body m) x Hx) as [q' ->]. discriminate.
      - assert (0 <= x < n) as Hx
          by (apply (Hheld i p x Hp); unfold held; rewrite Hpc; auto).
        unfold PushMessageCommit, lift.
        destruct (Hupd (with_status READY) x Hx) as [q' ->]. discriminate.
      - discriminate. }
    destruct (producer_step DROP (sys_queue s) p) as [[q' p']| |];
      [discriminate..|contradiction].
  - assert (consumer_step (sys_queue s) (sys_consumer s) (sys_dispatched s)
              <> Crash) as Hnc.
    { unfold consumer_step, ConsumerThread_await, ConsumerThread_dispatch,
        ConsumerThread_recycle.
      destruct (entry_at_in_range (circular_buffer_ (sys_queue s))
                  (c_tail (sys_consumer s))) as [e He]; [lia|].
      destruct (c_pc (sys_consumer s)); rewrite ?He; try discriminate.
      - destruct (Hupd (with_status BEING_EXPORTED)
                    (c_tail (sys_consumer s)) Htl) as [q' ->].
        destruct (negb _), (destructing_ (sys_queue s)); discriminate.
      - destruct (Hupd (with_status FREE)
                    (c_tail (sys_consumer s)) Htl) as [q' Hq']. rewrite Hq'.
        apply update_at_frame in Hq' as (-> & _). rewrite Hsz.
        destruct (Increment_in_range n (c_tail (sys_consumer s)) Hn)
          as (h & -> & _). discriminate. }
    destruct (consumer_step _ _ _) as [[[q' c'] log']| |];
      [discriminate..|contradiction].
  - destruct (destructing_ (sys_queue s)); discriminate.
Qed.

Lemma reachable_in_bounds
  (DROP : bool) (n : Z) (calls : list (list Call)) (s : System) :
  1 <= n -> reachable DROP (boot n calls) s -> in_bounds n s.
Proof.
  intros Hn. apply reachable_invariant.
  - apply boot_in_bounds. assumption.
  - intros s1 s2. apply moves_in_bounds. assumption.
Qed.

(** ** One producer: the numbering of the dispatched messages *)

Definition is_accepted (r : Return) : bool :=
  match r with Ret true => true | _ => false end.

Definition is_dropped (r : Return) : bool :=
  match r with Ret false => true | _ => false end.

Definition is_returned (r : Return) : bool :=
  match r with Ret _ => true | Raised => false end.

Fixpoint count_if (f : Return -> bool) (h : list Return) : nat :=
  match h with
  | [] => 0
  | r :: h' => ((if f r then 1 else 0) + count_if f h')%nat
  end.

(** What the calls of a producer have given so far, oldest first: the
    calls that are over, and the result of the current call once it is
    decided (the call is about to count itself and return). *)
Definition outcomes (p : Producer) : list Return :=
  p_returns p ++ match p_pc p with
                 | P_Count r => [Ret r]
                 | _ => []
                 end.

(** The numbers, before wrap-around, that a sequence of calls of one
    producer gives to its accepted messages: each call that returns counts,
    accepted or not; [c] is the count at the start. *)
Fixpoint accepted_numbers (c : Z) (h : list Return) : list Z :=
  match h with
  | [] => []
  | Ret true :: h' => c :: accepted_numbers (c + 1) h'
  | Ret false :: h' => accepted_numbers (c + 1) h'
  | Raised :: h' => accepted_numbers c h'
  end.

Lemma count_if_app (f : Return -> bool) (h1 h2 : list Return) :
  count_if f (h1 ++ h2) = (count_if f h1 + count_if f h2)%nat.
Proof. induction h1 as [|r h1 IH]; simpl; [reflexivity|]. rewrite IH. lia. Qed.

Lemma count_if_le_length (f : Return -> bool) (h : list Return) :
  (count_if f h <= length h)%nat.
Proof. induction h as [|r h IH]; simpl; [lia|]. destruct (f r); lia. Qed.

Lemma count_returned_split (h : list Return) :
  count_if is_returned h =
  (count_if is_accepted h + count_if is_dropped h)%nat.
Proof.
  induction h as [|[[|]|] h IH]; simpl; lia.
Qed.

Lemma accepted_numbers_app (c : Z) (h : list Return) (r : Return) :
  accepted_numbers c (h ++ [r]) =
  accepted_numbers c h ++
  (if is_accepted r then [c + Z.of_nat (count_if is_returned h)] else []).
Proof.
  revert c. induction h as [|[[|]|] h IH]; intros c; simpl.
  - destruct r as [[|]|]; simpl; f_equal; try reflexivity. f_equal. lia.
  - rewrite IH. destruct (is_accepted r); [|reflexivity].
    replace (c + Z.of_nat (S (count_if is_returned h)))
      with (c + 1 + Z.of_nat (count_if is_returned h)) by lia.
    reflexivity.
  - rewrite IH. destruct (is_accepted r); [|reflexivity].
    replace (c + Z.of_nat (S (count_if is_returned h)))
      with (c + 1 + Z.of_nat (count_if is_returned h)) by lia.
    reflexivity.
  - rewrite IH. reflexivity.
Qed.

Lemma accepted_numbers_length (c : Z) (h : list Return) :
  length (accepted_numbers c h) = count_if is_accepted h.
Proof.
  revert c. induction h as [|[[|]|] h IH]; intros c; simpl; auto.
Qed.

(** The [k]-th number is that of the [k]-th accepted call: the count of the
    calls that returned before it. *)
Lemma accepted_numbers_lookup (c : Z) (h : list Return) (k : nat) (a : Z) :
  accepted_numbers c h !! k = Some a ->
  exists j,
    h !! j = Some (Ret true) /\
    count_if is_accepted (take j h) = k /\
    a = c + Z.of_nat (count_if is_returned (take j h)).
Proof.
  revert c k. induction h as [|r h IH]; intros c k Hk; [discriminate|].
  destruct r as [[|]|]; simpl in Hk.
  - destruct k as [|k]; simpl in Hk.
    + injection Hk as <-. exists 0%nat. simpl. split; [reflexivity|].
      split; [reflexivity|]. lia.
    + destruct (IH _ _ Hk) as (j & Hj & Hc & ->).
      exists (S j). simpl. rewrite Hc. split; [assumption|].
      split; [reflexivity|]. lia.
  - destruct (IH _ _ Hk) as (j & Hj & Hc & ->).
    exists (S j). simpl. split; [assumption|]. split; [assumption|]. lia.
  - destruct (IH _ _ Hk) as (j & Hj & Hc & ->).
    exists (S j). simpl. split; [assumption|]. split; [assumption|]. lia.
Qed.

(** The numbers are increasing and below the count of returned calls. *)
Lemma accepted_numbers_bounds (c : Z) (h : list Return) (k : nat) (a : Z) :
  accepted_numbers c h !! k = Some a ->
  c + Z.of_nat k <= a < c + Z.of_nat (count_if is_returned h).
Proof.
  revert c k. induction h as [|r h IH]; intros c k Hk; [discriminate|].
  destruct r as [[|]|]; simpl in Hk |- *.
  - destruct k as [|k]; simpl in Hk.
    + injection Hk as <-. lia.
    + apply IH in Hk. lia.
  - apply IH in Hk. lia.
  - apply IH in Hk. lia.
Qed.

Lemma accepted_numbers_increasing
  (c : Z) (h : list Return) (k k' : nat) (a a' : Z) :
  (k < k')%nat ->
  accepted_numbers c h !! k = Some a ->
  accepted_numbers c h !! k' = Some a' ->
  a < a'.
Proof.
  revert c k k'. induction h as [|r h IH]; intros c k k' Hlt Hk Hk';
    [discriminate|].
  destruct r as [[|]|]; simpl in Hk, Hk'; try (eapply IH; eassumption).
  destruct k' as [|k']; [lia|]. simpl in Hk'.
  destruct k as [|k]; simpl in Hk.
  - injection Hk as <-. apply accepted_numbers_bounds in Hk'. lia.
  - eapply IH; [|eassumption..]. lia.
Qed.

(** *** The ring

    With one producer the buffer is a ring of reservations.  [R] counts the
    reservations made, [K] the entries recycled, and [F] is the first
    reservation that has not been published: the reservations from [K] up
    to [F] wait for the consumer, READY, with the numbers of the accepted
    calls; the entry of reservation [F], if made, is BEING_IMPORTED (the
    producer holds it, or an exception left it so) and the consumer cannot
    pass it. *)

Definition numbers (p : Producer) : list Z :=
  accepted_numbers 0 (outcomes p).

Definition recycling (c : Consumer) : Z :=
  match c_pc c with C_Recycle => 1 | _ => 0 end.

Definition holding (p : Producer) : Z :=
  match held p with Some _ => 1 | None => 0 end.

Record ring (n : Z) (q : MMQ) (c : Consumer) (log : list Dispatch)
  (p : Producer) (K R F : Z) : Prop := mkRing {
  rg_order : 0 <= K /\ K <= F /\ F <= R - holding p /\ R <= K + n;
  rg_size : circular_buffer_size_ q = n;
  rg_head : head_ q = R mod n;
  rg_tail : c_tail c = K mod n;
  rg_held : forall x, held p = Some x -> x = (R - 1) mod n;
  rg_free : forall k,
    R <= k < K + n -> status_at q (k mod n) = Some FREE;
  rg_ready : forall k,
    K <= k < F ->
    exists e a,
      entry_at (circular_buffer_ q) (k mod n) = Some e /\
      numbers p !! Z.to_nat k = Some a /\
      absolute_index e = wrap a /\
      status e = (if exporting c && (k =? K) then BEING_EXPORTED else READY);
  rg_stuck : F < R -> status_at q (F mod n) = Some BEING_IMPORTED;
  rg_exporting : exporting c = true -> K < F;
  rg_log :
    map d_index log =
    map wrap (take (Z.to_nat (K + recycling c)) (numbers p));
  rg_numbers :
    F <= Z.of_nat (length (numbers p)) /\
    (F = R - holding p -> Z.of_nat (length (numbers p)) = F);
  rg_total :
    total_messages_ q = wrap (Z.of_nat (count_if is_returned (p_returns p)));
  rg_written : forall x,
    p_pc p = P_Body x \/ p_pc p = P_Commit x ->
    exists e, entry_at (circular_buffer_ q) x = Some e /\
              absolute_index e = total_messages_ q
}.

Lemma mod_apart (n a b : Z) :
  0 < n -> a < b -> b < a + n -> a mod n <> b mod n.
Proof.
  intros Hn Hab Hbn Heq.
  assert ((b - a) mod n = 0) as H0.
  { rewrite Zminus_mod, Heq, Z.sub_diag. apply Z.mod_0_l. lia. }
  rewrite Z.mod_small in H0 by lia. lia.
Qed.

Lemma mod_apart' (n a b : Z) :
  0 < n -> a < b -> b < a + n -> b mod n <> a mod n.
Proof.
  intros Hn Hab Hbn Heq. symmetry in Heq. revert Heq.
  apply mod_apart; lia.
Qed.

Lemma Increment_ring (n R : Z) :
  1 <= n <= size_max -> Increment n (R mod n) = Some ((R + 1) mod n).
Proof.
  intros Hn. unfold Increment. destruct (Z.eqb_spec n 0); [lia|].
  f_equal. pose proof (Z.mod_pos_bound R n ltac:(lia)) as Hb.
  unfold wrap. rewrite (Z.mod_small (R mod n + 1)).
  - apply Zplus_mod_idemp_l.
  - unfold size_max in Hn. lia.
Qed.

Lemma entry_at_insert (buf : list Entry) (x j : Z) (e e' : Entry) :
  entry_at buf x = Some e ->
  entry_at (<[Z.to_nat x := e']> buf) j =
  if Z.eq_dec j x then Some e' else entry_at buf j.
Proof.
  intros He. destruct (Z.eq_dec j x) as [->|Hne].
  - eapply entry_at_insert_eq; eauto.
  - apply entry_at_insert_ne; [|congruence].
    apply entry_at_Some in He. lia.
Qed.

Lemma outcomes_at_pc (pc : ProducerPC) (p : Producer) :
  outcomes (at_pc pc p) =
  p_returns p ++ match pc with P_Count r => [Ret r] | _ => [] end.
Proof. reflexivity. Qed.

Lemma outcomes_finish_call (r : Return) (p : Producer) :
  outcomes (finish_call r p) = p_returns p ++ [r].
Proof. unfold outcomes. simpl. apply app_nil_r. Qed.

Lemma outcomes_not_counting (p : Producer) :
  (forall r, p_pc p <> P_Count r) -> outcomes p = p_returns p.
Proof.
  intros Hpc. unfold outcomes. destruct (p_pc p); try apply app_nil_r.
  exfalso. eapply Hpc. reflexivity.
Qed.

Lemma numbers_snoc (h : list Return) (r : Return) :
  accepted_numbers 0 (h ++ [r]) =
  accepted_numbers 0 h ++
  (if is_accepted r then [Z.of_nat (count_if is_returned h)] else []).
Proof. rewrite accepted_numbers_app. reflexivity. Qed.

(** *** The moves of the producer keep the ring *)

Ltac producer_facts Hpc :=
  unfold holding, held in *;
  cbn [at_pc finish_call p_pc p_returns] in *;
  rewrite ?Hpc in *.

Ltac ring_trivia :=
  try assumption;
  try discriminate;
  try (intros ? [?|?]; discriminate);
  try lia.

Lemma ring_reject
  (n : Z) (q : MMQ) (c : Consumer) (log : list Dispatch) (p : Producer)
  (K R F : Z) :
  p_pc p = P_Allocate ->
  ring n q c log p K R F ->
  ring n q c log (at_pc (P_Count false) p) K R F.
Proof.
  intros Hpc [Ho Hsz Hhd Htl Hheld Hfree Hready Hstuck Hexp Hlog Hnum Htot Hwr].
  assert (numbers (at_pc (P_Count false) p) = numbers p) as Hn.
  { unfold numbers. rewrite outcomes_at_pc, numbers_snoc. simpl.
    rewrite app_nil_r, outcomes_not_counting; [reflexivity|].
    intros r. rewrite Hpc. discriminate. }
  constructor; rewrite ?Hn; try assumption; producer_facts Hpc; ring_trivia.
Qed.

Lemma ring_raise
  (n : Z) (q : MMQ) (c : Consumer) (log : list Dispatch) (p : Producer)
  (K R F x : Z) :
  p_pc p = P_Body x ->
  ring n q c log p K R F ->
  ring n q c log (finish_call Raised p) K R F.
Proof.
  intros Hpc [Ho Hsz Hhd Htl Hheld Hfree Hready Hstuck Hexp Hlog Hnum Htot Hwr].
  assert (numbers (finish_call Raised p) = numbers p) as Hn.
  { unfold numbers. rewrite outcomes_finish_call, numbers_snoc. simpl.
    rewrite app_nil_r, outcomes_not_counting; [reflexivity|].
    intros r. rewrite Hpc. discriminate. }
  constructor; rewrite ?Hn; try assumption; producer_facts Hpc; ring_trivia.
  rewrite count_if_app. simpl. rewrite Nat.add_0_r. assumption.
Qed.

Lemma ring_count
  (n : Z) (q : MMQ) (c : Consumer) (log : list Dispatch) (p : Producer)
  (K R F : Z) (r : bool) :
  p_pc p = P_Count r ->
  ring n q c log p K R F ->
  ring n (set_total (wrap (total_messages_ q + 1)) q) c log
    (finish_call (Ret r) p) K R F.
Proof.
  intros Hpc [Ho Hsz Hhd Htl Hheld Hfree Hready Hstuck Hexp Hlog Hnum Htot Hwr].
  assert (numbers (finish_call (Ret r) p) = numbers p) as Hn.
  { unfold numbers. rewrite outcomes_finish_call. unfold outcomes.
    rewrite Hpc. reflexivity. }
  constructor; rewrite ?Hn; try assumption; producer_facts Hpc; ring_trivia.
  simpl. rewrite count_if_app. simpl. rewrite Htot. unfold wrap.
  rewrite Zplus_mod_idemp_l. f_equal. lia.
Qed.

(** Writing the index or the body of the held entry. *)
Lemma ring_store
  (n : Z) (q q' : MMQ) (c : Consumer) (log : list Dispatch) (p : Producer)
  (K R F x : Z) (f : Entry -> Entry) (pc' : ProducerPC) :
  0 < n ->
  held p = Some x ->
  pc' = P_Body x \/ pc' = P_Commit x ->
  (forall e, status (f e) = status e) ->
  (forall e, entry_at (circular_buffer_ q) x = Some e ->
             absolute_index (f e) = total_messages_ q) ->
  update_at f x q = Some q' ->
  ring n q c log p K R F ->
  ring n q' c log (at_pc pc' p) K R F.
Proof.
  intros Hn Hx Hpc' Hst Hidx Hu
    [Ho Hsz Hhd Htl Hheld Hfree Hready Hstuck Hexp Hlog Hnum Htot Hwr].
  pose proof (status_at_update_keep _ _ _ _ Hst Hu) as Hsame.
  pose proof (update_at_frame _ _ _ _ Hu) as (Hsz' & Hhd' & Htot' & _).
  pose proof (update_at_Some _ _ _ _ Hu) as (e0 & He0 & _).
  pose proof (Hheld _ Hx) as ->.
  assert (holding p = 1) as Hh1 by (unfold holding; rewrite Hx; reflexivity).
  assert (holding (at_pc pc' p) = 1) as Hh1'.
  { unfold holding. rewrite held_at_pc.
    destruct Hpc' as [-> | ->]; reflexivity. }
  assert (numbers (at_pc pc' p) = numbers p) as Hnum'.
  { unfold numbers. rewrite outcomes_at_pc.
    rewrite outcomes_not_counting.
    - destruct Hpc' as [-> | ->]; rewrite app_nil_r; reflexivity.
    - intros r Hr. unfold held in Hx. rewrite Hr in Hx. discriminate. }
  constructor; rewrite ?Hnum', ?Hh1', ?Hsz', ?Hhd', ?Htot', ?Hsame;
    rewrite ?Hh1 in *; try assumption.
  - intros y. rewrite held_at_pc.
    destruct Hpc' as [-> | ->]; intros [= <-]; reflexivity.
  - intros k Hk. rewrite Hsame. auto.
  - intros k Hk. destruct (Hready k Hk) as (e & a & He & Ha & Hi & Hs).
    exists e, a. rewrite (update_at_other _ _ (k mod n) _ _ Hu); [auto|].
    apply mod_apart'; lia.
  - intros y Hy.
    assert (y = (R - 1) mod n) as ->.
    { simpl in Hy. destruct Hpc' as [-> | ->], Hy as [Hy|Hy]; congruence. }
    exists (f e0). split; [|auto].
    eapply update_at_entry; eassumption.
Qed.

(** A reservation: the head entry was FREE, so the ring was not full. *)
Lemma ring_reserve
  (DROP : bool) (n : Z) (q q' : MMQ) (c : Consumer) (log : list Dispatch)
  (p : Producer) (K R F index : Z) :
  1 <= n <= size_max ->
  p_pc p = P_Allocate ->
  PushMessageAllocate DROP q = Returned index q' ->
  index <> size_max ->
  ring n q c log p K R F ->
  ring n q' c log (at_pc (P_Index index) p) K (R + 1) F.
Proof.
  intros Hn Hpc Ha Hne
    [Ho Hsz Hhd Htl Hheld Hfree Hready Hstuck Hexp Hlog Hnum Htot Hwr].
  apply PushMessageAllocate_Returned in Ha
    as [(-> & _)|(Hres & _ & e & He & Hs)]; [contradiction|].
  apply reserve_head_Returned in Hres as (-> & e' & h & He' & Hinc & ->).
  rewrite He in He'. injection He' as <-.
  rewrite Hsz, Hhd, Increment_ring in Hinc by assumption.
  injection Hinc as <-.
  assert (numbers (at_pc (P_Index (head_ q)) p) = numbers p) as Hnum'.
  { unfold numbers. rewrite outcomes_at_pc, app_nil_r.
    rewrite outcomes_not_counting; [reflexivity|].
    intros r. rewrite Hpc. discriminate. }
  assert (holding p = 0) as Hh0
    by (unfold holding, held; rewrite Hpc; reflexivity).
  assert (holding (at_pc (P_Index (head_ q)) p) = 1) as Hh1 by reflexivity.
  rewrite Hh0 in *.
  assert (R < K + n) as Hroom.
  { destruct (Z.eq_dec R (K + n)) as [->|]; [exfalso|lia].
    rewrite Hhd in He.
    replace (K + n) with (K + 1 * n) in He by lia.
    rewrite Z_mod_plus_full in He.
    destruct (Z.eq_dec K F) as [<-|].
    - assert (K < K + n) as Hlt by lia. apply Hstuck in Hlt.
      unfold status_at in Hlt. rewrite He, Hs in Hlt. discriminate.
    - destruct (Hready K ltac:(lia)) as (e1 & a & He1 & _ & _ & Hs1).
      rewrite He in He1. injection He1 as <-. rewrite Hs in Hs1.
      destruct (exporting c && (K =? K)); discriminate. }
  assert (forall k, K <= k < R \/ R < k < K + n ->
            entry_at (<[Z.to_nat (head_ q) := with_status BEING_IMPORTED e]>
                        (circular_buffer_ q)) (k mod n) =
            entry_at (circular_buffer_ q) (k mod n)) as Hother.
  { intros k Hk. rewrite (entry_at_insert _ _ _ _ _ He).
    destruct (Z.eq_dec (k mod n) (head_ q)) as [Heq|]; [|reflexivity].
    exfalso. rewrite Hhd in Heq. revert Heq.
    destruct Hk; [apply mod_apart|apply mod_apart']; lia. }
  constructor; rewrite ?Hnum', ?Hh1; simpl; try assumption;
    try reflexivity.
  - lia.
  - intros x [= <-]. rewrite Hhd. f_equal. lia.
  - intros k Hk. unfold status_at. simpl. rewrite Hother by lia.
    apply Hfree. lia.
  - intros k Hk. rewrite Hother by lia. auto.
  - intros _. unfold status_at. simpl.
    destruct (Z.eq_dec F R) as [->|].
    + rewrite <- Hhd, (entry_at_insert_eq _ _ _ _ He). reflexivity.
    + rewrite Hother by lia. apply Hstuck. lia.
  - split; [tauto|]. intros HF. apply Hnum. lia.
  - intros x [|]; discriminate.
Qed.

(** A publication: the first unpublished reservation moves on when it is
    the one published. *)
Lemma ring_commit
  (n : Z) (q q' : MMQ) (c : Consumer) (log : list Dispatch) (p : Producer)
  (K R F x : Z) :
  0 < n ->
  p_pc p = P_Commit x ->
  update_at (with_status READY) x q = Some q' ->
  ring n q c log p K R F ->
  exists F', ring n q' c log (at_pc (P_Count true) p) K R F'.
Proof.
  intros Hn Hpc Hu
    [Ho Hsz Hhd Htl Hheld Hfree Hready Hstuck Hexp Hlog Hnum Htot Hwr].
  assert (held p = Some x) as Hx by (unfold held; rewrite Hpc; reflexivity).
  assert (holding p = 1) as Hh1 by (unfold holding; rewrite Hx; reflexivity).
  rewrite Hh1 in *.
  pose proof (Hheld _ Hx) as ->.
  destruct (Hwr ((R - 1) mod n) (or_intror Hpc)) as (e0 & He0 & Hi0).
  pose proof (update_at_frame _ _ _ _ Hu) as (Hsz' & Hhd' & Htot' & _).
  pose proof (update_at_entry _ _ _ _ _ Hu He0) as Hnew.
  assert (forall k, K <= k < R - 1 \/ R <= k < K + n ->
            entry_at (circular_buffer_ q') (k mod n) =
            entry_at (circular_buffer_ q) (k mod n)) as Hother.
  { intros k Hk. apply (update_at_other _ _ _ _ _ Hu).
    destruct Hk; [apply mod_apart'|apply mod_apart]; lia. }
  assert (numbers (at_pc (P_Count true) p) =
          numbers p ++ [Z.of_nat (count_if is_returned (p_returns p))])
    as Hnum'.
  { unfold numbers. rewrite outcomes_at_pc, numbers_snoc. simpl.
    rewrite outcomes_not_counting; [reflexivity|].
    intros r. rewrite Hpc. discriminate. }
  assert (Z.to_nat (K + recycling c) <= length (numbers p))%nat as Htake.
  { assert (recycling c = 1 -> K < F) as Hrec.
    { intros Hr. apply Hexp. unfold recycling in Hr. unfold exporting.
      destruct (c_pc c); try discriminate. reflexivity. }
    assert (recycling c = 0 \/ recycling c = 1) as [Hr|Hr]
      by (unfold recycling; destruct (c_pc c); auto).
    - rewrite Hr. lia.
    - specialize (Hrec Hr). rewrite Hr. lia. }
  assert (holding (at_pc (P_Count true) p) = 0) as Hh0 by reflexivity.
  destruct (Z.eq_dec F (R - 1)) as [HF|HF].
  - (* the published entry is the next one the consumer waits for *)
    exists R.
    assert (Z.of_nat (length (numbers p)) = R - 1) as Hlen
      by (destruct Hnum as [_ Hnum]; rewrite Hnum; lia).
    constructor;
      rewrite ?Hnum', ?Hh0, ?Hsz', ?Hhd', ?Htot'; try assumption.
    + lia.
    + discriminate.
    + intros k Hk. unfold status_at. rewrite Hother by lia. apply Hfree. lia.
    + intros k Hk. destruct (Z.eq_dec k (R - 1)) as [->|Hne].
      * exists (with_status READY e0),
          (Z.of_nat (count_if is_returned (p_returns p))).
        split; [assumption|]. split.
        { replace (Z.to_nat (R - 1)) with (length (numbers p) + 0)%nat by lia.
          rewrite lookup_app_r by lia.
          replace (length (numbers p) + 0 - length (numbers p))%nat
            with 0%nat by lia.
          reflexivity. }
        split; [simpl; congruence|]. simpl.
        destruct (exporting c) eqn:Hex; [|reflexivity].
        specialize (Hexp eq_refl).
        destruct (Z.eqb_spec (R - 1) K); [lia|reflexivity].
      * destruct (Hready k ltac:(lia)) as (e & a & He & Ha & Hi & Hs).
        exists e, a. rewrite Hother by lia.
        split; [assumption|]. split; [|auto].
        apply lookup_app_l_Some. assumption.
    + lia.
    + intros Hex. specialize (Hexp Hex). lia.
    + rewrite take_app_le by assumption. assumption.
    + rewrite length_app. simpl. lia.
    + intros y [|]; discriminate.
  - (* an earlier entry is stuck *)
    exists F.
    constructor;
      rewrite ?Hnum', ?Hh0, ?Hsz', ?Hhd', ?Htot'; try assumption.
    + lia.
    + discriminate.
    + intros k Hk. unfold status_at. rewrite Hother by lia. apply Hfree. lia.
    + intros k Hk. destruct (Hready k Hk) as (e & a & He & Ha & Hi & Hs).
      exists e, a. rewrite Hother by lia.
      split; [assumption|]. split; [|auto].
      apply lookup_app_l_Some. assumption.
    + intros _. unfold status_at. rewrite Hother by lia. apply Hstuck. lia.
    + rewrite take_app_le by assumption. assumption.
    + rewrite length_app. simpl. lia.
    + intros y [|]; discriminate.
Qed.

(** *** The moves of the consumer keep the ring *)

Lemma ring_exit
  (n : Z) (q : MMQ) (c : Consumer) (log : list Dispatch) (p : Producer)
  (K R F : Z) :
  c_pc c = C_Await ->
  ring n q c log p K R F ->
  ring n q {| c_pc := C_Exited; c_tail := c_tail c |} log p K R F.
Proof.
  intros Hpc [Ho Hsz Hhd Htl Hheld Hfree Hready Hstuck Hexp Hlog Hnum Htot Hwr].
  unfold exporting, recycling in *. rewrite Hpc in *.
  constructor; try assumption.
Qed.

(** The consumer found a READY entry at [tail]: it is a published one. *)
Lemma ring_export
  (n : Z) (q q' : MMQ) (c : Consumer) (log : list Dispatch) (p : Producer)
  (K R F : Z) (e : Entry) :
  0 < n ->
  c_pc c = C_Await ->
  entry_at (circular_buffer_ q) (c_tail c) = Some e ->
  status e = READY ->
  update_at (with_status BEING_EXPORTED) (c_tail c) q = Some q' ->
  ring n q c log p K R F ->
  ring n q' {| c_pc := C_Dispatch; c_tail := c_tail c |} log p K R F.
Proof.
  intros Hn Hpc He Hs Hu
    [Ho Hsz Hhd Htl Hheld Hfree Hready Hstuck Hexp Hlog Hnum Htot Hwr].
  unfold exporting, recycling in *. rewrite Hpc in *. simpl in *.
  rewrite Htl in *.
  assert (holding p = 0 \/ holding p = 1) as Hhold
    by (unfold holding; destruct (held p); auto).
  pose proof (update_at_frame _ _ _ _ Hu) as (Hsz' & Hhd' & Htot' & _).
  pose proof (update_at_entry _ _ _ _ _ Hu He) as Hnew.
  assert (K < F) as HKF.
  { destruct (Z.eq_dec K F) as [<-|]; [exfalso|lia].
    destruct (Z.eq_dec K R) as [<-|].
    - assert (status_at q (K mod n) = Some FREE) as Hf
        by (apply Hfree; lia).
      unfold status_at in Hf. rewrite He, Hs in Hf. discriminate.
    - assert (status_at q (K mod n) = Some BEING_IMPORTED) as Hb
        by (apply Hstuck; lia).
      unfold status_at in Hb. rewrite He, Hs in Hb. discriminate. }
  assert (forall k, K < k < K + n ->
            entry_at (circular_buffer_ q') (k mod n) =
            entry_at (circular_buffer_ q) (k mod n)) as Hother.
  { intros k Hk. apply (update_at_other _ _ _ _ _ Hu).
    apply mod_apart; lia. }
  constructor; simpl; rewrite ?Hsz', ?Hhd', ?Htot'; try assumption;
    try reflexivity.
  - intros k Hk. unfold status_at. rewrite Hother by lia. apply Hfree. lia.
  - intros k Hk. destruct (Z.eqb_spec k K) as [->|Hne].
    + destruct (Hready K ltac:(lia)) as (e1 & a & He1 & Ha & Hi & _).
      rewrite He in He1. injection He1 as <-.
      exists (with_status BEING_EXPORTED e), a. auto.
    + destruct (Hready k Hk) as (e1 & a & He1 & Ha & Hi & Hs1).
      exists e1, a. rewrite Hother by lia. auto.
  - intros HFR. destruct (Z.eq_dec F (K + n)); [lia|].
    unfold status_at. rewrite Hother by lia. apply Hstuck. assumption.
  - intros _. assumption.
  - intros x Hx. destruct (Hwr x Hx) as (e1 & He1 & Hi1).
    assert (held p = Some x) as Hheldx
      by (unfold held; destruct Hx as [-> | ->]; reflexivity).
    assert (holding p = 1) as Hh1
      by (unfold holding; rewrite Hheldx; reflexivity).
    rewrite (Hheld _ Hheldx) in *.
    exists e1. rewrite Hother by lia. auto.
Qed.

Lemma ring_dispatch
  (n : Z) (q : MMQ) (c : Consumer) (log : list Dispatch) (p : Producer)
  (K R F : Z) (e : Entry) :
  c_pc c = C_Dispatch ->
  entry_at (circular_buffer_ q) (c_tail c) = Some e ->
  ring n q c log p K R F ->
  ring n q {| c_pc := C_Recycle; c_tail := c_tail c |}
    (log ++ [{| d_message := message_body e;
                d_index := absolute_index e;
                d_total := total_messages_ q |}]) p K R F.
Proof.
  intros Hpc He
    [Ho Hsz Hhd Htl Hheld Hfree Hready Hstuck Hexp Hlog Hnum Htot Hwr].
  unfold exporting, recycling in *. rewrite Hpc in *. simpl in *.
  specialize (Hexp eq_refl).
  constructor; simpl; try assumption; [auto|].
  destruct (Hready K ltac:(lia)) as (e1 & a & He1 & Ha & Hi & _).
  rewrite <- Htl, He in He1. injection He1 as <-.
  rewrite map_app, Hlog. unfold recycling. simpl.
  replace (Z.to_nat (K + 1)) with (S (Z.to_nat K)) by lia.
  rewrite (take_S_r _ _ _ Ha), map_app, Z.add_0_r. simpl. congruence.
Qed.

Lemma ring_recycle
  (n : Z) (q q' : MMQ) (c : Consumer) (log : list Dispatch) (p : Producer)
  (K R F t : Z) :
  1 <= n <= size_max ->
  c_pc c = C_Recycle ->
  update_at (with_status FREE) (c_tail c) q = Some q' ->
  Increment (circular_buffer_size_ q) (c_tail c) = Some t ->
  ring n q c log p K R F ->
  ring n q' {| c_pc := C_Await; c_tail := t |} log p (K + 1) R F.
Proof.
  intros Hn Hpc Hu Hinc
    [Ho Hsz Hhd Htl Hheld Hfree Hready Hstuck Hexp Hlog Hnum Htot Hwr].
  unfold exporting, recycling in *. rewrite Hpc in *. simpl in *.
  specialize (Hexp eq_refl).
  rewrite Hsz, Htl, Increment_ring in Hinc by assumption.
  injection Hinc as <-. rewrite Htl in *.
  assert (holding p = 0 \/ holding p = 1) as Hhold
    by (unfold holding; destruct (held p); auto).
  pose proof (update_at_frame _ _ _ _ Hu) as (Hsz' & Hhd' & Htot' & _).
  destruct (status_at_update _ _ _ _ Hu) as (e0 & He0 & Hnew & _).
  assert (forall k, K < k < K + n ->
            entry_at (circular_buffer_ q') (k mod n) =
            entry_at (circular_buffer_ q) (k mod n)) as Hother.
  { intros k Hk. apply (update_at_other _ _ _ _ _ Hu).
    apply mod_apart; lia. }
  constructor; simpl; rewrite ?Hsz', ?Hhd', ?Htot'; try assumption;
    try reflexivity.
  - lia.
  - intros k Hk. destruct (Z.eq_dec k (K + n)) as [->|].
    + replace (K + n) with (K + 1 * n) by lia. rewrite Z_mod_plus_full.
      assumption.
    + unfold status_at. rewrite Hother by lia. apply Hfree. lia.
  - intros k Hk. destruct (Hready k ltac:(lia)) as (e1 & a & He1 & Ha & Hi & Hs1).
    exists e1, a. rewrite Hother by lia.
    destruct (Z.eqb_spec k K); [lia|]. auto.
  - intros HFR. destruct (Z.eq_dec F (K + n)); [lia|].
    unfold status_at. rewrite Hother by lia. apply Hstuck. assumption.
  - discriminate.
  - rewrite Z.add_0_r. assumption.
  - intros x Hx. destruct (Hwr x Hx) as (e1 & He1 & Hi1).
    assert (held p = Some x) as Hheldx
      by (unfold held; destruct Hx as [-> | ->]; reflexivity).
    assert (holding p = 1) as Hh1
      by (unfold holding; rewrite Hheldx; reflexivity).
    rewrite (Hheld _ Hheldx) in *.
    exists e1. rewrite Hother by lia. auto.
Qed.

Lemma ring_destroy
  (n : Z) (q : MMQ) (c : Consumer) (log : list Dispatch) (p : Producer)
  (K R F : Z) :
  ring n q c log p K R F -> ring n (MMQ_destruct q) c log p K R F.
Proof.
  intros [Ho Hsz Hhd Htl Hheld Hfree Hready Hstuck Hexp Hlog Hnum Htot Hwr].
  constructor; try assumption.
Qed.

(** *** One producer: the invariant of the system *)

Definition one_producer (n : Z) (s : System) : Prop :=
  exists p K R F,
    sys_producers s = [p] /\
    ring n (sys_queue s) (sys_consumer s) (sys_dispatched s) p K R F.

Lemma boot_one_producer (n : Z) (cs : list Call) :
  1 <= n -> one_producer n (boot n [cs]).
Proof.
  intros Hn. eexists _, 0, 0, 0. split; [reflexivity|].
  constructor; simpl; try reflexivity; try lia; try discriminate.
  - unfold holding. simpl. lia.
  - intros k Hk. unfold status_at, entry_at. simpl.
    pose proof (Z.mod_pos_bound k n ltac:(lia)) as Hb.
    destruct (Z.ltb_spec (k mod n) 0); [lia|].
    rewrite lookup_replicate_2 by lia. reflexivity.
  - intros x [|]; discriminate.
Qed.

Lemma moves_one_producer (DROP : bool) (n : Z) (s s' : System) :
  1 <= n <= size_max ->
  one_producer n s -> moves DROP s s' -> one_producer n s'.
Proof.
  intros Hn (p & K & R & F & Hps & Hr) Hm.
  destruct Hm as [i p0 q' p' Hp Hpm|q' c' log' Hcm|Hd]; unfold one_producer;
    simpl.
  - rewrite Hps in Hp |- *.
    destruct i as [|i]; [|destruct i; discriminate].
    injection Hp as <-. simpl.
    destruct Hpm as [index q' Hpc Hcalls Hal|x q' Hpc Hu|x c rest m q' Hpc Hcs Hpl Hu
                    |x c rest Hpc Hcs Hpl|x q' Hpc Hu|r Hpc].
    + pose proof (PushMessageAllocate_Returned _ _ _ _ Hal)
        as [(-> & -> & _)|(Hres & _)].
      * exists (at_pc (P_Count false) p), K, R, F.
        split; [reflexivity|]. apply ring_reject; assumption.
      * apply reserve_head_Returned in Hres as (Hidx & _).
        assert (index <> size_max) as Hne.
        { rewrite Hidx, (rg_head _ _ _ _ _ _ _ _ Hr).
          pose proof (Z.mod_pos_bound R n ltac:(lia)). lia. }
        destruct (Z.eqb_spec index size_max); [contradiction|]. simpl.
        exists (at_pc (P_Index index) p), K, (R + 1), F.
        split; [reflexivity|]. eapply ring_reserve; eassumption.
    + exists (at_pc (P_Body x) p), K, R, F. split; [reflexivity|].
      eapply ring_store; try eassumption; auto; try lia.
      unfold held. rewrite Hpc. reflexivity.
    + exists (at_pc (P_Commit x) p), K, R, F. split; [reflexivity|].
      eapply ring_store; try eassumption; auto; try lia.
      * unfold held. rewrite Hpc. reflexivity.
      * intros e He. simpl.
        destruct (rg_written _ _ _ _ _ _ _ _ Hr x (or_introl Hpc))
          as (e' & He' & Hi). congruence.
    + exists (finish_call Raised p), K, R, F. split; [reflexivity|].
      eapply ring_raise; eassumption.
    + destruct (ring_commit n _ _ _ _ _ K R F x ltac:(lia) Hpc Hu Hr)
        as [F' Hr'].
      exists (at_pc (P_Count true) p), K, R, F'. split; [reflexivity|].
      assumption.
    + exists (finish_call (Ret r) p), K, R, F. split; [reflexivity|].
      apply ring_count; assumption.
  - destruct Hcm as [e Hpc He Hd|e q' Hpc He Hd Hs Hu|e Hpc He|q' t Hpc Hu Ht].
    + exists p, K, R, F. split; [assumption|]. apply ring_exit; assumption.
    + exists p, K, R, F. split; [assumption|].
      eapply ring_export; try eassumption. lia.
    + exists p, K, R, F. split; [assumption|].
      apply ring_dispatch; assumption.
    + exists p, (K + 1), R, F. split; [assumption|].
      eapply ring_recycle; eassumption.
  - exists p, K, R, F. split; [assumption|]. apply ring_destroy; assumption.
Qed.

Lemma reachable_one_producer
  (DROP : bool) (n : Z) (cs : list Call) (s : System) :
  1 <= n <= size_max ->
  reachable DROP (boot n [cs]) s -> one_producer n s.
Proof.
  intros Hn. apply reachable_invariant.
  - apply boot_one_producer. lia.
  - intros s1 s2. apply moves_one_producer. assumption.
Qed.

(** *** The block policy: no rejection before an acceptance

    Under the block policy a call is rejected only when [destructing_] is
    set, and from then on no entry is reserved. *)

Record calm (d : bool) (p : Producer) : Prop := mkCalm {
  calm_now :
    d = false \/ held p <> None ->
    count_if is_dropped (outcomes p) = 0%nat;
  calm_before : forall j,
    outcomes p !! j = Some (Ret true) ->
    count_if is_dropped (take j (outcomes p)) = 0%nat
}.

Definition one_calm_producer (s : System) : Prop :=
  exists p, sys_producers s = [p] /\ calm (destructing_ (sys_queue s)) p.

Lemma calm_before_snoc (h : list Return) (r : Return) :
  (forall j, h !! j = Some (Ret true) ->
             count_if is_dropped (take j h) = 0%nat) ->
  (r = Ret true -> count_if is_dropped h = 0%nat) ->
  forall j, (h ++ [r]) !! j = Some (Ret true) ->
            count_if is_dropped (take j (h ++ [r])) = 0%nat.
Proof.
  intros Hh Hr j Hj.
  destruct (Nat.lt_ge_cases j (length h)) as [Hlt|Hge].
  - rewrite lookup_app_l in Hj by assumption.
    rewrite take_app_le by lia. auto.
  - rewrite lookup_app_r in Hj by assumption.
    destruct (j - length h)%nat eqn:Hd; [|discriminate].
    injection Hj as ->. assert (j = length h) as -> by lia.
    rewrite take_app_le by lia. rewrite firstn_all. auto.
Qed.

Lemma calm_same (d d' : bool) (p p' : Producer) :
  outcomes p' = outcomes p ->
  (d' = false \/ held p' <> None -> d = false \/ held p <> None) ->
  calm d p -> calm d' p'.
Proof.
  intros Ho Hd [Hnow Hbefore]. constructor; rewrite Ho; auto.
Qed.

Lemma calm_snoc (d d' : bool) (p p' : Producer) (r : Return) :
  outcomes p' = outcomes p ++ [r] ->
  (d' = false \/ held p' <> None ->
   is_dropped r = false /\ (d = false \/ held p <> None)) ->
  (r = Ret true -> d = false \/ held p <> None) ->
  calm d p -> calm d' p'.
Proof.
  intros Ho Hd Hr [Hnow Hbefore]. constructor; rewrite Ho.
  - intros H. destruct (Hd H) as [Hdr H']. rewrite count_if_app. simpl.
    rewrite Hdr, (Hnow H'). reflexivity.
  - apply calm_before_snoc; auto.
Qed.

Lemma moves_one_calm_producer (s s' : System) :
  head_ (sys_queue s) <> size_max ->
  one_calm_producer s -> moves false s s' -> one_calm_producer s'.
Proof.
  intros Hhead (p & Hps & Hcalm) Hm.
  destruct Hm as [i p0 q' p' Hp Hpm|q' c' log' Hcm|Hd]; unfold one_calm_producer;
    simpl.
  - rewrite Hps in Hp |- *.
    destruct i as [|i]; [|destruct i; discriminate].
    injection Hp as <-. simpl. eexists. split; [reflexivity|].
    destruct Hpm as [index q' Hpc Hcalls Hal|x q' Hpc Hu|x c rest m q' Hpc Hcs Hpl Hu
                    |x c rest Hpc Hcs Hpl|x q' Hpc Hu|r Hpc].
    + pose proof (PushMessageAllocate_Returned _ _ _ _ Hal)
        as [(-> & -> & Hd)|(Hres & Hd & _)].
      * simpl. eapply (calm_snoc _ _ p _ (Ret false)); [| | |exact Hcalm].
        -- rewrite outcomes_at_pc, <- (outcomes_not_counting p)
          by (intros r'; rewrite Hpc; discriminate).
           reflexivity.
        -- rewrite Hd. intros [|Hh]; [discriminate|]. exfalso. apply Hh.
           reflexivity.
        -- discriminate.
      * specialize (Hd eq_refl).
        apply reserve_head_Returned in Hres as (-> & e & h & _ & _ & ->).
        destruct (Z.eqb_spec (head_ (sys_queue s)) size_max);
          [contradiction|].
        simpl. eapply calm_same; [| |exact Hcalm]; [|auto].
        rewrite outcomes_at_pc, <- (outcomes_not_counting p)
          by (intros r'; rewrite Hpc; discriminate).
        apply app_nil_r.
    + eapply calm_same; [| |exact Hcalm].
      * unfold outcomes. simpl. rewrite Hpc. reflexivity.
      * intros _. right. unfold held. rewrite Hpc. discriminate.
    + eapply calm_same; [| |exact Hcalm].
      * unfold outcomes. simpl. rewrite Hpc. reflexivity.
      * intros _. right. unfold held. rewrite Hpc. discriminate.
    + eapply (calm_snoc _ _ p _ Raised); [| | |exact Hcalm].
      * rewrite outcomes_finish_call, <- (outcomes_not_counting p)
          by (intros r'; rewrite Hpc; discriminate).
        reflexivity.
      * intros _. split; [reflexivity|]. right. unfold held. rewrite Hpc.
        discriminate.
      * discriminate.
    + eapply (calm_snoc _ _ p _ (Ret true)); [| | |exact Hcalm].
      * rewrite outcomes_at_pc, <- (outcomes_not_counting p)
          by (intros r'; rewrite Hpc; discriminate).
        reflexivity.
      * intros _. split; [reflexivity|]. right. unfold held. rewrite Hpc.
        discriminate.
      * intros _. right. unfold held. rewrite Hpc. discriminate.
    + eapply calm_same; [| |exact Hcalm].
      * rewrite outcomes_finish_call. unfold outcomes. rewrite Hpc.
        reflexivity.
      * simpl. intros [Hd|Hh]; [auto|]. exfalso. apply Hh. reflexivity.
  - exists p. split; [assumption|].
    assert (destructing_ q' = destructing_ (sys_queue s)) as ->;
      [|assumption].
    destruct Hcm as [e Hpc He Hd|e q' Hpc He Hd Hs Hu|e Hpc He|q' t Hpc Hu Ht];
      try reflexivity; apply update_at_frame in Hu; tauto.
  - exists p. split; [assumption|]. simpl.
    eapply calm_same; [reflexivity| |exact Hcalm].
    intros [|Hh]; [discriminate|]. auto.
Qed.

Lemma boot_one_calm_producer (n : Z) (cs : list Call) :
  one_calm_producer (boot n [cs]).
Proof.
  eexists. split; [reflexivity|]. constructor; simpl.
  - reflexivity.
  - intros j Hj. destruct j; discriminate.
Qed.

Lemma reachable_one_calm_producer (n : Z) (cs : list Call) (s : System) :
  1 <= n <= size_max ->
  reachable false (boot n [cs]) s -> one_calm_producer s.
Proof.
  intros Hn Hr.
  cut (in_bounds n s /\ one_calm_producer s); [tauto|].
  apply (reachable_invariant false
           (fun s => in_bounds n s /\ one_calm_producer s)
           (boot n [cs]) s); [| |exact Hr].
  - split; [apply boot_in_bounds; lia|apply boot_one_calm_producer].
  - intros s1 s2 [Hb Hc] Hm. split.
    + eapply moves_in_bounds; [|eassumption..]. lia.
    + eapply moves_one_calm_producer; [|eassumption..].
      pose proof (ib_head _ _ Hb). lia.
Qed.

(** ** Schedules that run *)

Lemma run_reachable (DROP : bool) (schedule : list Thread) (s0 s1 s : System) :
  reachable DROP s0 s1 -> run DROP schedule s1 = Some s -> reachable DROP s0 s.
Proof.
  revert s1. induction schedule as [|t rest IH]; intros s1 Hr; simpl.
  - intros [= <-]. assumption.
  - destruct (step DROP t s1) as [s2| |] eqn:Hs; [| |discriminate].
    + apply IH. eapply reachable_step; eassumption.
    + apply IH. assumption.
Qed.

(** The state a schedule leads to (the state it started from if it ran into
    undefined behaviour). *)
Definition after (DROP : bool) (schedule : list Thread) (s : System) : System :=
  match run DROP schedule s with
  | Some s' => s'
  | None => s
  end.

Lemma after_reachable (DROP : bool) (schedule : list Thread) (s : System) :
  reachable DROP s (after DROP schedule s).
Proof.
  unfold after. destruct (run DROP schedule s) as [s'|] eqn:Hr.
  - eapply run_reachable; [apply reachable_start|exact Hr].
  - apply reachable_start.
Qed.

(** ** A call is its steps

    A producer that runs a call without another thread moving in between
    does what the submission operation does as a whole. *)

Fixpoint alone (fuel : nat) (DROP : bool) (q : MMQ) (p : Producer)
  : Step (MMQ * Producer) :=
  match fuel with
  | O => Idle
  | S fuel' =>
      match producer_step DROP q p with
      | Next (q', p') =>
          match p_pc p' with
          | P_Allocate => Next (q', p')
          | _ => alone fuel' DROP q' p'
          end
      | Idle => Idle
      | Crash => Crash
      end
  end.

Lemma submit_is_its_steps
  (DROP : bool) (q : MMQ) (p : Producer) (c : Call) (rest : list Call) :
  p_pc p = P_Allocate -> p_calls p = c :: rest ->
  alone 5 DROP q p =
  match submit DROP c q with
  | Returned r q' => Next (q', finish_call (Ret r) p)
  | Blocked => Idle
  | Threw q' => Next (q', finish_call Raised p)
  | Fault => Crash
  end.
Proof.
  intros Hpc Hc. rewrite submit_push_payload, push_payload_unfold.
  unfold alone at 1. unfold producer_step at 1. rewrite Hc, Hpc.
  destruct (PushMessageAllocate DROP q) as [index q1| |q1|] eqn:Ha;
    try reflexivity.
  - destruct (index =? size_max); simpl.
    + unfold producer_step. simpl. rewrite Hc. reflexivity.
    + unfold producer_step at 1. simpl. rewrite Hc.
      unfold store_absolute_index, lift, update_at.
      destruct (entry_at (circular_buffer_ q1) index) as [e|] eqn:He;
        [|reflexivity].
      simpl. unfold producer_step at 1. simpl. rewrite Hc.
      unfold store_message_body, lift, update_at. simpl.
      destruct (payload_of c) as [m|]; [|reflexivity].
      rewrite (entry_at_insert_eq _ _ _ _ He). simpl.
      unfold producer_step at 1. simpl. rewrite Hc.
      unfold PushMessageCommit, lift, update_at. simpl.
      rewrite list_insert_insert_eq, (entry_at_insert_eq _ _ _ _ He). simpl.
      unfold producer_step. simpl. rewrite Hc.
      rewrite list_insert_insert_eq. reflexivity.
  - exfalso. unfold PushMessageAllocate, reserve_head in Ha.
    repeat case_match; discriminate.
Qed.

(** Under the block policy a submission made after [destructing_] was set
    returns [false] and changes nothing but the count of calls. *)
Lemma block_policy_rejects_after_shutdown (c : Call) (q : MMQ) :
  destructing_ q = true ->
  submit false c q =
  Returned false (set_total (wrap (total_messages_ q + 1)) q).
Proof.
  intros Hd. rewrite submit_push_payload, push_payload_unfold.
  unfold PushMessageAllocate. rewrite Hd. reflexivity.
Qed.

(** ** Main results *)

(** The numbering with one producer thread.  With a capacity that is a
    [size_t] and fewer than 2^64 calls, in every state reached from the
    constructor: the absolute indices handed to the sink are strictly
    increasing; the [k]-th of them (from 0) comes from the [k]-th accepted
    call and exceeds [k] by the number of calls rejected before that call;
    and under the block policy the [k]-th index is [k], so that the indices
    of the first [M] dispatches are 0, 1, ..., [M - 1] in order. *)
Theorem one_producer_dispatch_numbering
  (DROP : bool) (n : Z) (cs : list Call) (s : System) :
  1 <= n <= size_max ->
  reachable DROP (boot n [cs]) s ->
  exists p,
    sys_producers s = [p] /\
    (Z.of_nat (length (outcomes p)) <= 2 ^ 64 ->
     (forall k k' a a',
        (k < k')%nat ->
        map d_index (sys_dispatched s) !! k = Some a ->
        map d_index (sys_dispatched s) !! k' = Some a' ->
        a < a') /\
     (forall k a,
        map d_index (sys_dispatched s) !! k = Some a ->
        exists j,
          outcomes p !! j = Some (Ret true) /\
          count_if is_accepted (take j (outcomes p)) = k /\
          a - Z.of_nat k =
            Z.of_nat (count_if is_dropped (take j (outcomes p)))) /\
     (DROP = false ->
      forall k a,
        map d_index (sys_dispatched s) !! k = Some a -> a = Z.of_nat k)).
Proof.
  intros Hn Hr.
  destruct (reachable_one_producer _ _ _ _ Hn Hr)
    as (p & K & R & F & Hps & Hring).
  exists p. split; [assumption|]. intros Hfew.
  assert (forall k a,
            map d_index (sys_dispatched s) !! k = Some a ->
            numbers p !! k = Some a) as Hnum.
  { intros k a Hk. rewrite (rg_log _ _ _ _ _ _ _ _ Hring) in Hk.
    apply list_lookup_fmap_Some in Hk as (a0 & -> & Hk).
    apply lookup_take_Some in Hk as [Hk _].
    pose proof (accepted_numbers_bounds _ _ _ _ Hk) as Hb.
    pose proof (count_if_le_length is_returned (outcomes p)).
    unfold wrap. rewrite Z.mod_small by lia. assumption. }
  assert (forall k a,
            map d_index (sys_dispatched s) !! k = Some a ->
            exists j,
              outcomes p !! j = Some (Ret true) /\
              count_if is_accepted (take j (outcomes p)) = k /\
              a - Z.of_nat k =
                Z.of_nat (count_if is_dropped (take j (outcomes p))))
    as Hgap.
  { intros k a Hk. apply Hnum, accepted_numbers_lookup in Hk
      as (j & Hj & Hacc & ->).
    exists j. split; [assumption|]. split; [assumption|].
    rewrite count_returned_split, Hacc. lia. }
  split; [|split].
  - intros k k' a a' Hlt Hk Hk'.
    eapply accepted_numbers_increasing; [exact Hlt|apply Hnum..]; assumption.
  - exact Hgap.
  - intros -> k a Hk.
    destruct (reachable_one_calm_producer _ _ _ Hn Hr) as (p' & Hps' & Hcalm).
    rewrite Hps in Hps'. injection Hps' as <-.
    destruct (Hgap k a Hk) as (j & Hj & _ & Hd).
    rewrite (calm_before _ _ Hcalm j Hj) in Hd. lia.
Qed.

(** C2, as amended.  With the entry at [tail] in range, the first block of
    the consumer loop leaves the loop exactly when [destructing_] is set,
    whatever the status of the entry; with [destructing_] clear, a READY
    entry is marked BEING_EXPORTED and the next step of the thread hands it
    to the sink, and any other status puts the thread to sleep. *)
Theorem consumer_await_decision (tail : Z) (q : MMQ) (e : Entry) :
  entry_at (circular_buffer_ q) tail = Some e ->
  (ConsumerThread_await tail q = Exit <-> destructing_ q = true) /\
  (destructing_ q = false -> status e = READY ->
   exists q',
     ConsumerThread_await tail q = Export q' /\
     entry_at (circular_buffer_ q') tail =
       Some (with_status BEING_EXPORTED e) /\
     forall log,
       consumer_step q' {| c_pc := C_Dispatch; c_tail := tail |} log =
       Next (q', {| c_pc := C_Recycle; c_tail := tail |},
             log ++ [{| d_message := message_body e;
                        d_index := absolute_index e;
                        d_total := total_messages_ q |}])) /\
  (destructing_ q = false -> status e <> READY ->
   ConsumerThread_await tail q = Sleep).
Proof.
  intros He. unfold ConsumerThread_await. rewrite He.
  destruct (status_eqb (status e) READY) eqn:Hs; simpl.
  - apply status_eqb_eq in Hs.
    destruct (update_at (with_status BEING_EXPORTED) tail q) as [q'|] eqn:Hu.
    2:{ unfold update_at in Hu. rewrite He in Hu. discriminate. }
    pose proof (update_at_entry _ _ _ _ _ Hu He) as He'.
    pose proof (update_at_frame _ _ _ _ Hu) as (_ & _ & Ht & _).
    destruct (destructing_ q); repeat split; try congruence.
    intros _ _. exists q'. repeat split; try assumption.
    intros log. unfold consumer_step, ConsumerThread_dispatch. simpl.
    rewrite He'. simpl. rewrite Ht. reflexivity.
  - apply status_eqb_neq in Hs.
    destruct (destructing_ q); repeat split; congruence.
Qed.

(** C4.  A submission that returns, whatever it returns, has added one to
    [total_messages_] (modulo 2^64, the counter being a [size_t]). *)
Theorem submit_counts_once (DROP : bool) (c : Call) (q q' : MMQ) (r : bool) :
  submit DROP c q = Returned r q' ->
  total_messages_ q' = wrap (total_messages_ q + 1) /\
  (0 <= total_messages_ q < size_max ->
   total_messages_ q' = total_messages_ q + 1).
Proof.
  rewrite submit_push_payload, push_payload_unfold. intros Hs.
  assert (total_messages_ q' = wrap (total_messages_ q + 1)) as Ht.
  { destruct (PushMessageAllocate DROP q) as [index q1| |q1|] eqn:Ha;
      try discriminate.
    apply PushMessageAllocate_frame in Ha as (_ & Ht & _).
    destruct (index =? size_max).
    - injection Hs as _ <-. simpl. congruence.
    - destruct (entry_at _ index); [|discriminate].
      destruct (payload_of c); [|discriminate].
      injection Hs as _ <-. simpl. congruence. }
  split; [exact Ht|].
  intros Hb. rewrite Ht. unfold wrap, size_max in *.
  apply Z.mod_small. lia.
Qed.

(** C6.  Under the drop policy, a submission that finds the head entry not
    FREE returns [false]; the buffer (every entry's status, index and body),
    [head_] and [destructing_] are as before, no payload is built (the
    payload of the call is not looked at: the result is the same for every
    call), and [total_messages_] is one more. *)
Theorem drop_on_overflow_frame (c : Call) (q : MMQ) (e : Entry) :
  entry_at (circular_buffer_ q) (head_ q) = Some e ->
  status e <> FREE ->
  exists q',
    submit true c q = Returned false q' /\
    circular_buffer_ q' = circular_buffer_ q /\
    head_ q' = head_ q /\
    circular_buffer_size_ q' = circular_buffer_size_ q /\
    destructing_ q' = destructing_ q /\
    total_messages_ q' = wrap (total_messages_ q + 1).
Proof.
  intros He Hs. rewrite submit_push_payload, push_payload_unfold.
  unfold PushMessageAllocate. rewrite He.
  apply status_eqb_neq in Hs. rewrite Hs. simpl.
  eexists. split; [reflexivity|]. simpl. auto.
Qed.

(** C7, as amended.  When the payload cannot be built after an entry has
    been reserved, the exception leaves the submission operation: the
    reserved entry stays BEING_IMPORTED, and [total_messages_] is not
    incremented. *)
Theorem payload_failure_keeps_reservation
  (DROP : bool) (c : Call) (q q1 : MMQ) (index : Z) :
  PushMessageAllocate DROP q = Returned index q1 ->
  index <> size_max ->
  payload_of c = None ->
  exists q' e,
    submit DROP c q = Threw q' /\
    entry_at (circular_buffer_ q') index = Some e /\
    status e = BEING_IMPORTED /\
    head_ q' = head_ q1 /\
    total_messages_ q' = total_messages_ q.
Proof.
  intros Ha Hne Hp. rewrite submit_push_payload, push_payload_unfold, Ha, Hp.
  destruct (Z.eqb_spec index size_max); [contradiction|].
  pose proof (PushMessageAllocate_frame _ _ _ _ Ha) as (_ & Ht & _).
  apply PushMessageAllocate_reserved in Ha as (_ & e0 & _ & _ & He1);
    [|assumption].
  rewrite He1. do 2 eexists. split; [reflexivity|]. simpl.
  erewrite entry_at_insert_eq by exact He1. auto.
Qed.

(** C8.  From the constructor on, a step of any thread leaves the buffer
    its length, and leaves the status of each entry as it was or moves it
    along one of the four transitions FREE -> BEING_IMPORTED,
    BEING_IMPORTED -> READY, READY -> BEING_EXPORTED,
    BEING_EXPORTED -> FREE. *)
Theorem status_changes_are_transitions
  (DROP : bool) (n : Z) (calls : list (list Call))
  (s s' : System) (t : Thread) :
  reachable DROP (boot n calls) s ->
  step DROP t s = Next s' ->
  length (circular_buffer_ (sys_queue s')) =
    length (circular_buffer_ (sys_queue s)) /\
  forall j e e',
    entry_at (circular_buffer_ (sys_queue s)) j = Some e ->
    entry_at (circular_buffer_ (sys_queue s')) j = Some e' ->
    status e' = status e \/ transition (status e) (status e').
Proof.
  intros Hr Hs. apply reachable_coherent in Hr. apply step_Next in Hs.
  split; [eapply moves_length; exact Hs|].
  intros j e e' He He'.
  destruct (moves_transition DROP s s' j (status e) (status e') Hr Hs)
    as [->|Ht]; auto; unfold status_at.
  - rewrite He. reflexivity.
  - rewrite He'. reflexivity.
Qed.




(** C10.  With [buffer_size >= 1], in every state reached from the
    constructor the indices used to access the buffer ([head_], the
    consumer's [tail], the index a producer holds) are below
    [circular_buffer_size_], which is the length of the buffer, and no step
    of any thread is undefined behaviour (no access outside the buffer, no
    division by zero in [Increment]).  The constructor itself takes any
    [buffer_size]: with 0 it builds a queue with an empty buffer, on which
    [Increment] divides by zero and the first access of the consumer thread
    and of [PushMessageAllocate] is outside the buffer. *)
Theorem capacity_is_a_caller_obligation
  (DROP : bool) (calls : list (list Call)) :
  (forall n s,
     1 <= n -> reachable DROP (boot n calls) s ->
     in_bounds n s /\ forall t, step DROP t s <> Crash) /\
  (circular_buffer_ (MMQ_new 0) = [] /\
   circular_buffer_size_ (MMQ_new 0) = 0 /\
   (forall i, Increment 0 i = None) /\
   PushMessageAllocate DROP (MMQ_new 0) = Fault /\
   step DROP Consuming (boot 0 calls) = Crash).
Proof.
  split.
  - intros n s Hn Hr. pose proof (reachable_in_bounds _ _ _ _ Hn Hr) as Hb.
    split; [assumption|]. intros t. eapply in_bounds_no_crash; eassumption.
  - repeat split. destruct DROP; reflexivity.
Qed.

(** ** Further properties of the queue *)

(** *** Waiting *)

(** No transformer but [PushMessageAllocate] under the block policy can
    put a producer to sleep. *)
Lemma producer_step_Idle (DROP : bool) (q : MMQ) (p : Producer) :
  producer_step DROP q p = Idle ->
  p_calls p = [] \/
  (DROP = false /\ p_pc p = P_Allocate /\
   PushMessageAllocate false q = Blocked).
Proof.
  unfold producer_step. destruct (p_calls p) as [|c rest]; [auto|].
  destruct (p_pc p) as [|x|x|x|r].
  - destruct (PushMessageAllocate DROP q) as [index q'| |q'|] eqn:Ha;
      try discriminate.
    + destruct (negb (index =? size_max)); discriminate.
    + intros _. right. destruct DROP; [|auto].
      unfold PushMessageAllocate, reserve_head in Ha.
      repeat case_match; discriminate.
  - unfold store_absolute_index, lift. destruct (update_at _ _ _); discriminate.
  - unfold store_message_body, lift.
    destruct (payload_of c); [|discriminate].
    destruct (update_at _ _ _); discriminate.
  - unfold PushMessageCommit, lift. destruct (update_at _ _ _); discriminate.
  - discriminate.
Qed.

(** Under the drop policy a producer that has a call to make never waits:
    in every state reached from the constructor of a queue of capacity at
    least 1, whatever the other threads did, its next step runs. *)
Theorem drop_policy_never_waits
  (n : Z) (calls : list (list Call)) (s : System) (i : nat) (p : Producer) :
  1 <= n ->
  reachable true (boot n calls) s ->
  sys_producers s !! i = Some p ->
  p_calls p <> [] ->
  exists s', step true (Producing i) s = Next s'.
Proof.
  intros Hn Hr Hp Hcalls.
  pose proof (reachable_in_bounds _ _ _ _ Hn Hr) as Hb.
  pose proof (in_bounds_no_crash true n s (Producing i) Hn Hb) as Hnc.
  unfold step in *. rewrite Hp in *.
  destruct (producer_step true (sys_queue s) p) as [[q' p']| |] eqn:Hs.
  - eauto.
  - apply producer_step_Idle in Hs as [Hs|(Hs & _)];
      [contradiction|discriminate].
  - contradiction.
Qed.

(** Under the block policy a submission waits exactly when the queue is
    not being destroyed and the head entry is not FREE. *)
Theorem block_policy_waits_iff_full (c : Call) (q : MMQ) :
  submit false c q = Blocked <->
  destructing_ q = false /\
  exists e, entry_at (circular_buffer_ q) (head_ q) = Some e /\
            status e <> FREE.
Proof.
  rewrite submit_push_payload, push_payload_unfold. split.
  - destruct (PushMessageAllocate false q) as [index q1| |q1|] eqn:Ha.
    + destruct (index =? size_max); [discriminate|].
      destruct (entry_at _ index); [|discriminate].
      destruct (payload_of c); discriminate.
    + intros _. unfold PushMessageAllocate in Ha.
      destruct (destructing_ q); [discriminate|]. split; [reflexivity|].
      destruct (entry_at _ _) as [e|]; [|discriminate].
      destruct (status_eqb (status e) FREE) eqn:Hs.
      * unfold reserve_head in Ha. repeat case_match; discriminate.
      * apply status_eqb_neq in Hs. eauto.
    + discriminate.
    + discriminate.
  - intros (Hd & e & He & Hs). unfold PushMessageAllocate.
    apply status_eqb_neq in Hs. rewrite Hd, He, Hs. reflexivity.
Qed.

(** The destructor releases the producers: under the block policy, once
    [destructing_] is set, no producer with a call to make waits, and one
    that stands at [PushMessageAllocate] (at its entry or asleep in [wait])
    gives up, the queue untouched, on its way to return [false]. *)
Theorem shutdown_releases_producers
  (n : Z) (calls : list (list Call)) (s : System) (i : nat) (p : Producer) :
  1 <= n ->
  reachable false (boot n calls) s ->
  destructing_ (sys_queue s) = true ->
  sys_producers s !! i = Some p ->
  p_calls p <> [] ->
  exists s',
    step false (Producing i) s = Next s' /\
    (p_pc p = P_Allocate ->
     sys_queue s' = sys_queue s /\
     sys_producers s' !! i = Some (at_pc (P_Count false) p)).
Proof.
  intros Hn Hr Hd Hp Hcalls.
  pose proof (reachable_in_bounds _ _ _ _ Hn Hr) as Hb.
  pose proof (in_bounds_no_crash false n s (Producing i) Hn Hb) as Hnc.
  assert (PushMessageAllocate false (sys_queue s) =
          Returned size_max (sys_queue s)) as Ha.
  { unfold PushMessageAllocate. rewrite Hd. reflexivity. }
  unfold step in *. rewrite Hp in *.
  destruct (producer_step false (sys_queue s) p) as [[q' p']| |] eqn:Hs.
  - eexists. split; [reflexivity|]. intros Hpc. simpl.
    unfold producer_step in Hs. rewrite Hpc, Ha in Hs.
    destruct (p_calls p); [contradiction|].
    change (negb (size_max =? size_max)) with false in Hs.
    injection Hs as <- <-. split; [reflexivity|].
    apply list_lookup_insert_eq. eapply lookup_lt_Some. exact Hp.
  - apply producer_step_Idle in Hs as [Hs|(_ & _ & Hs)];
      [contradiction|congruence].
  - contradiction.
Qed.

(** *** After the destructor *)

Definition dispatching (c : Consumer) : nat :=
  match c_pc c with C_Dispatch => 1 | _ => 0 end.

Lemma moves_destructing (DROP : bool) (s s' : System) :
  moves DROP s s' ->
  destructing_ (sys_queue s) = true -> destructing_ (sys_queue s') = true.
Proof.
  intros Hm Hd. destruct Hm as [i p q' p' Hp Hpm|q' c' log' Hcm|Hd']; simpl.
  - destruct Hpm as [index q' Hpc Hcalls Hal|x q' Hpc Hu
                    |x c rest m q' Hpc Hcs Hpl Hu
                    |x c rest Hpc Hcs Hpl|x q' Hpc Hu|r Hpc];
      try assumption;
      try (apply update_at_frame in Hu as (_ & _ & _ & -> & _); assumption).
    apply PushMessageAllocate_frame in Hal as (_ & _ & -> & _). assumption.
  - destruct Hcm as [e Hpc He Hd'|e q' Hpc He Hd' Hs Hu|e Hpc He|q' t Hpc Hu Ht];
      try assumption;
      apply update_at_frame in Hu as (_ & _ & _ & -> & _); assumption.
  - reflexivity.
Qed.

(** Once [destructing_] is set the sink is called at most once more, and
    only to finish a dispatch the consumer had already begun (the entry
    was BEING_EXPORTED); the record of calls made so far stays. *)
Theorem at_most_one_dispatch_after_shutdown (DROP : bool) (s s' : System) :
  destructing_ (sys_queue s) = true ->
  reachable DROP s s' ->
  exists more,
    sys_dispatched s' = sys_dispatched s ++ more /\
    (length more + dispatching (sys_consumer s')
     <= dispatching (sys_consumer s))%nat.
Proof.
  intros Hd Hr.
  cut (destructing_ (sys_queue s') = true /\
       exists more,
         sys_dispatched s' = sys_dispatched s ++ more /\
         (length more + dispatching (sys_consumer s')
          <= dispatching (sys_consumer s))%nat); [tauto|].
  apply (reachable_invariant DROP
           (fun s' =>
              destructing_ (sys_queue s') = true /\
              exists more,
                sys_dispatched s' = sys_dispatched s ++ more /\
                (length more + dispatching (sys_consumer s')
                 <= dispatching (sys_consumer s))%nat) s s');
    [| |exact Hr].
  - split; [assumption|]. exists []. rewrite app_nil_r. simpl. auto with lia.
  - intros s1 s2 (Hd1 & more & Hlog & Hle) Hm.
    split; [eapply moves_destructing; eassumption|].
    destruct Hm as [i p q' p' Hp Hpm|q' c' log' Hcm|Hd']; simpl.
    + exists more. auto.
    + destruct Hcm as [e Hpc He Hd'|e q' Hpc He Hd' Hs Hu|e Hpc He|q' t Hpc Hu Ht].
      * exists more. unfold dispatching in *. simpl. split; [assumption|lia].
      * congruence.
      * exists (more ++ [{| d_message := message_body e;
                            d_index := absolute_index e;
                            d_total := total_messages_ (sys_queue s1) |}]).
        rewrite Hlog, app_assoc. split; [reflexivity|].
        unfold dispatching in *. rewrite Hpc in Hle. simpl.
        rewrite length_app. simpl. lia.
      * exists more. unfold dispatching in *. simpl. split; [assumption|lia].
    + exists more. auto.
Qed.

(** *** A producer ahead of a suspended consumer

    The calls of one thread, one after the other, while no other thread
    moves: the loop of the overflow test, whose consumer is held up. *)








(** *** The count of calls, as the sink sees it

    For any number of producers.  [total_messages_] is the number of calls
    that have returned; an absolute index is a value of that count read
    earlier. *)

Fixpoint counted (ps : list Producer) : nat :=
  match ps with
  | [] => 0
  | p :: ps' => (count_if is_returned (p_returns p) + counted ps')%nat
  end.

Lemma counted_insert (ps : list Producer) (i : nat) (p p' : Producer) :
  ps !! i = Some p ->
  (counted (<[i := p']> ps) + count_if is_returned (p_returns p) =
   counted ps + count_if is_returned (p_returns p'))%nat.
Proof.
  revert i. induction ps as [|p0 ps IH]; intros i Hi; [discriminate|].
  destruct i as [|i]; simpl in *.
  - injection Hi as ->. lia.
  - specialize (IH i Hi). lia.
Qed.

(** The unwrapped values behind the log: [ts] are the counts the sink was
    given, in order. *)
Record tally (s : System) (ts : list Z) : Prop := mkTally {
  tl_total :
    total_messages_ (sys_queue s) =
    wrap (Z.of_nat (counted (sys_producers s)));
  tl_entries : forall j e,
    entry_at (circular_buffer_ (sys_queue s)) j = Some e ->
    exists a, 0 <= a <= Z.of_nat (counted (sys_producers s)) /\
              absolute_index e = wrap a;
  tl_log : forall x d,
    sys_dispatched s !! x = Some d ->
    exists a t,
      ts !! x = Some t /\
      0 <= a <= t /\
      d_index d = wrap a /\ d_total d = wrap t;
  tl_bound : forall x t,
    ts !! x = Some t -> t <= Z.of_nat (counted (sys_producers s));
  tl_sorted : forall x y t t',
    (x <= y)%nat -> ts !! x = Some t -> ts !! y = Some t' -> t <= t';
  tl_length : length ts = length (sys_dispatched s)
}.

Lemma update_at_all (P : Entry -> Prop) (f : Entry -> Entry) (x : Z)
  (q q' : MMQ) :
  update_at f x q = Some q' ->
  (forall e, P e -> P (f e)) ->
  (forall j e, entry_at (circular_buffer_ q) j = Some e -> P e) ->
  forall j e, entry_at (circular_buffer_ q') j = Some e -> P e.
Proof.
  intros Hu Hf Hall j e He.
  pose proof (update_at_Some _ _ _ _ Hu) as (e0 & He0 & ->).
  simpl in He. rewrite (entry_at_insert _ _ j _ _ He0) in He.
  destruct (Z.eq_dec j x).
  - injection He as <-. eauto.
  - eauto.
Qed.

Lemma PushMessageAllocate_all (P : Entry -> Prop) (DROP : bool)
  (q q' : MMQ) (index : Z) :
  PushMessageAllocate DROP q = Returned index q' ->
  (forall e, P e -> P (with_status BEING_IMPORTED e)) ->
  (forall j e, entry_at (circular_buffer_ q) j = Some e -> P e) ->
  forall j e, entry_at (circular_buffer_ q') j = Some e -> P e.
Proof.
  intros Ha Hf Hall j e He.
  apply PushMessageAllocate_Returned in Ha as [(_ & -> & _)|(Hr & _)];
    [eauto|].
  apply reserve_head_Returned in Hr as (-> & e0 & h & He0 & _ & ->).
  simpl in He. rewrite (entry_at_insert _ _ j _ _ He0) in He.
  destruct (Z.eq_dec j (head_ q)).
  - injection He as <-. eauto.
  - eauto.
Qed.

Lemma boot_tally (n : Z) (calls : list (list Call)) : tally (boot n calls) [].
Proof.
  assert (counted (sys_producers (boot n calls)) = 0%nat) as H0.
  { simpl. induction calls as [|cs calls IH]; simpl; auto. }
  constructor; rewrite ?H0; try reflexivity; try discriminate.
  - intros j e He. exists 0. split; [lia|].
    unfold entry_at in He. simpl in He.
    destruct (j <? 0); [discriminate|].
    apply lookup_replicate in He as [-> _]. reflexivity.
Qed.

Lemma moves_tally (DROP : bool) (s s' : System) (ts : list Z) :
  tally s ts -> moves DROP s s' -> exists ts', tally s' ts'.
Proof.
  intros [Htot Hent Hlog Hbound Hsorted Hlen] Hm.
  destruct Hm as [i p q' p' Hp Hpm|q' c' log' Hcm|Hd].
  - (* a producer: the log stays *)
    exists ts.
    assert (forall p1 q1,
              p_returns p1 = p_returns p ->
              total_messages_ q1 = total_messages_ (sys_queue s) ->
              (forall P : Entry -> Prop,
                 (forall e, P e -> P (with_status BEING_IMPORTED e)) ->
                 (forall e, P e -> P (with_status READY e)) ->
                 (forall e m, P e -> P (with_message_body m e)) ->
                 (forall e, P e ->
                    P (with_absolute_index
                         (total_messages_ (sys_queue s)) e)) ->
                 (forall j e, entry_at (circular_buffer_ (sys_queue s)) j
                                = Some e -> P e) ->
                 forall j e, entry_at (circular_buffer_ q1) j = Some e ->
                             P e) ->
              tally {| sys_queue := q1;
                       sys_producers := <[i := p1]> (sys_producers s);
                       sys_consumer := sys_consumer s;
                       sys_dispatched := sys_dispatched s |} ts) as Hquiet.
    { intros p1 q1 Hret Htot1 Hall.
      assert (counted (<[i := p1]> (sys_producers s)) =
              counted (sys_producers s)) as Hc.
      { pose proof (counted_insert _ _ _ p1 Hp) as H. rewrite Hret in H. lia. }
      constructor; simpl; rewrite ?Hc; try assumption; [congruence|].
      apply (Hall (fun e => exists a,
                     0 <= a <= Z.of_nat (counted (sys_producers s)) /\
                     absolute_index e = wrap a)); auto.
      intros e _. exists (Z.of_nat (counted (sys_producers s))).
      split; [lia|]. simpl. assumption. }
    destruct Hpm as [index q' Hpc Hcalls Hal|x q' Hpc Hu
                    |x c rest m q' Hpc Hcs Hpl Hu
                    |x c rest Hpc Hcs Hpl|x q' Hpc Hu|r Hpc].
    + apply Hquiet; [reflexivity| |].
      * apply PushMessageAllocate_frame in Hal. tauto.
      * intros P H1 _ _ _. eapply PushMessageAllocate_all; eassumption.
    + apply Hquiet; [reflexivity| |].
      * apply update_at_frame in Hu. tauto.
      * intros P _ _ _ H4. eapply update_at_all; eassumption.
    + apply Hquiet; [reflexivity| |].
      * apply update_at_frame in Hu. tauto.
      * intros P _ _ H3 _. eapply update_at_all; [exact Hu|auto].
    + assert (counted (<[i := finish_call Raised p]> (sys_producers s)) =
              counted (sys_producers s)) as Hc.
      { pose proof (counted_insert _ _ _ (finish_call Raised p) Hp) as H.
        simpl in H. rewrite count_if_app in H. simpl in H. lia. }
      constructor; simpl; rewrite ?Hc; assumption.
    + apply Hquiet; [reflexivity| |].
      * apply update_at_frame in Hu. tauto.
      * intros P _ H2 _ _. eapply update_at_all; eassumption.
    + assert (counted (<[i := finish_call (Ret r) p]> (sys_producers s)) =
              S (counted (sys_producers s))) as Hc.
      { pose proof (counted_insert _ _ _ (finish_call (Ret r) p) Hp) as H.
        simpl in H. rewrite count_if_app in H. simpl in H. lia. }
      constructor; simpl; rewrite ?Hc; try assumption.
      * rewrite Htot. unfold wrap. rewrite Zplus_mod_idemp_l. f_equal. lia.
      * intros j e He. destruct (Hent j e He) as (a & Ha & Hi).
        exists a. split; [lia|assumption].
      * intros x t Hx. specialize (Hbound x t Hx). lia.
  - (* the consumer *)
    assert (forall st q1,
              update_at (with_status st) (c_tail (sys_consumer s))
                (sys_queue s) = Some q1 ->
              forall c1,
                tally {| sys_queue := q1;
                         sys_producers := sys_producers s;
                         sys_consumer := c1;
                         sys_dispatched := sys_dispatched s |} ts) as Hstat.
    { intros st q1 Hu c1.
      constructor; simpl; try assumption.
      - apply update_at_frame in Hu as (_ & _ & -> & _). assumption.
      - eapply update_at_all; [exact Hu| |exact Hent]. auto. }
    destruct Hcm as [e Hpc He Hd|e q' Hpc He Hd Hs Hu|e Hpc He|q' t Hpc Hu Ht].
    + exists ts. constructor; assumption.
    + exists ts. eapply Hstat. exact Hu.
    + exists (ts ++ [Z.of_nat (counted (sys_producers s))]).
      destruct (Hent _ _ He) as (a & Ha & Hi).
      constructor; simpl; try assumption.
      * intros x d Hx.
        destruct (Nat.lt_ge_cases x (length (sys_dispatched s))) as [Hlt|Hge].
        -- rewrite lookup_app_l in Hx by assumption.
           destruct (Hlog x d Hx) as (a' & t' & Ht' & H').
           exists a', t'. split; [|assumption].
           apply lookup_app_l_Some. assumption.
        -- rewrite lookup_app_r in Hx by assumption.
           destruct (x - length (sys_dispatched s))%nat eqn:Hdiff;
             [|discriminate].
           injection Hx as <-. simpl.
           exists a, (Z.of_nat (counted (sys_producers s))).
           split.
           { assert (x = length ts) as -> by lia.
             rewrite lookup_app_r by lia. rewrite Nat.sub_diag. reflexivity. }
           split; [lia|]. split; [assumption|]. assumption.
      * intros x t Hx. apply lookup_app_Some in Hx as [Hx|[_ Hx]].
        -- eauto.
        -- destruct (x - length ts)%nat; [|discriminate].
           injection Hx as <-. lia.
      * intros x y t t' Hxy Hx Hy.
        apply lookup_app_Some in Hx as [Hx|[Hgx Hx]];
          apply lookup_app_Some in Hy as [Hy|[Hgy Hy]].
        -- eauto.
        -- destruct (y - length ts)%nat; [|discriminate].
           injection Hy as <-. eauto.
        -- apply lookup_lt_Some in Hy. lia.
        -- destruct (x - length ts)%nat; [|discriminate].
           destruct (y - length ts)%nat; [|discriminate].
           injection Hx as <-. injection Hy as <-. lia.
      * rewrite !length_app. simpl. lia.
    + exists ts. eapply Hstat. exact Hu.
  - exists ts. constructor; assumption.
Qed.

Lemma reachable_tally
  (DROP : bool) (n : Z) (calls : list (list Call)) (s : System) :
  reachable DROP (boot n calls) s -> exists ts, tally s ts.
Proof.
  apply (reachable_invariant DROP (fun s => exists ts, tally s ts)).
  - exists []. apply boot_tally.
  - intros s1 s2 [ts Ht]. eapply moves_tally. exact Ht.
Qed.

(** Whatever the number of producers, as long as fewer than 2^64 calls
    have returned: the count handed to the sink with a message is at least
    the message's absolute index and at most the present count, and the
    counts handed to the sink never decrease from one call of the sink to
    the next. *)
Theorem sink_sees_counts_grow
  (DROP : bool) (n : Z) (calls : list (list Call)) (s : System) :
  reachable DROP (boot n calls) s ->
  Z.of_nat (counted (sys_producers s)) < 2 ^ 64 ->
  total_messages_ (sys_queue s) = Z.of_nat (counted (sys_producers s)) /\
  (forall x d,
     sys_dispatched s !! x = Some d ->
     0 <= d_index d <= d_total d /\
     d_total d <= total_messages_ (sys_queue s)) /\
  (forall x y d d',
     (x <= y)%nat ->
     sys_dispatched s !! x = Some d ->
     sys_dispatched s !! y = Some d' ->
     d_total d <= d_total d').
Proof.
  intros Hr Hfew.
  destruct (reachable_tally _ _ _ _ Hr)
    as (ts & [Htot Hent Hlog Hbound Hsorted Hlen]).
  assert (forall z, 0 <= z <= Z.of_nat (counted (sys_producers s)) ->
                    wrap z = z) as Hwrap.
  { intros z Hz. unfold wrap. apply Z.mod_small. lia. }
  assert (total_messages_ (sys_queue s) =
          Z.of_nat (counted (sys_producers s))) as Htot'.
  { rewrite Htot. apply Hwrap. lia. }
  assert (forall x d,
            sys_dispatched s !! x = Some d ->
            ts !! x = Some (d_total d) /\
            0 <= d_index d <= d_total d) as Hd.
  { intros x d Hx. destruct (Hlog x d Hx) as (a & t & Ht & Ha & Hi & Hdt).
    pose proof (Hbound x t Ht).
    rewrite Hwrap in Hi, Hdt by lia. subst. auto. }
  split; [assumption|]. split.
  - intros x d Hx. destruct (Hd x d Hx) as [Ht Hi]. split; [assumption|].
    rewrite Htot'. eapply Hbound. exact Ht.
  - intros x y d d' Hxy Hx Hy.
    destruct (Hd x d Hx) as [Ht _]. destruct (Hd y d' Hy) as [Ht' _].
    eapply Hsorted; eassumption.
Qed.

(** *** Delivery: what the sink is handed, and in which order

    For any number of producers.  Every reservation is tagged with the
    producer that made it and the number of that producer's call; the
    entries are reserved, and handed to the sink, in the order of the
    tags. *)

Lemma producer_step_calls (DROP : bool) (q : MMQ) (p : Producer)
  (x : MMQ * Producer) :
  producer_step DROP q p = Next x -> p_calls p <> [].
Proof. unfold producer_step. destruct (p_calls p); discriminate. Qed.

(** The steps, with what the step function knows of the calls. *)
Lemma step_cases (DROP : bool) (t : Thread) (s s' : System) :
  step DROP t s = Next s' ->
  (exists i p q' p',
     sys_producers s !! i = Some p /\ p_calls p <> [] /\
     producer_moves DROP (sys_queue s) p q' p' /\
     s' = {| sys_queue := q';
             sys_producers := <[i := p']> (sys_producers s);
             sys_consumer := sys_consumer s;
             sys_dispatched := sys_dispatched s |}) \/
  (exists q' c' log',
     consumer_moves (sys_queue s) (sys_consumer s) (sys_dispatched s)
       q' c' log' /\
     s' = {| sys_queue := q';
             sys_producers := sys_producers s;
             sys_consumer := c';
             sys_dispatched := log' |}) \/
  (s' = {| sys_queue := MMQ_destruct (sys_queue s);
           sys_producers := sys_producers s;
           sys_consumer := sys_consumer s;
           sys_dispatched := sys_dispatched s |}).
Proof.
  unfold step. destruct t as [i| |].
  - destruct (sys_producers s !! i) as [p|] eqn:Hp; [|discriminate].
    destruct (producer_step DROP (sys_queue s) p) as [[q' p']| |] eqn:Hs;
      try discriminate.
    intros [= <-]. left. exists i, p, q', p'.
    split; [exact Hp|]. split; [eapply producer_step_calls; exact Hs|].
    split; [apply producer_step_Next; exact Hs|reflexivity].
  - destruct (consumer_step _ _ _) as [[[q' c'] log']| |] eqn:Hs;
      try discriminate.
    intros [= <-]. right. left. exists q', c', log'.
    split; [apply consumer_step_Next; exact Hs|reflexivity].
  - destruct (destructing_ (sys_queue s)); [discriminate|].
    intros [= <-]. right. right. reflexivity.
Qed.

Lemma reachable_invariant_step
  (DROP : bool) (P : System -> Prop) (s0 s : System) :
  P s0 ->
  (forall s1 t s2, P s1 -> step DROP t s1 = Next s2 -> P s2) ->
  reachable DROP s0 s -> P s.
Proof.
  intros H0 Hstep Hr. induction Hr as [|s1 t s2 _ IH Hs]; [assumption|].
  eapply Hstep; [exact IH|exact Hs].
Qed.

(** The calls a producer has begun: the decided ones and the one it holds
    an entry for. *)
Definition started (p : Producer) : nat :=
  (length (outcomes p) + match held p with Some _ => 1 | None => 0 end)%nat.

(** The message [m] is the payload of call number [a] of producer [i], and
    that call was accepted. *)
Definition delivers (calls : list (list Call)) (ps : list Producer)
  (tag : nat * nat) (m : MSG) : Prop :=
  (exists cs c,
     calls !! tag.1 = Some cs /\ cs !! tag.2 = Some c /\
     payload_of c = Some m) /\
  (exists p, ps !! tag.1 = Some p /\ outcomes p !! tag.2 = Some (Ret true)).

Record lanes (n : Z) (calls : list (list Call)) (s : System)
  (K R : Z) (tags : list (nat * nat)) : Prop := mkLanes {
  ln_order : 0 <= K /\ K <= R /\ R <= K + n;
  ln_size : circular_buffer_size_ (sys_queue s) = n;
  ln_tags : Z.of_nat (length tags) = R;
  ln_head : head_ (sys_queue s) = R mod n;
  ln_tail : c_tail (sys_consumer s) = K mod n;
  ln_free : forall k,
    R <= k < K + n -> status_at (sys_queue s) (k mod n) = Some FREE;
  ln_busy : forall k,
    K <= k < R ->
    exists e,
      entry_at (circular_buffer_ (sys_queue s)) (k mod n) = Some e /\
      status e <> FREE /\
      (status e = READY \/ status e = BEING_EXPORTED ->
       exists tag,
         tags !! Z.to_nat k = Some tag /\
         delivers calls (sys_producers s) tag (message_body e));
  ln_held : forall i p x,
    sys_producers s !! i = Some p -> held p = Some x ->
    exists r,
      K <= r < R /\ x = r mod n /\
      tags !! Z.to_nat r = Some (i, length (p_returns p));
  ln_body : forall i p x,
    sys_producers s !! i = Some p -> p_pc p = P_Commit x ->
    exists e c,
      entry_at (circular_buffer_ (sys_queue s)) x = Some e /\
      head (p_calls p) = Some c /\
      payload_of c = Some (message_body e);
  ln_calls : forall i p,
    sys_producers s !! i = Some p ->
    exists cs done,
      calls !! i = Some cs /\ cs = done ++ p_calls p /\
      length done = length (p_returns p);
  ln_started : forall r i a,
    tags !! r = Some (i, a) ->
    exists p, sys_producers s !! i = Some p /\ (a < started p)%nat;
  ln_mono : forall r r' i a b,
    (r < r')%nat -> tags !! r = Some (i, a) -> tags !! r' = Some (i, b) ->
    (a < b)%nat;
  ln_log_length :
    length (sys_dispatched s) =
    Z.to_nat (K + recycling (sys_consumer s));
  ln_log : forall x d,
    sys_dispatched s !! x = Some d ->
    exists tag,
      tags !! x = Some tag /\
      delivers calls (sys_producers s) tag (d_message d)
}.

Lemma boot_lanes (n : Z) (calls : list (list Call)) :
  1 <= n -> lanes n calls (boot n calls) 0 0 [].
Proof.
  intros Hn.
  assert (forall i p, sys_producers (boot n calls) !! i = Some p ->
            exists cs, calls !! i = Some cs /\
              p = {| p_pc := P_Allocate; p_calls := cs; p_returns := [] |})
    as Hboot.
  { intros i p Hp. simpl in Hp.
    apply list_lookup_fmap_Some in Hp as (cs & -> & Hcs). eauto. }
  constructor; simpl; try reflexivity; try lia; try discriminate.
  - intros k Hk. unfold status_at, entry_at. simpl.
    pose proof (Z.mod_pos_bound k n ltac:(lia)) as Hb.
    destruct (Z.ltb_spec (k mod n) 0); [lia|].
    rewrite lookup_replicate_2 by lia. reflexivity.
  - intros i p x Hp. apply Hboot in Hp as (cs & _ & ->). discriminate.
  - intros i p x Hp. apply Hboot in Hp as (cs & _ & ->). discriminate.
  - intros i p Hp. apply Hboot in Hp as (cs & Hcs & ->).
    exists cs, []. auto.
Qed.
Lemma delivers_insert (calls : list (list Call)) (ps : list Producer)
  (i : nat) (p p' : Producer) (tag : nat * nat) (m : MSG) :
  ps !! i = Some p ->
  (exists more, outcomes p' = outcomes p ++ more) ->
  delivers calls ps tag m ->
  delivers calls (<[i := p']> ps) tag m.
Proof.
  intros Hp [more Hmore] [Hcall (p0 & Hp0 & Hout)]. split; [assumption|].
  destruct (Nat.eq_dec tag.1 i) as [Heq|Hne].
  - exists p'. rewrite Heq in *. split.
    + apply list_lookup_insert_eq. eapply lookup_lt_Some. exact Hp.
    + rewrite Hmore. apply lookup_app_l_Some. congruence.
  - exists p0. split; [|assumption].
    rewrite list_lookup_insert_ne by congruence. assumption.
Qed.

(** What an update of one entry leaves of the busy part of the ring. *)
Lemma busy_update
  (n : Z) (calls : list (list Call)) (ps ps' : list Producer)
  (K R : Z) (tags : list (nat * nat)) (q q' : MMQ)
  (f : Entry -> Entry) (x : Z) :
  update_at f x q = Some q' ->
  (forall tag m, delivers calls ps tag m -> delivers calls ps' tag m) ->
  (forall e k,
     entry_at (circular_buffer_ q) x = Some e ->
     K <= k < R -> k mod n = x ->
     status (f e) <> FREE /\
     (status (f e) = READY \/ status (f e) = BEING_EXPORTED ->
      exists tag,
        tags !! Z.to_nat k = Some tag /\
        delivers calls ps' tag (message_body (f e)))) ->
  (forall k,
     K <= k < R ->
     exists e,
       entry_at (circular_buffer_ q) (k mod n) = Some e /\
       status e <> FREE /\
       (status e = READY \/ status e = BEING_EXPORTED ->
        exists tag,
          tags !! Z.to_nat k = Some tag /\
          delivers calls ps tag (message_body e))) ->
  forall k,
    K <= k < R ->
    exists e,
      entry_at (circular_buffer_ q') (k mod n) = Some e /\
      status e <> FREE /\
      (status e = READY \/ status e = BEING_EXPORTED ->
       exists tag,
         tags !! Z.to_nat k = Some tag /\
         delivers calls ps' tag (message_body e)).
Proof.
  intros Hu Hps Hnew Hbusy k Hk.
  pose proof (update_at_Some _ _ _ _ Hu) as (e0 & He0 & ->). simpl.
  rewrite (entry_at_insert _ _ (k mod n) _ _ He0).
  destruct (Z.eq_dec (k mod n) x) as [Heq|Hne].
  - exists (f e0). split; [reflexivity|]. eapply Hnew; eassumption.
  - destruct (Hbusy k Hk) as (e & He & Hs & Ht).
    exists e. split; [assumption|]. split; [assumption|].
    intros Hst. destruct (Ht Hst) as (tag & Htag & Hd). eauto.
Qed.

Lemma free_update (n K R : Z) (q q' : MMQ) (f : Entry -> Entry) (x : Z) :
  update_at f x q = Some q' ->
  (forall e, entry_at (circular_buffer_ q) x = Some e ->
             status e = FREE -> status (f e) = FREE) ->
  (forall k, R <= k < K + n -> status_at q (k mod n) = Some FREE) ->
  forall k, R <= k < K + n -> status_at q' (k mod n) = Some FREE.
Proof.
  intros Hu Hf Hfree k Hk. specialize (Hfree k Hk).
  pose proof (update_at_Some _ _ _ _ Hu) as (e0 & He0 & ->).
  unfold status_at in *. simpl.
  rewrite (entry_at_insert _ _ (k mod n) _ _ He0).
  destruct (Z.eq_dec (k mod n) x) as [Heq|Hne]; [|assumption].
  rewrite Heq, He0 in Hfree. injection Hfree as Hfree.
  rewrite (Hf e0 He0 Hfree). reflexivity.
Qed.

(** A move of producer [i] that reserves nothing: [K], [R] and the tags
    stay. *)
Lemma lanes_producer
  (n : Z) (calls : list (list Call)) (s : System) (K R : Z)
  (tags : list (nat * nat)) (i : nat) (p p' : Producer) (q' : MMQ) :
  lanes n calls s K R tags ->
  sys_producers s !! i = Some p ->
  (exists more, outcomes p' = outcomes p ++ more) ->
  (started p <= started p')%nat ->
  (forall x, held p' = Some x ->
             held p = Some x /\ p_returns p' = p_returns p) ->
  (forall cs done,
     calls !! i = Some cs -> cs = done ++ p_calls p ->
     length done = length (p_returns p) ->
     exists done', cs = done' ++ p_calls p' /\
                   length done' = length (p_returns p')) ->
  circular_buffer_size_ q' = n ->
  head_ q' = head_ (sys_queue s) ->
  (forall k, R <= k < K + n -> status_at q' (k mod n) = Some FREE) ->
  (forall k,
     K <= k < R ->
     exists e,
       entry_at (circular_buffer_ q') (k mod n) = Some e /\
       status e <> FREE /\
       (status e = READY \/ status e = BEING_EXPORTED ->
        exists tag,
          tags !! Z.to_nat k = Some tag /\
          delivers calls (<[i := p']> (sys_producers s)) tag
            (message_body e))) ->
  (forall j pj x,
     <[i := p']> (sys_producers s) !! j = Some pj -> p_pc pj = P_Commit x ->
     exists e c,
       entry_at (circular_buffer_ q') x = Some e /\
       head (p_calls pj) = Some c /\
       payload_of c = Some (message_body e)) ->
  lanes n calls
    {| sys_queue := q';
       sys_producers := <[i := p']> (sys_producers s);
       sys_consumer := sys_consumer s;
       sys_dispatched := sys_dispatched s |} K R tags.
Proof.
  intros [Ho Hsz Htags Hhd Htl Hfree Hbusy Hheld Hbody Hcalls Hstarted Hmono
          Hlen Hlog] Hp Hmore Hst Hh Hc Hsz' Hhd' Hfree' Hbusy' Hbody'.
  constructor; simpl; try assumption.
  - congruence.
  - intros j pj x Hj Hx.
    apply lookup_insert_producer in Hj as [(-> & ->)|(Hne & Hj)].
    + destruct (Hh x Hx) as [Hx' ->]. eauto.
    + eauto.
  - intros j pj Hj.
    apply lookup_insert_producer in Hj as [(-> & ->)|(Hne & Hj)]; [|eauto].
    destruct (Hcalls _ _ Hp) as (cs & done & Hcs & Hd & Hl).
    destruct (Hc cs done Hcs Hd Hl) as (done' & Hd' & Hl'). eauto.
  - intros r j a Hr. destruct (Hstarted r j a Hr) as (pj & Hj & Ha).
    destruct (Nat.eq_dec j i) as [->|Hne].
    + exists p'. split.
      * apply list_lookup_insert_eq. eapply lookup_lt_Some. exact Hp.
      * assert (pj = p) as -> by congruence. lia.
    + exists pj. rewrite list_lookup_insert_ne by congruence. auto.
  - intros x d Hx. destruct (Hlog x d Hx) as (tag & Htag & Hd).
    exists tag. split; [assumption|]. eapply delivers_insert; eassumption.
Qed.
Lemma update_at_body (st : Status) (y x : Z) (q q' : MMQ) (e : Entry) :
  update_at (with_status st) y q = Some q' ->
  entry_at (circular_buffer_ q) x = Some e ->
  exists e', entry_at (circular_buffer_ q') x = Some e' /\
             message_body e' = message_body e.
Proof.
  intros Hu He. pose proof (update_at_Some _ _ _ _ Hu) as (e0 & He0 & ->).
  simpl. rewrite (entry_at_insert _ _ x _ _ He0).
  destruct (Z.eq_dec x y) as [->|]; [|eauto].
  rewrite He0 in He. injection He as ->. eauto.
Qed.

Lemma lookup_snoc_tag (tags : list (nat * nat)) (tag tag' : nat * nat)
  (r : nat) :
  (tags ++ [tag]) !! r = Some tag' ->
  tags !! r = Some tag' \/ (r = length tags /\ tag' = tag).
Proof.
  intros H. apply lookup_app_Some in H as [H|[Hge H]]; [auto|].
  destruct (r - length tags)%nat eqn:Hd; [|discriminate].
  injection H as <-. right. split; [lia|reflexivity].
Qed.

(** A reservation by producer [i]. *)
Lemma lanes_reserve
  (DROP : bool) (n : Z) (calls : list (list Call)) (s : System) (K R : Z)
  (tags : list (nat * nat)) (i : nat) (p : Producer) (q' : MMQ) (index : Z) :
  1 <= n <= size_max ->
  coherent s ->
  lanes n calls s K R tags ->
  sys_producers s !! i = Some p ->
  p_pc p = P_Allocate ->
  reserve_head (sys_queue s) = Returned index q' ->
  status_at (sys_queue s) (head_ (sys_queue s)) = Some FREE ->
  lanes n calls
    {| sys_queue := q';
       sys_producers := <[i := at_pc (P_Index index) p]> (sys_producers s);
       sys_consumer := sys_consumer s;
       sys_dispatched := sys_dispatched s |}
    K (R + 1) (tags ++ [(i, length (p_returns p))]).
Proof.
  intros Hn [Hch Hcap Hcex]
    [Ho Hsz Htags Hhd Htl Hfree Hbusy Hheld Hbody Hcalls Hstarted Hmono
     Hlen Hlog] Hp Hpc Hres Hfr.
  apply reserve_head_Returned in Hres as (-> & e & h & He & Hinc & ->).
  rewrite Hsz, Hhd, Increment_ring in Hinc by assumption.
  injection Hinc as <-.
  assert (status e = FREE) as Hs.
  { unfold status_at in Hfr. rewrite He in Hfr. congruence. }
  assert (R < K + n) as Hroom.
  { destruct (Z.eq_dec R (K + n)) as [->|]; [exfalso|lia].
    destruct (Hbusy K ltac:(lia)) as (e1 & He1 & Hs1 & _).
    rewrite Hhd in He.
    replace (K + n) with (K + 1 * n) in He by lia.
    rewrite Z_mod_plus_full in He. congruence. }
  assert (forall k, K <= k < R \/ R < k < K + n ->
            entry_at (<[Z.to_nat (head_ (sys_queue s)) :=
                          with_status BEING_IMPORTED e]>
                        (circular_buffer_ (sys_queue s))) (k mod n) =
            entry_at (circular_buffer_ (sys_queue s)) (k mod n)) as Hother.
  { intros k Hk. rewrite (entry_at_insert _ _ _ _ _ He).
    destruct (Z.eq_dec (k mod n) (head_ (sys_queue s))) as [Heq|];
      [|reflexivity].
    exfalso. rewrite Hhd in Heq. revert Heq.
    destruct Hk; [apply mod_apart|apply mod_apart']; lia. }
  assert (outcomes p = p_returns p) as Hout.
  { apply outcomes_not_counting. intros r. rewrite Hpc. discriminate. }
  assert (outcomes (at_pc (P_Index (head_ (sys_queue s))) p) = outcomes p)
    as Hout'.
  { rewrite outcomes_at_pc, Hout. apply app_nil_r. }
  assert (forall tag m,
            delivers calls (sys_producers s) tag m ->
            delivers calls
              (<[i := at_pc (P_Index (head_ (sys_queue s))) p]>
                 (sys_producers s)) tag m) as Hdel.
  { intros tag m. apply delivers_insert with (p := p); [assumption|].
    exists []. rewrite Hout'. symmetry. apply app_nil_r. }
  assert (started p = length (p_returns p)) as Hst.
  { unfold started, held. rewrite Hout, Hpc. lia. }
  assert (started (at_pc (P_Index (head_ (sys_queue s))) p) =
          S (length (p_returns p))) as Hst'.
  { unfold started. rewrite Hout', Hout. simpl. lia. }
  assert (Z.to_nat R = length tags) as HR by lia.
  constructor; simpl; try assumption; try reflexivity.
  - lia.
  - rewrite length_app. simpl. lia.
  - intros k Hk. unfold status_at. simpl. rewrite Hother by lia.
    apply Hfree. lia.
  - intros k Hk. destruct (Z.eq_dec k R) as [->|Hne].
    + rewrite <- Hhd, (entry_at_insert_eq _ _ _ _ He).
      eexists. split; [reflexivity|]. simpl.
      split; [discriminate|]. intros [|]; discriminate.
    + rewrite Hother by lia.
      destruct (Hbusy k ltac:(lia)) as (e1 & He1 & Hs1 & Ht).
      exists e1. split; [assumption|]. split; [assumption|].
      intros Hst1. destruct (Ht Hst1) as (tag & Htag & Hd).
      exists tag. split; [apply lookup_app_l_Some; assumption|auto].
  - intros j pj x Hj Hx.
    apply lookup_insert_producer in Hj as [(-> & ->)|(Hnej & Hj)].
    + injection Hx as <-. exists R. split; [lia|]. split; [assumption|].
      rewrite HR. rewrite lookup_app_r by lia. rewrite Nat.sub_diag.
      reflexivity.
    + destruct (Hheld j pj x Hj Hx) as (r & Hr & Hxr & Htag).
      exists r. split; [lia|]. split; [assumption|].
      apply lookup_app_l_Some. assumption.
  - intros j pj x Hj Hx.
    apply lookup_insert_producer in Hj as [(-> & ->)|(Hnej & Hj)];
      [discriminate|].
    destruct (Hbody j pj x Hj Hx) as (e1 & c & He1 & Hc).
    exists e1, c. split; [|assumption].
    rewrite (entry_at_insert _ _ _ _ _ He).
    destruct (Z.eq_dec x (head_ (sys_queue s))) as [->|]; [|assumption].
    exfalso.
    assert (held pj = Some (head_ (sys_queue s))) as Hh
      by (unfold held; rewrite Hx; reflexivity).
    rewrite (Hch _ _ _ Hj Hh) in Hfr. discriminate.
  - intros j pj Hj.
    apply lookup_insert_producer in Hj as [(-> & ->)|(Hnej & Hj)];
      [|eauto].
    destruct (Hcalls _ _ Hp) as (cs & done & Hcd). exists cs, done. exact Hcd.
  - intros r j a Hr.
    apply lookup_snoc_tag in Hr as [Hr|[-> [= -> ->]]].
    + destruct (Hstarted r j a Hr) as (pj & Hj & Ha).
      destruct (Nat.eq_dec j i) as [->|Hnej].
      * eexists. split.
        -- apply list_lookup_insert_eq. eapply lookup_lt_Some. exact Hp.
        -- assert (pj = p) as -> by congruence. lia.
      * exists pj. rewrite list_lookup_insert_ne by congruence. auto.
    + eexists. split.
      * apply list_lookup_insert_eq. eapply lookup_lt_Some. exact Hp.
      * lia.
  - intros r r' j a b Hlt Hr Hr'.
    apply lookup_snoc_tag in Hr as [Hr|[-> _]];
      apply lookup_snoc_tag in Hr' as [Hr'|[-> [= -> ->]]].
    + eauto.
    + destruct (Hstarted r i a Hr) as (pj & Hj & Ha).
      assert (pj = p) as -> by congruence. lia.
    + apply lookup_lt_Some in Hr'. lia.
    + lia.
  - intros x d Hx. destruct (Hlog x d Hx) as (tag & Htag & Hd).
    exists tag. split; [apply lookup_app_l_Some; assumption|auto].
Qed.
Lemma step_lanes
  (DROP : bool) (n : Z) (calls : list (list Call)) (s s' : System)
  (t : Thread) :
  1 <= n <= size_max ->
  coherent s ->
  (exists K R tags, lanes n calls s K R tags) ->
  step DROP t s = Next s' ->
  exists K R tags, lanes n calls s' K R tags.
Proof.
  intros Hn Hcoh (K & R & tags & Hl) Hs.
  pose proof Hcoh as [Hch Hcap Hcex].
  pose proof Hl as
    [Ho Hsz Htags Hhd Htl Hfree Hbusy Hheld Hbody Hcalls Hstarted Hmono
     Hlen Hlog].
  apply step_cases in Hs
    as [(i & p & q' & p' & Hp & Hnonempty & Hpm & ->)
       |[(q' & c' & log' & Hcm & ->)| ->]].
  - (* producer [i] *)
    assert (forall pc, (forall r, p_pc p <> P_Count r) ->
              outcomes (at_pc pc p) =
              outcomes p ++ match pc with P_Count r => [Ret r] | _ => [] end)
      as Hout_at.
    { intros pc Hnc. rewrite outcomes_at_pc, outcomes_not_counting by auto.
      reflexivity. }
    assert (forall r, (forall r', p_pc p <> P_Count r') ->
              outcomes (finish_call r p) = outcomes p ++ [r]) as Hout_fin.
    { intros r Hnc. rewrite outcomes_finish_call, outcomes_not_counting by auto.
      reflexivity. }
    assert (forall cs done r,
              calls !! i = Some cs -> cs = done ++ p_calls p ->
              length done = length (p_returns p) ->
              exists done',
                cs = done' ++ p_calls (finish_call r p) /\
                length done' = length (p_returns (finish_call r p)))
      as Hcalls_fin.
    { intros cs done r _ Hd Hlen'. simpl.
      destruct (p_calls p) as [|c rest]; [contradiction|].
      exists (done ++ [c]). rewrite <- app_assoc. simpl.
      rewrite !length_app. simpl. split; [assumption|lia]. }
    assert (forall pc cs done,
              calls !! i = Some cs -> cs = done ++ p_calls p ->
              length done = length (p_returns p) ->
              exists done',
                cs = done' ++ p_calls (at_pc pc p) /\
                length done' = length (p_returns (at_pc pc p)))
      as Hcalls_at.
    { intros pc cs done _ Hd Hlen'. exists done. auto. }
    assert (forall p1, (exists more, outcomes p1 = outcomes p ++ more) ->
              forall k,
                K <= k < R ->
                exists e,
                  entry_at (circular_buffer_ (sys_queue s)) (k mod n)
                    = Some e /\
                  status e <> FREE /\
                  (status e = READY \/ status e = BEING_EXPORTED ->
                   exists tag,
                     tags !! Z.to_nat k = Some tag /\
                     delivers calls (<[i := p1]> (sys_producers s)) tag
                       (message_body e))) as Hbusy_same.
    { intros p1 Hmore k Hk. destruct (Hbusy k Hk) as (e & He & Hse & Ht).
      exists e. split; [assumption|]. split; [assumption|].
      intros Hst. destruct (Ht Hst) as (tag & Htag & Hd).
      exists tag. split; [assumption|].
      eapply delivers_insert; eassumption. }
    destruct Hpm as [index q' Hpc Hcallsne Hal|x q' Hpc Hu
                    |x c rest m q' Hpc Hcs Hpl Hu
                    |x c rest Hpc Hcs Hpl|x q' Hpc Hu|r Hpc].
    + (* PushMessageAllocate *)
      assert (forall r, p_pc p <> P_Count r) as Hnc
        by (intros r; rewrite Hpc; discriminate).
      pose proof (PushMessageAllocate_Returned _ _ _ _ Hal)
        as [(-> & -> & _)|(Hres & _ & e & He & Hse)].
      * exists K, R, tags.
        change (negb (size_max =? size_max)) with false. cbv iota.
        apply lanes_producer with (p := p); try assumption; try reflexivity.
        -- exists [Ret false]. apply Hout_at. assumption.
        -- unfold started. rewrite Hout_at by assumption.
           unfold held. rewrite Hpc, length_app. simpl. lia.
        -- discriminate.
        -- apply Hcalls_at.
        -- apply Hbusy_same. exists [Ret false]. apply Hout_at. assumption.
        -- intros j pj x Hj Hx.
           apply lookup_insert_producer in Hj as [(-> & ->)|(_ & Hj)];
             [simpl in Hx; discriminate|eauto].
      * pose proof (reserve_head_Returned _ _ _ Hres) as (Hidx & _).
        assert (index <> size_max) as Hne.
        { rewrite Hidx, Hhd.
          pose proof (Z.mod_pos_bound R n ltac:(lia)). lia. }
        destruct (Z.eqb_spec index size_max); [contradiction|]. simpl.
        exists K, (R + 1), (tags ++ [(i, length (p_returns p))]).
        eapply lanes_reserve; try eassumption.
        unfold status_at. rewrite He, Hse. reflexivity.
    + (* absolute_index *)
      assert (forall r, p_pc p <> P_Count r) as Hnc
        by (intros r; rewrite Hpc; discriminate).
      assert (held p = Some x) as Hx by (unfold held; rewrite Hpc; auto).
      pose proof (Hch _ _ _ Hp Hx) as Hbi.
      pose proof (update_at_frame _ _ _ _ Hu) as (Hsz' & Hhd' & _).
      exists K, R, tags.
      apply lanes_producer with (p := p); try assumption; try congruence.
      * exists []. apply Hout_at. assumption.
      * unfold started. rewrite Hout_at, app_nil_r by assumption.
        unfold held. simpl. rewrite Hpc. lia.
      * intros y [= <-]. auto.
      * apply Hcalls_at.
      * eapply free_update; [exact Hu| |exact Hfree]. auto.
      * eapply busy_update; [exact Hu| | |exact Hbusy].
        -- intros tag m0. eapply delivers_insert; [exact Hp|].
           exists []. apply Hout_at. assumption.
        -- intros e k He _ _. unfold status_at in Hbi. rewrite He in Hbi.
           injection Hbi as Hbi. simpl. rewrite Hbi.
           split; [discriminate|]. intros [|]; discriminate.
      * intros j pj y Hj Hy.
        apply lookup_insert_producer in Hj as [(-> & ->)|(Hne & Hj')];
          [simpl in Hy; discriminate|].
        destruct (Hbody j pj y Hj' Hy) as (e1 & c1 & He1 & Hc1).
        exists e1, c1. split; [|assumption].
        rewrite (update_at_other _ _ y _ _ Hu); [assumption|].
        intros ->. apply Hne.
        eapply (Hcap j i pj p y); eauto. unfold held. rewrite Hy. auto.
    + (* message_body *)
      assert (forall r, p_pc p <> P_Count r) as Hnc
        by (intros r; rewrite Hpc; discriminate).
      assert (held p = Some x) as Hx by (unfold held; rewrite Hpc; auto).
      pose proof (Hch _ _ _ Hp Hx) as Hbi.
      pose proof (update_at_frame _ _ _ _ Hu) as (Hsz' & Hhd' & _).
      pose proof (update_at_Some _ _ _ _ Hu) as (e0 & He0 & _).
      exists K, R, tags.
      apply lanes_producer with (p := p); try assumption; try congruence.
      * exists []. apply Hout_at. assumption.
      * unfold started. rewrite Hout_at, app_nil_r by assumption.
        unfold held. simpl. rewrite Hpc. lia.
      * intros y [= <-]. auto.
      * apply Hcalls_at.
      * eapply free_update; [exact Hu| |exact Hfree]. auto.
      * eapply busy_update; [exact Hu| | |exact Hbusy].
        -- intros tag m0. eapply delivers_insert; [exact Hp|].
           exists []. apply Hout_at. assumption.
        -- intros e k He _ _. unfold status_at in Hbi. rewrite He in Hbi.
           injection Hbi as Hbi. simpl. rewrite Hbi.
           split; [discriminate|]. intros [|]; discriminate.
      * intros j pj y Hj Hy.
        apply lookup_insert_producer in Hj as [(-> & ->)|(Hne & Hj)].
        -- simpl in Hy. injection Hy as <-.
           exists (with_message_body m e0), c.
           split; [eapply update_at_entry; eassumption|].
           simpl. rewrite Hcs. auto.
        -- destruct (Hbody j pj y Hj Hy) as (e1 & c1 & He1 & Hc1).
           exists e1, c1. split; [|assumption].
           rewrite (update_at_other _ _ y _ _ Hu); [assumption|].
           intros ->. apply Hne.
           eapply (Hcap j i pj p y); eauto. unfold held. rewrite Hy. auto.
    + (* the payload throws *)
      assert (forall r, p_pc p <> P_Count r) as Hnc
        by (intros r; rewrite Hpc; discriminate).
      exists K, R, tags.
      apply lanes_producer with (p := p); try assumption; try reflexivity.
      * exists [Raised]. apply Hout_fin. assumption.
      * unfold started. rewrite Hout_fin by assumption.
        unfold held. simpl. rewrite Hpc, length_app. simpl. lia.
      * discriminate.
      * intros cs done. apply Hcalls_fin.
      * apply Hbusy_same. exists [Raised]. apply Hout_fin. assumption.
      * intros j pj y Hj Hy.
        apply lookup_insert_producer in Hj as [(-> & ->)|(_ & Hj)];
             [simpl in Hy; discriminate|eauto].
    + (* PushMessageCommit *)
      assert (forall r, p_pc p <> P_Count r) as Hnc
        by (intros r; rewrite Hpc; discriminate).
      assert (held p = Some x) as Hx by (unfold held; rewrite Hpc; auto).
      pose proof (Hch _ _ _ Hp Hx) as Hbi.
      pose proof (update_at_frame _ _ _ _ Hu) as (Hsz' & Hhd' & _).
      destruct (Hheld _ _ _ Hp Hx) as (r & Hr & Hxr & Htag).
      destruct (Hbody _ _ _ Hp Hpc) as (e0 & c & He0 & Hc & Hpay).
      destruct (Hcalls _ _ Hp) as (cs & done & Hcs & Hdone & Hdl).
      exists K, R, tags.
      apply lanes_producer with (p := p); try assumption; try congruence.
      * exists [Ret true]. apply Hout_at. assumption.
      * unfold started. rewrite Hout_at by assumption.
        unfold held. simpl. rewrite Hpc, length_app. simpl. lia.
      * discriminate.
      * apply Hcalls_at.
      * eapply free_update; [exact Hu| |exact Hfree].
        intros e He Hfe. unfold status_at in Hbi. rewrite He in Hbi.
        congruence.
      * eapply busy_update; [exact Hu| | |exact Hbusy].
        -- intros tag m0. eapply delivers_insert; [exact Hp|].
           exists [Ret true]. apply Hout_at. assumption.
        -- intros e k He Hk Hkx. simpl. split; [discriminate|]. intros _.
           assert (k = r) as ->.
           { destruct (Z.lt_trichotomy k r) as [Hlt|[Heq|Hgt]];
               [exfalso|assumption|exfalso].
             - revert Hkx. rewrite Hxr. apply mod_apart; lia.
             - revert Hkx. rewrite Hxr. apply mod_apart'; lia. }
           exists (i, length (p_returns p)). split; [assumption|].
           rewrite He0 in He. injection He as <-.
           split; simpl.
           ++ exists cs, c. split; [assumption|]. split; [|assumption].
              rewrite Hdone. destruct (p_calls p) as [|c' rest];
                [discriminate|].
              injection Hc as ->. rewrite <- Hdl.
              apply list_lookup_middle. reflexivity.
           ++ eexists. split.
              ** apply list_lookup_insert_eq. eapply lookup_lt_Some. exact Hp.
              ** rewrite Hout_at by assumption.
                 rewrite outcomes_not_counting by assumption.
                 apply list_lookup_middle. reflexivity.
      * intros j pj y Hj Hy.
        apply lookup_insert_producer in Hj as [(-> & ->)|(Hne & Hj')];
          [simpl in Hy; discriminate|].
        destruct (Hbody j pj y Hj' Hy) as (e1 & c1 & He1 & Hc1).
        exists e1, c1. split; [|assumption].
        rewrite (update_at_other _ _ y _ _ Hu); [assumption|].
        intros ->. apply Hne.
        eapply (Hcap j i pj p y); eauto. unfold held. rewrite Hy. auto.
    + (* ++total_messages_ *)
      assert (outcomes (finish_call (Ret r) p) = outcomes p) as Hsame.
      { rewrite outcomes_finish_call. unfold outcomes. rewrite Hpc.
        reflexivity. }
      exists K, R, tags.
      apply lanes_producer with (p := p); try assumption; try reflexivity.
      * exists []. rewrite Hsame. symmetry. apply app_nil_r.
      * unfold started. rewrite Hsame. unfold held. simpl. rewrite Hpc. lia.
      * discriminate.
      * intros cs done. apply Hcalls_fin.
      * apply Hbusy_same. exists []. rewrite Hsame. symmetry. apply app_nil_r.
      * intros j pj y Hj Hy.
        apply lookup_insert_producer in Hj as [(-> & ->)|(_ & Hj)];
             [simpl in Hy; discriminate|eauto].
  - (* the consumer *)
    destruct Hcm as [e Hpc He Hd|e q' Hpc He Hd Hse Hu|e Hpc He|q' t' Hpc Hu Ht].
    + exists K, R, tags. unfold recycling in *. rewrite Hpc in *.
      constructor; simpl; assumption.
    + (* a READY entry is taken *)
      pose proof (update_at_frame _ _ _ _ Hu) as (Hsz' & Hhd' & _).
      assert (K < R) as HKR.
      { destruct (Z.eq_dec K R) as [<-|]; [exfalso|lia].
        specialize (Hfree K ltac:(lia)). unfold status_at in Hfree.
        rewrite <- Htl, He, Hse in Hfree. discriminate. }
      exists K, R, tags. unfold recycling in *. rewrite Hpc in *.
      constructor; simpl; try assumption; try congruence.
      * eapply free_update; [exact Hu| |exact Hfree].
        intros e0 He0 Hf. congruence.
      * eapply busy_update; [exact Hu| | |exact Hbusy]; [auto|].
        intros e0 k He0 Hk Hkx. simpl. split; [discriminate|]. intros _.
        assert (k = K) as ->.
        { destruct (Z.eq_dec k K) as [|Hne]; [assumption|exfalso].
          revert Hkx. rewrite Htl. apply mod_apart'; lia. }
        destruct (Hbusy K ltac:(lia)) as (e1 & He1 & _ & Htag).
        rewrite <- Htl in He1.
        assert (e1 = e) as -> by congruence.
        assert (e0 = e) as -> by congruence.
        apply Htag. auto.
      * intros j pj y Hj Hy.
        destruct (Hbody j pj y Hj Hy) as (e1 & c1 & He1 & Hc1 & Hpay).
        destruct (update_at_body _ _ _ _ _ _ Hu He1) as (e2 & He2 & Hm).
        exists e2, c1. rewrite Hm. auto.
    + (* the sink is called *)
      assert (exporting (sys_consumer s) = true) as Hex
        by (unfold exporting; rewrite Hpc; reflexivity).
      specialize (Hcex Hex).
      assert (K < R) as HKR.
      { destruct (Z.eq_dec K R) as [<-|]; [exfalso|lia].
        specialize (Hfree K ltac:(lia)). rewrite <- Htl in Hfree.
        congruence. }
      unfold recycling in Hlen. rewrite Hpc in Hlen.
      exists K, R, tags.
      constructor; simpl; try assumption.
      * rewrite length_app, Hlen. unfold recycling. simpl. lia.
      * intros x d Hx.
        apply lookup_app_Some in Hx as [Hx|[Hge Hx]]; [eauto|].
        destruct (x - length (sys_dispatched s))%nat eqn:Hdiff;
          [|discriminate].
        injection Hx as <-. simpl.
        destruct (Hbusy K ltac:(lia)) as (e1 & He1 & _ & Htag).
        rewrite <- Htl in He1.
        assert (e1 = e) as -> by congruence.
        assert (x = Z.to_nat K) as -> by lia.
        apply Htag. right. unfold status_at in Hcex. rewrite He in Hcex.
        congruence.
    + (* the entry is recycled *)
      assert (exporting (sys_consumer s) = true) as Hex
        by (unfold exporting; rewrite Hpc; reflexivity).
      specialize (Hcex Hex).
      pose proof (update_at_frame _ _ _ _ Hu) as (Hsz' & Hhd' & _).
      assert (K < R) as HKR.
      { destruct (Z.eq_dec K R) as [<-|]; [exfalso|lia].
        specialize (Hfree K ltac:(lia)). rewrite <- Htl in Hfree.
        congruence. }
      rewrite Hsz, Htl, Increment_ring in Ht by assumption.
      injection Ht as <-.
      destruct (status_at_update _ _ _ _ Hu) as (e0 & He0 & Hnew & _).
      assert (forall k, K < k < K + n ->
                entry_at (circular_buffer_ q') (k mod n) =
                entry_at (circular_buffer_ (sys_queue s)) (k mod n))
        as Hother.
      { intros k Hk. apply (update_at_other _ _ _ _ _ Hu).
        rewrite Htl. apply mod_apart; lia. }
      unfold recycling in Hlen. rewrite Hpc in Hlen.
      exists (K + 1), R, tags.
      constructor; simpl; try assumption; try congruence; try reflexivity.
      * lia.
      * intros k Hk. destruct (Z.eq_dec k (K + n)) as [->|].
        -- replace (K + n) with (K + 1 * n) by lia. rewrite Z_mod_plus_full.
           rewrite <- Htl. assumption.
        -- unfold status_at. rewrite Hother by lia. apply Hfree. lia.
      * intros k Hk. rewrite Hother by lia. apply Hbusy. lia.
      * intros j pj y Hj Hy.
        destruct (Hheld j pj y Hj Hy) as (r & Hr & Hyr & Htag).
        exists r. split; [|auto].
        destruct (Z.eq_dec r K) as [->|]; [exfalso|lia].
        rewrite <- Htl in Hyr. subst y.
        rewrite (Hch _ _ _ Hj Hy) in Hcex. discriminate.
      * intros j pj y Hj Hy.
        destruct (Hbody j pj y Hj Hy) as (e1 & c1 & He1 & Hc1 & Hpay).
        destruct (update_at_body _ _ _ _ _ _ Hu He1) as (e2 & He2 & Hm).
        exists e2, c1. rewrite Hm. auto.
      * rewrite Hlen. unfold recycling. simpl. lia.
  - (* the destructor *)
    exists K, R, tags. constructor; simpl; assumption.
Qed.
Lemma reachable_lanes
  (DROP : bool) (n : Z) (calls : list (list Call)) (s : System) :
  1 <= n <= size_max ->
  reachable DROP (boot n calls) s ->
  exists K R tags, lanes n calls s K R tags.
Proof.
  intros Hn Hr.
  cut (coherent s /\ exists K R tags, lanes n calls s K R tags); [tauto|].
  apply (reachable_invariant_step DROP
           (fun s => coherent s /\ exists K R tags, lanes n calls s K R tags)
           (boot n calls) s); [| |exact Hr].
  - split; [apply boot_coherent|].
    exists 0, 0, []. apply boot_lanes. lia.
  - intros s1 t s2 [Hc Hl] Hs. split.
    + eapply moves_coherent; [exact Hc|]. eapply step_Next. exact Hs.
    + eapply step_lanes; eassumption.
Qed.

(** Whatever the number of producers and the schedule: the messages handed
    to the sink can be tagged, in order, each with a producer and the
    number of one of that producer's calls, so that every message is the
    payload of the call of its tag, that call was accepted, and the tags of
    one producer come in the order of its calls.  So no submission is
    delivered twice, nothing is delivered that was not submitted and
    accepted, and the messages of each producer arrive in the order in
    which it submitted them. *)
Theorem delivery_in_call_order
  (DROP : bool) (n : Z) (calls : list (list Call)) (s : System) :
  1 <= n <= size_max ->
  reachable DROP (boot n calls) s ->
  exists tags : list (nat * nat),
    length tags = length (sys_dispatched s) /\
    (forall x d,
       sys_dispatched s !! x = Some d ->
       exists i a cs c p,
         tags !! x = Some (i, a) /\
         calls !! i = Some cs /\ cs !! a = Some c /\
         payload_of c = Some (d_message d) /\
         sys_producers s !! i = Some p /\
         outcomes p !! a = Some (Ret true)) /\
    (forall x y i a b,
       (x < y)%nat ->
       tags !! x = Some (i, a) -> tags !! y = Some (i, b) ->
       (a < b)%nat).
Proof.
  intros Hn Hr.
  destruct (reachable_lanes _ _ _ _ Hn Hr) as (K & R & tags & Hl).
  pose proof (ln_log _ _ _ _ _ _ Hl) as Hlog.
  pose proof (ln_mono _ _ _ _ _ _ Hl) as Hmono.
  assert (length (sys_dispatched s) <= length tags)%nat as Hle.
  { destruct (Nat.le_gt_cases (length (sys_dispatched s)) (length tags))
      as [|Hgt]; [assumption|exfalso].
    destruct (lookup_lt_is_Some_2 (sys_dispatched s) (length tags) Hgt)
      as [d Hd].
    destruct (Hlog _ _ Hd) as (tag & Htag & _).
    apply lookup_lt_Some in Htag. lia. }
  exists (take (length (sys_dispatched s)) tags).
  split; [rewrite length_take; lia|]. split.
  - intros x d Hx. destruct (Hlog x d Hx) as ([i a] & Htag & Hcall & Hacc).
    destruct Hcall as (cs & c & Hcs & Hc & Hpay).
    destruct Hacc as (p & Hp & Hout). simpl in *.
    exists i, a, cs, c, p. repeat split; try assumption.
    rewrite lookup_take_lt; [assumption|].
    eapply lookup_lt_Some. exact Hx.
  - intros x y i a b Hlt Hx Hy.
    apply lookup_take_Some in Hx as [Hx _].
    apply lookup_take_Some in Hy as [Hy _].
    eapply Hmono; eassumption.
Qed.

(** *** One producer: the indices, for the sinks of the tests *)

(** The indices the sink was given are the first numbers of the accepted
    calls. *)
Lemma dispatched_are_numbers
  (DROP : bool) (n : Z) (cs : list Call) (s : System) :
  1 <= n <= size_max ->
  reachable DROP (boot n [cs]) s ->
  exists p D,
    sys_producers s = [p] /\
    map d_index (sys_dispatched s) = map wrap (take D (numbers p)).
Proof.
  intros Hn Hr.
  destruct (reachable_one_producer _ _ _ _ Hn Hr)
    as (p & K & R & F & Hps & Hring).
  exists p, (Z.to_nat (K + recycling (sys_consumer s))).
  split; [assumption|]. apply (rg_log _ _ _ _ _ _ _ _ Hring).
Qed.

(** Under the block policy the [k]-th accepted call has the number [k]. *)
Lemma block_numbers_are_positions
  (n : Z) (cs : list Call) (s : System) (p : Producer) (k : nat) (a : Z) :
  1 <= n <= size_max ->
  reachable false (boot n [cs]) s ->
  sys_producers s = [p] ->
  numbers p !! k = Some a ->
  a = Z.of_nat k.
Proof.
  intros Hn Hr Hps Hk.
  destruct (reachable_one_calm_producer _ _ _ Hn Hr) as (p' & Hps' & Hcalm).
  rewrite Hps in Hps'. injection Hps' as <-.
  apply accepted_numbers_lookup in Hk as (j & Hj & Hacc & ->).
  rewrite count_returned_split, Hacc, (calm_before _ _ Hcalm j Hj). lia.
Qed.

(** The counts the sink was given, in any state reached with fewer than
    2^64 returned calls: they are not negative and never step down. *)
Lemma dispatched_totals_in_order
  (DROP : bool) (n : Z) (calls : list (list Call)) (s : System)
  (x y : nat) (d d' : Dispatch) :
  reachable DROP (boot n calls) s ->
  Z.of_nat (counted (sys_producers s)) < 2 ^ 64 ->
  (x <= y)%nat ->
  sys_dispatched s !! x = Some d ->
  sys_dispatched s !! y = Some d' ->
  0 <= d_total d <= d_total d'.
Proof.
  intros Hr Hfew Hxy Hx Hy.
  destruct (reachable_tally _ _ _ _ Hr)
    as (ts & [Htot Hent Hlog Hbound Hsorted Hlen]).
  destruct (Hlog x d Hx) as (a & t & Ht & Ha & _ & Hdt).
  destruct (Hlog y d' Hy) as (a' & t' & Ht' & Ha' & _ & Hdt').
  pose proof (Hbound _ _ Ht). pose proof (Hbound _ _ Ht').
  pose proof (Hsorted _ _ _ _ Hxy Ht Ht').
  unfold wrap in *. rewrite Z.mod_small in Hdt, Hdt' by lia. lia.
Qed.


(** ** The consumer thread leaves its loop

    [~MMQ] sets [destructing_] and joins the consumer thread.  From then
    on each turn of the consumer brings it one block nearer to [return]:
    the dispatch in progress, if any, is finished, the entry is recycled,
    and the next test of the loop leaves the function. *)

Fixpoint consumer_turns (schedule : list Thread) : nat :=
  match schedule with
  | [] => 0
  | Consuming :: rest => S (consumer_turns rest)
  | _ :: rest => consumer_turns rest
  end.

Definition blocks_to_exit (c : Consumer) : nat :=
  match c_pc c with
  | C_Exited => 0
  | C_Await => 1
  | C_Recycle => 2
  | C_Dispatch => 3
  end.

Lemma run_after_shutdown (DROP : bool) (n : Z) (schedule : list Thread) :
  1 <= n ->
  forall s,
    in_bounds n s -> destructing_ (sys_queue s) = true ->
    exists s',
      run DROP schedule s = Some s' /\
      blocks_to_exit (sys_consumer s') =
        (blocks_to_exit (sys_consumer s) - consumer_turns schedule)%nat.
Proof.
  intros Hn. induction schedule as [|t rest IH]; intros s Hib Hd.
  - exists s. split; [reflexivity|]. simpl. lia.
  - simpl run. destruct (step DROP t s) as [s1| |] eqn:Hs.
    + pose proof (step_Next _ _ _ _ Hs) as Hm.
      destruct (IH s1) as (s' & Hrun & Hleft).
      { eapply moves_in_bounds; eassumption. }
      { eapply moves_destructing; eassumption. }
      exists s'. split; [assumption|]. rewrite Hleft. clear Hleft Hrun IH.
      unfold step in Hs. destruct t as [i| |]; simpl consumer_turns.
      * destruct (sys_producers s !! i) as [p|]; [|discriminate].
        destruct (producer_step DROP (sys_queue s) p) as [[q' p']| |];
          try discriminate.
        injection Hs as <-. reflexivity.
      * destruct (consumer_step _ _ _) as [[[q' c'] log']| |] eqn:Hc;
          try discriminate.
        injection Hs as <-. simpl. apply consumer_step_Next in Hc.
        unfold blocks_to_exit.
        destruct Hc as [e Hpc He Hd'|e q' Hpc He Hd' Hst Hu|e Hpc He
                       |q' t Hpc Hu Ht]; simpl; rewrite Hpc; try lia.
        congruence.
      * rewrite Hd in Hs. discriminate.
    + destruct (IH s Hib Hd) as (s' & Hrun & Hleft).
      exists s'. split; [assumption|]. rewrite Hleft. clear Hleft Hrun IH.
      destruct t as [i| |]; simpl consumer_turns; try reflexivity.
      enough (blocks_to_exit (sys_consumer s) = 0%nat) as -> by reflexivity.
      unfold step in Hs.
      destruct (consumer_step _ _ _) as [[[q' c'] log']| |] eqn:Hc;
        try discriminate.
      unfold consumer_step, blocks_to_exit in *.
      destruct (c_pc (sys_consumer s)); try reflexivity; exfalso.
      * unfold ConsumerThread_await in Hc. rewrite Hd in Hc.
        destruct (entry_at _ _) as [e|]; [|discriminate].
        destruct (negb _); discriminate.
      * destruct (ConsumerThread_dispatch _ _); discriminate.
      * destruct (ConsumerThread_recycle _ _) as [[q' t']|]; discriminate.
    + exfalso. eapply in_bounds_no_crash; eassumption.
Qed.

(** Once [destructing_] is set, the consumer thread has left
    [ConsumerThread] after three of its turns, whatever the producers do
    in between and whatever the buffer holds: the [join] of the destructor
    returns. *)
Theorem consumer_exits_after_shutdown
  (DROP : bool) (n : Z) (calls : list (list Call)) (s : System)
  (schedule : list Thread) :
  1 <= n ->
  reachable DROP (boot n calls) s ->
  destructing_ (sys_queue s) = true ->
  (3 <= consumer_turns schedule)%nat ->
  exists s',
    run DROP schedule s = Some s' /\
    c_pc (sys_consumer s') = C_Exited.
Proof.
  intros Hn Hr Hd Hturns.
  destruct (run_after_shutdown DROP n schedule Hn s) as (s' & Hrun & Hleft).
  - eapply reachable_in_bounds; eassumption.
  - assumption.
  - exists s'. split; [assumption|].
    assert (blocks_to_exit (sys_consumer s') = 0%nat) as H0.
    { rewrite Hleft. unfold blocks_to_exit.
      destruct (c_pc (sys_consumer s)); lia. }
    unfold blocks_to_exit in H0.
    destruct (c_pc (sys_consumer s')); try discriminate. reflexivity.
Qed.


(** ** No entry is left behind

    As long as no call of a producer has ended by an exception, each
    BEING_IMPORTED entry is in the hands of a producer that is between
    [PushMessageAllocate] and [PushMessageCommit]. *)

Definition unraised (s : System) : Prop :=
  forall i p, sys_producers s !! i = Some p -> Raised ∉ p_returns p.

Definition tended (s : System) : Prop :=
  unraised s ->
  forall x,
    status_at (sys_queue s) x = Some BEING_IMPORTED ->
    exists i p, sys_producers s !! i = Some p /\ held p = Some x.

Lemma boot_tended (n : Z) (calls : list (list Call)) : tended (boot n calls).
Proof.
  intros _ x Hx. unfold status_at, entry_at in Hx. simpl in Hx.
  destruct (x <? 0); [discriminate|].
  destruct (replicate _ _ !! _) as [e|] eqn:He; [|discriminate].
  apply lookup_replicate in He as [-> _]. discriminate.
Qed.

Lemma moves_unraised (DROP : bool) (s s' : System) :
  moves DROP s s' -> unraised s' -> unraised s.
Proof.
  intros Hm Hclean. destruct Hm as [i p q' p' Hp Hpm|q' c' log' Hcm|Hd];
    [|exact Hclean..].
  intros j pj Hj. destruct (decide (j = i)) as [->|Hne].
  - rewrite Hp in Hj. injection Hj as <-.
    assert (Raised ∉ p_returns p') as Hp'.
    { apply (Hclean i). simpl. apply list_lookup_insert_eq.
      eapply lookup_lt_Some. exact Hp. }
    destruct Hpm; simpl in Hp'; try exact Hp';
      intros Hin; apply Hp'; apply elem_of_app; left; exact Hin.
  - apply (Hclean j). simpl. rewrite list_lookup_insert_ne by congruence.
    exact Hj.
Qed.

Lemma moves_tended (DROP : bool) (n : Z) (s s' : System) :
  1 <= n <= size_max ->
  in_bounds n s -> tended s -> moves DROP s s' -> tended s'.
Proof.
  intros Hn Hib HJ Hm Hclean x Hx.
  pose proof (moves_unraised _ _ _ Hm Hclean) as Hclean0.
  specialize (HJ Hclean0).
  destruct Hm as [i p q' p' Hp Hpm|q' c' log' Hcm|Hd]; simpl in *.
  - assert (i < length (sys_producers s))%nat as Hi
      by (eapply lookup_lt_Some; exact Hp).
    assert (forall j pj,
              sys_producers s !! j = Some pj -> held pj = Some x ->
              (j = i -> held p' = Some x) ->
              exists k pk,
                <[i := p']> (sys_producers s) !! k = Some pk /\
                held pk = Some x) as Hkeep.
    { intros j pj Hj Hh Hsame. destruct (decide (j = i)) as [->|Hne].
      - exists i, p'. split; [apply list_lookup_insert_eq; exact Hi|auto].
      - exists j, pj. rewrite list_lookup_insert_ne by congruence. auto. }
    assert (forall j pj,
              sys_producers s !! j = Some pj -> held pj = Some x ->
              j = i -> held p = Some x) as Hmine.
    { intros j pj Hj Hh ->. rewrite Hp in Hj. injection Hj as <-. exact Hh. }
    destruct Hpm as [index q' Hpc Hcalls Hal|x0 q' Hpc Hu
                    |x0 c rest m q' Hpc Hcs Hpl Hu
                    |x0 c rest Hpc Hcs Hpl|x0 q' Hpc Hu|r Hpc].
    + apply PushMessageAllocate_status in Hal
        as [(-> & ->)|(-> & _ & Hnew & Hold)].
      * destruct (HJ x Hx) as (j & pj & Hj & Hh).
        apply (Hkeep j pj Hj Hh). intros Hji.
        pose proof (Hmine j pj Hj Hh Hji) as Hhp.
        unfold held in Hhp. rewrite Hpc in Hhp. discriminate.
      * assert ((head_ (sys_queue s) =? size_max) = false) as Hin.
        { apply Z.eqb_neq. pose proof (ib_head _ _ Hib). lia. }
        rewrite Hin in Hkeep |- *. simpl in Hkeep |- *.
        destruct (Z.eq_dec x (head_ (sys_queue s))) as [->|Hne].
        -- exists i, (at_pc (P_Index (head_ (sys_queue s))) p).
           split; [apply list_lookup_insert_eq; exact Hi|reflexivity].
        -- rewrite Hold in Hx by exact Hne.
           destruct (HJ x Hx) as (j & pj & Hj & Hh).
           apply (Hkeep j pj Hj Hh). intros Hji.
           pose proof (Hmine j pj Hj Hh Hji) as Hhp.
           unfold held in Hhp. rewrite Hpc in Hhp. discriminate.
    + pose proof (fun H => status_at_update_keep _ _ _ _ H Hu x) as Hk.
      rewrite Hk in Hx by (intros; reflexivity).
      destruct (HJ x Hx) as (j & pj & Hj & Hh).
      apply (Hkeep j pj Hj Hh). intros Hji.
      pose proof (Hmine j pj Hj Hh Hji) as Hhp.
      unfold held in Hhp |- *. rewrite Hpc in Hhp. exact Hhp.
    + pose proof (fun H => status_at_update_keep _ _ _ _ H Hu x) as Hk.
      rewrite Hk in Hx by (intros; reflexivity).
      destruct (HJ x Hx) as (j & pj & Hj & Hh).
      apply (Hkeep j pj Hj Hh). intros Hji.
      pose proof (Hmine j pj Hj Hh Hji) as Hhp.
      unfold held in Hhp |- *. rewrite Hpc in Hhp. exact Hhp.
    + exfalso. apply (Hclean i (finish_call Raised p)).
      * apply list_lookup_insert_eq. exact Hi.
      * simpl. apply elem_of_app. right. apply list_elem_of_singleton.
        reflexivity.
    + destruct (status_at_update _ _ _ _ Hu) as (e & He & Hnew & Hold).
      destruct (Z.eq_dec x x0) as [->|Hne].
      * rewrite Hnew in Hx. discriminate.
      * rewrite Hold in Hx by exact Hne.
        destruct (HJ x Hx) as (j & pj & Hj & Hh).
        apply (Hkeep j pj Hj Hh). intros Hji.
        pose proof (Hmine j pj Hj Hh Hji) as Hhp.
        unfold held in Hhp. rewrite Hpc in Hhp. congruence.
    + destruct (HJ x Hx) as (j & pj & Hj & Hh).
      apply (Hkeep j pj Hj Hh). intros Hji.
      pose proof (Hmine j pj Hj Hh Hji) as Hhp.
      unfold held in Hhp. rewrite Hpc in Hhp. discriminate.
  - destruct Hcm as [e Hpc He Hd|e q' Hpc He Hd Hs Hu|e Hpc He
                    |q' t Hpc Hu Ht]; auto.
    + destruct (status_at_update _ _ _ _ Hu) as (e0 & He0 & Hnew & Hold).
      destruct (Z.eq_dec x (c_tail (sys_consumer s))) as [->|Hne].
      * rewrite Hnew in Hx. discriminate.
      * rewrite Hold in Hx by exact Hne. auto.
    + destruct (status_at_update _ _ _ _ Hu) as (e0 & He0 & Hnew & Hold).
      destruct (Z.eq_dec x (c_tail (sys_consumer s))) as [->|Hne].
      * rewrite Hnew in Hx. discriminate.
      * rewrite Hold in Hx by exact Hne. auto.
  - auto.
Qed.

Lemma reachable_tended
  (DROP : bool) (n : Z) (calls : list (list Call)) (s : System) :
  1 <= n <= size_max -> reachable DROP (boot n calls) s -> tended s.
Proof.
  intros Hn Hr.
  enough (in_bounds n s /\ tended s) as [_ H] by exact H.
  revert Hr.
  apply (reachable_invariant DROP (fun s => in_bounds n s /\ tended s)).
  - split; [apply boot_in_bounds; lia|apply boot_tended].
  - intros s1 s2 [Hib HJ] Hm. split.
    + eapply moves_in_bounds; [|eassumption..]. lia.
    + eapply moves_tended; eassumption.
Qed.

(** The consumer thread has left its loop only if [destructing_] is set. *)
Lemma reachable_exited
  (DROP : bool) (n : Z) (calls : list (list Call)) (s : System) :
  reachable DROP (boot n calls) s ->
  c_pc (sys_consumer s) = C_Exited -> destructing_ (sys_queue s) = true.
Proof.
  apply (reachable_invariant DROP
           (fun s => c_pc (sys_consumer s) = C_Exited ->
                     destructing_ (sys_queue s) = true)).
  - discriminate.
  - intros s1 s2 H1 Hm Hpc. pose proof (moves_destructing _ _ _ Hm) as Hkeep.
    destruct Hm as [i p q' p' Hp Hpm|q' c' log' Hcm|Hd]; simpl in *; auto.
    destruct Hcm; simpl in *; try discriminate. assumption.
Qed.

(** With one producer and no exception so far, the reservations that are
    not yet published are the one the producer is working on. *)
Lemma ring_settled (n : Z) (s : System) (p : Producer) (K R F : Z) :
  0 < n ->
  tended s -> sys_producers s = [p] -> Raised ∉ p_returns p ->
  ring n (sys_queue s) (sys_consumer s) (sys_dispatched s) p K R F ->
  F = R - holding p /\ Z.of_nat (length (numbers p)) = F.
Proof.
  intros Hn HJ Hps Hclean Hring.
  pose proof (rg_order _ _ _ _ _ _ _ _ Hring) as (HK & HKF & HFR & HRK).
  enough (F = R - holding p) as HF.
  { split; [exact HF|]. apply (rg_numbers _ _ _ _ _ _ _ _ Hring). exact HF. }
  destruct (Z.eq_dec F (R - holding p)) as [|Hne]; [assumption|exfalso].
  assert (0 <= holding p <= 1) as Hh by (unfold holding; destruct (held p); lia).
  assert (F < R) as HltR by lia.
  pose proof (rg_stuck _ _ _ _ _ _ _ _ Hring HltR) as Hstuck.
  destruct (HJ) with (x := F mod n) as (i & p' & Hp' & Hheld); auto.
  { intros i p' Hp'. rewrite Hps in Hp'.
    destruct i as [|i]; [|destruct i; discriminate].
    injection Hp' as <-. exact Hclean. }
  rewrite Hps in Hp'. destruct i as [|i]; [|destruct i; discriminate].
  injection Hp' as <-.
  pose proof (rg_held _ _ _ _ _ _ _ _ Hring _ Hheld) as Hx.
  unfold holding in *. rewrite Hheld in *.
  revert Hx. apply mod_apart; lia.
Qed.

(** ** One producer: the consumer catches up *)

(** What a turn of the consumer changes, outside shutdown. *)
Lemma consumer_turn (DROP : bool) (s s1 : System) :
  step DROP Consuming s = Next s1 ->
  destructing_ (sys_queue s) = false ->
  sys_producers s1 = sys_producers s /\
  destructing_ (sys_queue s1) = false /\
  ((c_pc (sys_consumer s) = C_Await /\ c_pc (sys_consumer s1) = C_Dispatch /\
    sys_dispatched s1 = sys_dispatched s) \/
   (c_pc (sys_consumer s) = C_Dispatch /\ c_pc (sys_consumer s1) = C_Recycle /\
    exists d, sys_dispatched s1 = sys_dispatched s ++ [d]) \/
   (c_pc (sys_consumer s) = C_Recycle /\ c_pc (sys_consumer s1) = C_Await /\
    sys_dispatched s1 = sys_dispatched s)).
Proof.
  intros Hs Hd. unfold step in Hs.
  destruct (consumer_step _ _ _) as [[[q' c'] log']| |] eqn:Hc;
    try discriminate.
  injection Hs as <-. simpl. apply consumer_step_Next in Hc.
  split; [reflexivity|].
  destruct Hc as [e Hpc He Hd'|e q' Hpc He Hd' Hst Hu|e Hpc He
                 |q' t Hpc Hu Ht]; simpl.
  - congruence.
  - apply update_at_frame in Hu as (_ & _ & _ & -> & _). auto.
  - split; [assumption|]. right. left. eauto.
  - apply update_at_frame in Hu as (_ & _ & _ & -> & _). auto 6.
Qed.

(** The consumer can take its turn when it is inside the loop and, at the
    top of the loop, the entry at [tail] is READY. *)
Lemma consumer_turn_enabled (DROP : bool) (n : Z) (s : System) :
  1 <= n -> in_bounds n s ->
  destructing_ (sys_queue s) = false ->
  c_pc (sys_consumer s) <> C_Exited ->
  (c_pc (sys_consumer s) = C_Await ->
   status_at (sys_queue s) (c_tail (sys_consumer s)) = Some READY) ->
  exists s1, step DROP Consuming s = Next s1.
Proof.
  intros Hn Hib Hd Hin Hready.
  pose proof (in_bounds_no_crash DROP n s Consuming Hn Hib) as Hnc.
  destruct (step DROP Consuming s) as [s1| |] eqn:Hs;
    [eauto| |contradiction].
  exfalso. unfold step in Hs.
  destruct (consumer_step _ _ _) as [[[q' c'] log']| |] eqn:Hc;
    try discriminate.
  unfold consumer_step in Hc.
  destruct (c_pc (sys_consumer s)) eqn:Hpc.
  - specialize (Hready eq_refl). unfold status_at in Hready.
    unfold ConsumerThread_await in Hc. rewrite Hd in Hc.
    destruct (entry_at _ _) as [e|]; [|discriminate].
    injection Hready as Hst. rewrite Hst in Hc. simpl in Hc.
    destruct (update_at _ _ _); discriminate.
  - destruct (ConsumerThread_dispatch _ _); discriminate.
  - destruct (ConsumerThread_recycle _ _) as [[q' t']|]; discriminate.
  - contradiction.
Qed.

(** What is left for the consumer to do, in turns. *)
Definition backlog (total : nat) (s : System) : nat :=
  (3 * (total - length (sys_dispatched s)) +
   match c_pc (sys_consumer s) with
   | C_Await => 1
   | C_Dispatch => 0
   | C_Recycle => 2
   | C_Exited => 0
   end)%nat.

Lemma catch_up (DROP : bool) (n : Z) (cs : list Call) (p : Producer)
  (fuel : nat) :
  1 <= n <= size_max ->
  Raised ∉ p_returns p ->
  forall s,
    reachable DROP (boot n [cs]) s ->
    sys_producers s = [p] ->
    destructing_ (sys_queue s) = false ->
    (backlog (length (numbers p)) s <= fuel)%nat ->
    exists m s',
      (m <= fuel)%nat /\
      run DROP (replicate m Consuming) s = Some s' /\
      reachable DROP (boot n [cs]) s' /\
      sys_producers s' = [p] /\
      destructing_ (sys_queue s') = false /\
      c_pc (sys_consumer s') = C_Await /\
      map d_index (sys_dispatched s') = map wrap (numbers p).
Proof.
  intros Hn Hclean. induction fuel as [|fuel IH]; intros s Hr Hps Hd Hfuel.
  all: destruct (reachable_one_producer _ _ _ _ Hn Hr)
         as (p0 & K & R & F & Hps0 & Hring);
       rewrite Hps in Hps0; injection Hps0 as <-;
       pose proof (reachable_tended _ _ _ _ Hn Hr) as HJ;
       destruct (ring_settled n s p K R F ltac:(lia) HJ Hps Hclean Hring)
         as (HF & HN);
       pose proof (rg_order _ _ _ _ _ _ _ _ Hring) as (HK & HKF & HFR & HRK);
       pose proof (rg_log _ _ _ _ _ _ _ _ Hring) as Hlog;
       pose proof (rg_exporting _ _ _ _ _ _ _ _ Hring) as Hexp;
       assert (length (sys_dispatched s) =
               Z.to_nat (K + recycling (sys_consumer s))) as Hlen
         by (rewrite <- (length_map d_index), Hlog, length_map, length_take;
             unfold recycling, exporting in *;
             destruct (c_pc (sys_consumer s));
             try specialize (Hexp eq_refl); lia);
       assert (c_pc (sys_consumer s) <> C_Exited) as Hin
         by (intros Hex; pose proof (reachable_exited _ _ _ _ Hr Hex);
             congruence);
       assert (c_pc (sys_consumer s) = C_Await ->
               length (sys_dispatched s) = length (numbers p) ->
               map d_index (sys_dispatched s) = map wrap (numbers p)) as Hdone
         by (intros _ Heq; rewrite Hlog, take_ge by lia; reflexivity);
       assert (c_pc (sys_consumer s) = C_Await ->
               length (sys_dispatched s) <> length (numbers p) ->
               status_at (sys_queue s) (c_tail (sys_consumer s)) = Some READY)
         as Hready
         by (intros Hpc Hne;
             unfold recycling, exporting in *; rewrite Hpc in *;
             destruct (rg_ready _ _ _ _ _ _ _ _ Hring K ltac:(lia))
               as (e & a & He & _ & _ & Hst);
             unfold exporting in Hst; rewrite Hpc in Hst; simpl in Hst;
             rewrite (rg_tail _ _ _ _ _ _ _ _ Hring);
             unfold status_at; rewrite He, Hst; reflexivity);
       assert (c_pc (sys_consumer s) = C_Dispatch ->
               (length (sys_dispatched s) < length (numbers p))%nat) as Hroom
         by (intros Hpc; unfold recycling, exporting in *; rewrite Hpc in *;
             specialize (Hexp eq_refl); lia).
  - unfold backlog in Hfuel.
    destruct (c_pc (sys_consumer s)) eqn:Hpc; try lia; try congruence.
    specialize (Hroom eq_refl). lia.
  - assert ((c_pc (sys_consumer s) = C_Await /\
             length (sys_dispatched s) = length (numbers p)) \/
            ~ (c_pc (sys_consumer s) = C_Await /\
               length (sys_dispatched s) = length (numbers p)))
      as [[Hpc Heq]|Hmore].
    { destruct (Nat.eq_dec (length (sys_dispatched s)) (length (numbers p)));
        [|right; tauto].
      destruct (c_pc (sys_consumer s)); auto; right; intros [? _];
        discriminate. }
    { exists 0%nat, s. simpl. repeat split; auto. lia. }
    destruct (consumer_turn_enabled DROP n s) as [s1 Hs]; try assumption.
    { lia. }
    { eapply reachable_in_bounds; [|exact Hr]. lia. }
    { intros Hpc. apply Hready; [assumption|]. intros Heq. apply Hmore. auto. }
    destruct (consumer_turn _ _ _ Hs Hd) as (Hps1 & Hd1 & Hcase).
    destruct (IH s1) as (m & s' & Hm & Hrun & Hrest).
    + eapply reachable_step; eassumption.
    + rewrite Hps1. exact Hps.
    + exact Hd1.
    + unfold backlog in *.
      destruct Hcase as [(Hpc & Hpc1 & Hl)|[(Hpc & Hpc1 & d & Hl)
                                            |(Hpc & Hpc1 & Hl)]];
        rewrite Hpc in Hfuel; rewrite Hpc1, Hl; try lia.
      specialize (Hroom Hpc). rewrite length_app. simpl. lia.
    + exists (S m), s'. split; [lia|]. split; [|exact Hrest].
      cbn [replicate run]. rewrite Hs. exact Hrun.
Qed.

(** With one producer, no exception thrown by a payload so far and the
    queue not being destroyed: left to itself, the consumer thread hands
    the sink every message accepted so far, in at most three turns per
    message still in the buffer plus one, and then waits at the top of its
    loop. *)
Theorem consumer_catches_up
  (DROP : bool) (n : Z) (cs : list Call) (s : System) (p : Producer) :
  1 <= n <= size_max ->
  reachable DROP (boot n [cs]) s ->
  sys_producers s = [p] ->
  Raised ∉ p_returns p ->
  destructing_ (sys_queue s) = false ->
  exists m s',
    (m <= backlog (count_if is_accepted (outcomes p)) s)%nat /\
    run DROP (replicate m Consuming) s = Some s' /\
    sys_producers s' = [p] /\
    c_pc (sys_consumer s') = C_Await /\
    map d_index (sys_dispatched s') = map wrap (numbers p) /\
    length (sys_dispatched s') = count_if is_accepted (outcomes p).
Proof.
  intros Hn Hr Hps Hclean Hd.
  destruct (catch_up DROP n cs p (backlog (length (numbers p)) s) Hn Hclean
              s Hr Hps Hd (le_n _))
    as (m & s' & Hm & Hrun & _ & Hps' & _ & Hpc & Hlog).
  assert (length (numbers p) = count_if is_accepted (outcomes p)) as HN
    by apply accepted_numbers_length.
  exists m, s'. rewrite <- HN. repeat split; try assumption.
  rewrite <- (length_map d_index), Hlog, length_map. reflexivity.
Qed.

(** With one producer under the block policy, no exception so far, calls
    left to make and the queue not being destroyed, some thread can take a
    step: when the producer waits in [PushMessageAllocate] the buffer is
    full of published messages and the consumer is not asleep. *)
Theorem block_policy_one_producer_no_deadlock
  (n : Z) (cs : list Call) (s : System) (p : Producer) :
  1 <= n <= size_max ->
  reachable false (boot n [cs]) s ->
  sys_producers s = [p] ->
  Raised ∉ p_returns p ->
  destructing_ (sys_queue s) = false ->
  p_calls p <> [] ->
  (exists s', step false (Producing 0) s = Next s') \/
  (exists s', step false Consuming s = Next s').
Proof.
  intros Hn Hr Hps Hclean Hd Hcalls.
  assert (in_bounds n s) as Hib by (eapply reachable_in_bounds; [|exact Hr]; lia).
  pose proof (in_bounds_no_crash false n s (Producing 0) ltac:(lia) Hib) as Hnc.
  destruct (step false (Producing 0) s) as [s1| |] eqn:Hs;
    [left; eauto| |contradiction].
  right. unfold step in Hs. rewrite Hps in Hs. simpl in Hs.
  destruct (producer_step false (sys_queue s) p) as [[q' p']| |] eqn:Hp;
    try discriminate.
  apply producer_step_Idle in Hp as [Hnil|(_ & Hpc & Hblocked)];
    [contradiction|].
  destruct (reachable_one_producer _ _ _ _ Hn Hr)
    as (p0 & K & R & F & Hps0 & Hring).
  rewrite Hps in Hps0. injection Hps0 as <-.
  pose proof (reachable_tended _ _ _ _ Hn Hr) as HJ.
  destruct (ring_settled n s p K R F ltac:(lia) HJ Hps Hclean Hring)
    as (HF & HN).
  pose proof (rg_order _ _ _ _ _ _ _ _ Hring) as (HK & HKF & HFR & HRK).
  assert (holding p = 0) as Hhold
    by (unfold holding, held; rewrite Hpc; reflexivity).
  assert (R = K + n) as HR.
  { destruct (Z.eq_dec R (K + n)) as [|Hne]; [assumption|exfalso].
    pose proof (rg_free _ _ _ _ _ _ _ _ Hring R ltac:(lia)) as Hfree.
    rewrite <- (rg_head _ _ _ _ _ _ _ _ Hring) in Hfree.
    unfold status_at in Hfree.
    unfold PushMessageAllocate in Hblocked. rewrite Hd in Hblocked.
    destruct (entry_at _ _) as [e|]; [|discriminate].
    injection Hfree as Hfree. rewrite Hfree in Hblocked. simpl in Hblocked.
    unfold reserve_head in Hblocked.
    destruct (Increment _ _); [|discriminate].
    destruct (update_at _ _ _); discriminate. }
  apply (consumer_turn_enabled false n s); try assumption; try lia.
  - intros Hex. pose proof (reachable_exited _ _ _ _ Hr Hex). congruence.
  - intros Hcpc.
    destruct (rg_ready _ _ _ _ _ _ _ _ Hring K ltac:(lia))
      as (e & a & He & _ & _ & Hst).
    unfold exporting in Hst. rewrite Hcpc in Hst. simpl in Hst.
    rewrite (rg_tail _ _ _ _ _ _ _ _ Hring).
    unfold status_at. rewrite He, Hst. reflexivity.
Qed.


(** As long as no call has ended by an exception, the BEING_IMPORTED
    entries are exactly the entries the producers hold between
    [PushMessageAllocate] and [PushMessageCommit]: no reservation is
    leaked. *)
Theorem reservations_are_owned
  (DROP : bool) (n : Z) (calls : list (list Call)) (s : System) (x : Z) :
  1 <= n <= size_max ->
  reachable DROP (boot n calls) s ->
  unraised s ->
  (status_at (sys_queue s) x = Some BEING_IMPORTED <->
   exists i p, sys_producers s !! i = Some p /\ held p = Some x).
Proof.
  intros Hn Hr Hclean. split.
  - apply (reachable_tended _ _ _ _ Hn Hr Hclean).
  - intros (i & p & Hp & Hh).
    eapply coh_held; [|exact Hp|exact Hh].
    eapply reachable_coherent. exact Hr.
Qed.


(** ** Accepted messages are neither lost nor repeated

    A count that no step changes: the calls that were accepted are the
    messages handed to the sink, the READY entries and the entry the
    consumer has taken out and not yet handed over. *)

Fixpoint ready_entries (buf : list Entry) : nat :=
  match buf with
  | [] => 0
  | e :: rest =>
      ((if status_eqb (status e) READY then 1 else 0) + ready_entries rest)%nat
  end.

Fixpoint accepted (ps : list Producer) : nat :=
  match ps with
  | [] => 0
  | p :: ps' => (count_if is_accepted (outcomes p) + accepted ps')%nat
  end.

Lemma accepted_insert (ps : list Producer) (i : nat) (p p' : Producer) :
  ps !! i = Some p ->
  (accepted (<[i := p']> ps) + count_if is_accepted (outcomes p) =
   accepted ps + count_if is_accepted (outcomes p'))%nat.
Proof.
  revert i. induction ps as [|p0 ps IH]; intros i Hi; [discriminate|].
  destruct i as [|i]; simpl in *.
  - injection Hi as ->. lia.
  - specialize (IH i Hi). lia.
Qed.

Lemma ready_entries_insert (buf : list Entry) (i : nat) (e e' : Entry) :
  buf !! i = Some e ->
  (ready_entries (<[i := e']> buf) +
   (if status_eqb (status e) READY then 1 else 0) =
   ready_entries buf + (if status_eqb (status e') READY then 1 else 0))%nat.
Proof.
  revert i. induction buf as [|e0 buf IH]; intros i Hi; [discriminate|].
  destruct i as [|i]; simpl in *.
  - injection Hi as ->. lia.
  - specialize (IH i Hi). lia.
Qed.

Lemma ready_entries_below (buf : list Entry) (i : nat) (e : Entry) :
  buf !! i = Some e -> status e <> READY ->
  (ready_entries buf < length buf)%nat.
Proof.
  assert (forall l, ready_entries l <= length l)%nat as Hle.
  { induction l as [|e0 l IH]; simpl; [lia|].
    destruct (status_eqb _ _); lia. }
  revert i. induction buf as [|e0 buf IH]; intros i Hi Hs; [discriminate|].
  destruct i as [|i]; simpl in *.
  - injection Hi as ->. apply status_eqb_neq in Hs. rewrite Hs.
    specialize (Hle buf). lia.
  - specialize (IH i Hi Hs). destruct (status_eqb _ _); lia.
Qed.

Lemma update_at_ready (f : Entry -> Entry) (x : Z) (q q' : MMQ) :
  update_at f x q = Some q' ->
  exists e,
    entry_at (circular_buffer_ q) x = Some e /\
    (ready_entries (circular_buffer_ q') +
     (if status_eqb (status e) READY then 1 else 0) =
     ready_entries (circular_buffer_ q) +
     (if status_eqb (status (f e)) READY then 1 else 0))%nat.
Proof.
  intros Hu. apply update_at_Some in Hu as (e & He & ->).
  exists e. split; [assumption|]. simpl. apply ready_entries_insert.
  unfold entry_at in He. destruct (x <? 0); [discriminate|assumption].
Qed.

Definition conserved (s : System) : Prop :=
  accepted (sys_producers s) =
  (length (sys_dispatched s) +
   ready_entries (circular_buffer_ (sys_queue s)) +
   dispatching (sys_consumer s))%nat.

Lemma moves_conserved (DROP : bool) (s s' : System) :
  coherent s -> conserved s -> moves DROP s s' -> conserved s'.
Proof.
  unfold conserved. intros Hcoh Hc Hm.
  destruct Hm as [i p q' p' Hp Hpm|q' c' log' Hcm|Hd]; simpl.
  - pose proof (accepted_insert _ _ _ p' Hp) as Hacc.
    assert (held p = None \/ exists x, held p = Some x /\
              status_at (sys_queue s) x = Some BEING_IMPORTED) as Hheld.
    { destruct (held p) as [x|] eqn:Hh; [right|left; reflexivity].
      exists x. split; [reflexivity|]. eapply coh_held; eassumption. }
    destruct Hpm as [index q' Hpc Hcalls Hal|x q' Hpc Hu
                    |x c rest m q' Hpc Hcs Hpl Hu
                    |x c rest Hpc Hcs Hpl|x q' Hpc Hu|r Hpc].
    + assert (count_if is_accepted
                (outcomes (at_pc (if negb (index =? size_max)
                                  then P_Index index else P_Count false) p)) =
              count_if is_accepted (outcomes p)) as Hsame.
      { unfold outcomes. rewrite Hpc.
        destruct (negb _); simpl; rewrite ?count_if_app; simpl; lia. }
      rewrite Hsame in Hacc.
      apply PushMessageAllocate_Returned in Hal
        as [(_ & -> & _)|(Hres & _ & e & He & Hfree)]; [lia|].
      apply reserve_head_Returned in Hres as (-> & e' & h & He' & _ & ->).
      rewrite He in He'. injection He' as <-. simpl.
      pose proof (ready_entries_insert (circular_buffer_ (sys_queue s))
                    (Z.to_nat (head_ (sys_queue s))) e
                    (with_status BEING_IMPORTED e)) as Hre.
      unfold entry_at in He. destruct (head_ (sys_queue s) <? 0);
        [discriminate|].
      specialize (Hre He). rewrite Hfree in Hre. simpl in Hre. lia.
    + destruct (update_at_ready _ _ _ _ Hu) as (e & He & Hre). simpl in Hre.
      unfold outcomes in Hacc. simpl in Hacc. rewrite Hpc in Hacc. lia.
    + destruct (update_at_ready _ _ _ _ Hu) as (e & He & Hre). simpl in Hre.
      unfold outcomes in Hacc. simpl in Hacc. rewrite Hpc in Hacc. lia.
    + rewrite outcomes_finish_call in Hacc. unfold outcomes in Hacc.
      rewrite Hpc, app_nil_r, count_if_app in Hacc. simpl in Hacc. lia.
    + destruct (update_at_ready _ _ _ _ Hu) as (e & He & Hre). simpl in Hre.
      destruct Hheld as [Hnone|(y & Hy & Hst)];
        unfold held in *; rewrite Hpc in *; [discriminate|].
      injection Hy as <-. unfold status_at in Hst. rewrite He in Hst.
      injection Hst as Hst. rewrite Hst in Hre. simpl in Hre.
      unfold outcomes in Hacc. simpl in Hacc.
      rewrite Hpc, app_nil_r, count_if_app in Hacc. simpl in Hacc. lia.
    + rewrite outcomes_finish_call in Hacc. unfold outcomes in Hacc.
      rewrite Hpc in Hacc. simpl. lia.
  - unfold dispatching in *.
    destruct Hcm as [e Hpc He Hd|e q' Hpc He Hd Hs Hu|e Hpc He
                    |q' t Hpc Hu Ht]; simpl; rewrite Hpc in Hc.
    + lia.
    + destruct (update_at_ready _ _ _ _ Hu) as (e0 & He0 & Hre).
      rewrite He in He0. injection He0 as <-.
      rewrite Hs in Hre. simpl in Hre. lia.
    + rewrite length_app. simpl. lia.
    + destruct (update_at_ready _ _ _ _ Hu) as (e0 & He0 & Hre).
      pose proof (coh_export _ Hcoh) as Hexp. unfold exporting in Hexp.
      rewrite Hpc in Hexp. specialize (Hexp eq_refl).
      unfold status_at in Hexp. rewrite He0 in Hexp.
      injection Hexp as Hexp. rewrite Hexp in Hre. simpl in Hre. lia.
  - exact Hc.
Qed.

Lemma boot_conserved (n : Z) (calls : list (list Call)) :
  conserved (boot n calls).
Proof.
  unfold conserved. simpl.
  assert (forall k, ready_entries (replicate k Entry_default) = 0%nat) as ->.
  { induction k as [|k IH]; simpl; [reflexivity|exact IH]. }
  induction calls as [|cs calls IH]; simpl; [reflexivity|].
  unfold dispatching in *. simpl in *. exact IH.
Qed.

(** Whatever the number of producers, the policy and the schedule, before
    or after the destructor: the accepted calls are the messages handed to
    the sink plus the messages still in the buffer, so that at most
    [buffer_size] accepted messages have not reached the sink. *)
Theorem accepted_messages_are_conserved
  (DROP : bool) (n : Z) (calls : list (list Call)) (s : System) :
  1 <= n ->
  reachable DROP (boot n calls) s ->
  accepted (sys_producers s) =
    (length (sys_dispatched s) +
     ready_entries (circular_buffer_ (sys_queue s)) +
     dispatching (sys_consumer s))%nat /\
  (accepted (sys_producers s) <=
   length (sys_dispatched s) + Z.to_nat n)%nat.
Proof.
  intros Hn Hr.
  assert (coherent s /\ conserved s) as [Hcoh Hc].
  { revert Hr.
    apply (reachable_invariant DROP (fun s => coherent s /\ conserved s)).
    - split; [apply boot_coherent|apply boot_conserved].
    - intros s1 s2 [Hcoh Hc] Hm. split.
      + eapply moves_coherent; eassumption.
      + eapply moves_conserved; eassumption. }
  split; [exact Hc|]. rewrite Hc.
  pose proof (reachable_in_bounds _ _ _ _ Hn Hr) as Hib.
  pose proof (ib_length _ _ Hib) as Hlen.
  unfold dispatching.
  destruct (c_pc (sys_consumer s)) eqn:Hpc.
  2: { pose proof (coh_export _ Hcoh) as Hexp. unfold exporting in Hexp.
       rewrite Hpc in Hexp. specialize (Hexp eq_refl).
       unfold status_at, entry_at in Hexp.
       destruct (c_tail (sys_consumer s) <? 0); [discriminate|].
       destruct (circular_buffer_ (sys_queue s) !! _) as [e|] eqn:He;
         [|discriminate].
       injection Hexp as Hexp.
       pose proof (ready_entries_below _ _ _ He ltac:(congruence)). lia. }
  all: assert (ready_entries (circular_buffer_ (sys_queue s)) <=
               length (circular_buffer_ (sys_queue s)))%nat
         by (clear; induction (circular_buffer_ (sys_queue s)) as [|e0 l IH];
             simpl; [lia|destruct (status_eqb _ _); lia]);
       lia.
Qed.


(** ** The block policy rejects nothing before the destructor

    For any number of producer threads. *)

Lemma moves_unrejected (n : Z) (s s' : System) :
  1 <= n <= size_max -> in_bounds n s ->
  (destructing_ (sys_queue s) = false ->
   forall i p, sys_producers s !! i = Some p ->
               count_if is_dropped (outcomes p) = 0%nat) ->
  moves false s s' ->
  destructing_ (sys_queue s') = false ->
  forall i p, sys_producers s' !! i = Some p ->
              count_if is_dropped (outcomes p) = 0%nat.
Proof.
  intros Hn Hib H1 Hm Hd'.
  assert (destructing_ (sys_queue s) = false) as Hd.
  { destruct (destructing_ (sys_queue s)) eqn:Hd; [|reflexivity].
    rewrite (moves_destructing _ _ _ Hm Hd) in Hd'. discriminate. }
  specialize (H1 Hd).
  destruct Hm as [i p q' p' Hp Hpm|q' c' log' Hcm|Hdes]; simpl in *;
    [|exact H1..].
  intros j pj Hj.
  apply lookup_insert_producer in Hj as [(-> & ->)|(_ & Hj)]; [|eauto].
  specialize (H1 i p Hp).
  destruct Hpm as [index q' Hpc Hcalls Hal|x q' Hpc Hu
                  |x c rest m q' Hpc Hcs Hpl Hu
                  |x c rest Hpc Hcs Hpl|x q' Hpc Hu|r Hpc];
    rewrite ?outcomes_finish_call, ?outcomes_at_pc;
    unfold outcomes in H1; rewrite Hpc in H1;
    rewrite ?app_nil_r in *; rewrite ?count_if_app in *; simpl in H1 |- *;
    try lia.
  apply PushMessageAllocate_Returned in Hal
    as [(_ & _ & Hdes)|(Hres & _)]; [congruence|].
  apply reserve_head_Returned in Hres as (-> & _).
  assert ((head_ (sys_queue s) =? size_max) = false) as ->.
  { apply Z.eqb_neq. pose proof (ib_head _ _ Hib). lia. }
  simpl. lia.
Qed.

(** Under the block policy, whatever the number of producer threads and
    the schedule, no call has been rejected as long as [destructing_] is
    not set. *)
Theorem block_policy_rejects_nothing_before_shutdown
  (n : Z) (calls : list (list Call)) (s : System) (i : nat) (p : Producer) :
  1 <= n <= size_max ->
  reachable false (boot n calls) s ->
  destructing_ (sys_queue s) = false ->
  sys_producers s !! i = Some p ->
  count_if is_dropped (outcomes p) = 0%nat.
Proof.
  intros Hn Hr. revert i p.
  enough (in_bounds n s /\
          (destructing_ (sys_queue s) = false ->
           forall i p, sys_producers s !! i = Some p ->
                       count_if is_dropped (outcomes p) = 0%nat))
    as [_ H] by (intros i p Hd; apply H; exact Hd).
  revert Hr.
  apply (reachable_invariant false
           (fun s => in_bounds n s /\
              (destructing_ (sys_queue s) = false ->
               forall i p, sys_producers s !! i = Some p ->
                           count_if is_dropped (outcomes p) = 0%nat))).
  - split; [apply boot_in_bounds; lia|].
    intros _ i p Hp. simpl in Hp.
    apply list_lookup_fmap_Some in Hp as (cs & -> & _). reflexivity.
  - intros s1 s2 [Hib H1] Hm. split.
    + eapply moves_in_bounds; [|eassumption..]. lia.
    + eapply moves_unrejected; eassumption.
Qed.

(** ** The absolute index of a submission

    [circular_buffer_[index].absolute_index = total_messages_] is executed
    after the reservation and without the lock: the value read is the one
    [total_messages_] has at that moment. *)






End Queue.

Arguments Returned {MSG A} a q.
Arguments Blocked {MSG A}.
Arguments Threw {MSG A} q.
Arguments Fault {MSG A}.
Arguments Next {A} a.
Arguments Idle {A}.
Arguments Crash {A}.

(** * Queues of strings

    [MMQ<std::string, ...>], the queue of the tests.  A string is built
    from a literal, copied or moved; building and copying allocate, and in
    this instance the allocation fails for strings of more than [room]
    characters. *)

Module Strings.

Import String.

Definition room : nat := 8.

Definition too_long (s : string) : bool := (room <? String.length s)%nat.

#[export] Instance string_messages : MessageType string string := {|
  default_message := EmptyString;
  copy_throws := too_long;
  move_throws := fun _ => false;
  construct := fun s => if too_long s then None else Some s
|}.

(** One producer and the drop policy, capacity 2: two messages are
    accepted, a third is dropped, the consumer takes the first, a fourth
    is accepted, the consumer takes the other two. *)
Definition drop_schedule : list Thread :=
  replicate 12 (Producing 0) ++ replicate 3 Consuming ++
  replicate 5 (Producing 0) ++ replicate 6 Consuming.

Definition drop_run : System :=
  after true drop_schedule
    (boot 2 [[ByCopy "M00"; ByCopy "M01"; ByCopy "M02"; ByCopy "M03"]])%string.

Example drop_run_dispatched :
  map d_index (sys_dispatched drop_run) = [0; 1; 3] /\
  map d_message (sys_dispatched drop_run) = ["M00"; "M01"; "M03"]%string /\
  map p_returns (sys_producers drop_run) =
    [[Ret true; Ret true; Ret false; Ret true]].
Proof. vm_compute. auto. Qed.

(** One producer and the block policy, capacity 2: the three messages of
    the smoke test are accepted and dispatched, the queue is destroyed, and
    a fourth submission is rejected. *)
Definition block_schedule : list Thread :=
  replicate 10 (Producing 0) ++ replicate 3 Consuming ++
  replicate 5 (Producing 0) ++ replicate 6 Consuming ++ [Destroying] ++
  replicate 2 (Producing 0) ++ [Consuming].

Definition block_run : System :=
  after false block_schedule
    (boot 2 [[ByCopy "one"; ByCopy "two"; ByCopy "three"; ByCopy "four"]])%string.

Example block_run_dispatched :
  map d_index (sys_dispatched block_run) = [0; 1; 2] /\
  map d_message (sys_dispatched block_run) = ["one"; "two"; "three"]%string /\
  map p_returns (sys_producers block_run) =
    [[Ret true; Ret true; Ret true; Ret false]] /\
  c_pc (sys_consumer block_run) = C_Exited.
Proof. vm_compute. auto. Qed.

(** Two producers and the block policy: both reserve an entry, then both
    read [total_messages_], before either has counted its call. *)
Definition race_schedule : list Thread :=
  [Producing 0; Producing 1; Producing 0; Producing 1] ++
  replicate 3 (Producing 0) ++ replicate 3 (Producing 1) ++
  replicate 6 Consuming.

Definition race_run : System :=
  after false race_schedule (boot 2 [[ByCopy "a"]; [ByCopy "b"]])%string.

(** A queue with one READY entry on which the destructor has set
    [destructing_]. *)
Definition one_ready : MMQ :=
  match PushMessage false "one"%string (MMQ_new 1) with
  | Returned _ q => q
  | _ => MMQ_new 1
  end.

Definition shut_down_with_one_ready : MMQ := MMQ_destruct one_ready.

Definition ready_one : Entry :=
  {| absolute_index := 0; message_body := "one"%string; status := READY |}.

(** A message for which the allocation of a copy fails. *)
Definition long_message : string := "a message of many bytes"%string.

(** The queue of capacity 1 after a successful [PushMessageAllocate]. *)
Definition one_reserved : MMQ :=
  match PushMessageAllocate false (MMQ_new (MSG := string) 1) with
  | Returned _ q => q
  | _ => MMQ_new 1
  end.

(** ** Counterexamples *)

(** The same race under the drop policy. *)
Definition race_run_drop : System :=
  after true race_schedule (boot 2 [[ByCopy "a"]; [ByCopy "b"]])%string.

(** C1, at the failing input.  Two producer threads make one submission
    each on a queue of capacity 2; both reserve an entry and both read
    [total_messages_] before either has counted its call.  Both
    submissions are accepted and none is rejected, and the sink is handed
    the absolute index 0 twice: the indices are not strictly increasing
    and, under the block policy, are not 0, 1; under the drop policy the
    second index is less than the number of messages dispatched before it,
    though no submission was rejected. *)
Theorem two_producers_repeat_an_index :
  reachable false (boot 2 [[ByCopy "a"]; [ByCopy "b"]])%string race_run /\
  map p_returns (sys_producers race_run) = [[Ret true]; [Ret true]] /\
  map d_index (sys_dispatched race_run) = [0; 0] /\
  ~ (forall k k' a a',
       (k < k')%nat ->
       map d_index (sys_dispatched race_run) !! k = Some a ->
       map d_index (sys_dispatched race_run) !! k' = Some a' ->
       a < a') /\
  reachable true (boot 2 [[ByCopy "a"]; [ByCopy "b"]])%string race_run_drop /\
  map p_returns (sys_producers race_run_drop) = [[Ret true]; [Ret true]] /\
  map d_index (sys_dispatched race_run_drop) = [0; 0].
Proof.
  split; [apply after_reachable|].
  split; [reflexivity|]. split; [reflexivity|]. split.
  - intros H.
    specialize (H 0%nat 1%nat 0 0 ltac:(lia) eq_refl eq_refl). lia.
  - split; [apply after_reachable|]. split; reflexivity.
Qed.





(** The entry at [tail] is READY and [destructing_] is set: the consumer
    leaves its loop, and the entry is not handed to the sink. *)
Lemma consumer_exits_on_ready_entry :
  status_at shut_down_with_one_ready 0 = Some READY /\
  destructing_ shut_down_with_one_ready = true /\
  ConsumerThread_await 0 shut_down_with_one_ready = Exit /\
  consumer_step shut_down_with_one_ready {| c_pc := C_Await; c_tail := 0 |} []
  = Next (shut_down_with_one_ready, {| c_pc := C_Exited; c_tail := 0 |}, []).
Proof. vm_compute. auto. Qed.

(** The copy of the message throws after the entry was reserved: the
    exception leaves [PushMessage] and the entry is BEING_IMPORTED, not
    FREE. *)
Lemma failed_copy_leaves_entry_being_imported :
  exists q',
    PushMessage false long_message (MMQ_new 1) = Threw q' /\
    status_at q' 0 = Some BEING_IMPORTED /\
    status_at q' 0 <> Some FREE.
Proof. eexists. vm_compute. repeat split. discriminate. Qed.


(** C3, at the failing input.  Under the drop policy, on a queue on which
    [destructing_] is set, each of the three submission operations returns
    [true] and leaves a READY entry: [PushMessageAllocate] with
    [DROP = true] does not read [destructing_]. *)
Theorem drop_policy_accepts_after_shutdown :
  destructing_ (MMQ_destruct (MMQ_new (MSG := string) 1)) = true /\
  (exists q',
     PushMessage true "one"%string (MMQ_destruct (MMQ_new 1)) =
       Returned true q' /\
     status_at q' 0 = Some READY) /\
  (exists q',
     PushMessage_rvalue true "one"%string (MMQ_destruct (MMQ_new 1)) =
       Returned true q' /\
     status_at q' 0 = Some READY) /\
  (exists q',
     EmplaceMessage true "one"%string (MMQ_destruct (MMQ_new 1)) =
       Returned true q' /\
     status_at q' 0 = Some READY).
Proof.
  split; [reflexivity|].
  repeat split; eexists; vm_compute; split; reflexivity.
Qed.

(** ** The main results at an input *)

Lemma one_producer_dispatch_numbering_witness :
  exists p,
    sys_producers block_run = [p] /\
    (Z.of_nat (Datatypes.length (outcomes p)) <= 2 ^ 64 ->
     (forall k k' a a',
        (k < k')%nat ->
        map d_index (sys_dispatched block_run) !! k = Some a ->
        map d_index (sys_dispatched block_run) !! k' = Some a' ->
        a < a') /\
     (forall k a,
        map d_index (sys_dispatched block_run) !! k = Some a ->
        exists j,
          outcomes p !! j = Some (Ret true) /\
          count_if is_accepted (take j (outcomes p)) = k /\
          a - Z.of_nat k =
            Z.of_nat (count_if is_dropped (take j (outcomes p)))) /\
     (false = false ->
      forall k a,
        map d_index (sys_dispatched block_run) !! k = Some a ->
        a = Z.of_nat k)).
Proof.
  apply (one_producer_dispatch_numbering false 2
           [ByCopy "one"; ByCopy "two"; ByCopy "three"; ByCopy "four"]%string).
  - unfold size_max. lia.
  - apply after_reachable.
Defined.

Lemma consumer_await_decision_witness :
  entry_at (circular_buffer_ shut_down_with_one_ready) 0 = Some ready_one /\
  (ConsumerThread_await 0 shut_down_with_one_ready = Exit <->
   destructing_ shut_down_with_one_ready = true).
Proof.
  split; [reflexivity|].
  apply (consumer_await_decision 0 shut_down_with_one_ready ready_one).
  reflexivity.
Defined.

Lemma submit_counts_once_witness :
  submit false (ByCopy "one"%string) (MMQ_new 1) = Returned true one_ready /\
  total_messages_ one_ready = 1.
Proof.
  split; [reflexivity|].
  apply (submit_counts_once false (ByCopy "one"%string) (MMQ_new 1)
           one_ready true).
  - reflexivity.
  - vm_compute. split; [discriminate|reflexivity].
Defined.


Lemma drop_on_overflow_frame_witness :
  exists q',
    submit true (ByCopy "two"%string) one_ready = Returned false q' /\
    circular_buffer_ q' = circular_buffer_ one_ready /\
    head_ q' = head_ one_ready /\
    circular_buffer_size_ q' = circular_buffer_size_ one_ready /\
    destructing_ q' = destructing_ one_ready /\
    total_messages_ q' = wrap (total_messages_ one_ready + 1).
Proof.
  apply (drop_on_overflow_frame (ByCopy "two"%string) one_ready ready_one).
  - reflexivity.
  - discriminate.
Defined.

Lemma payload_failure_keeps_reservation_witness :
  exists q' e,
    submit false (ByCopy long_message) (MMQ_new 1) = Threw q' /\
    entry_at (circular_buffer_ q') 0 = Some e /\
    status e = BEING_IMPORTED /\
    head_ q' = head_ one_reserved /\
    total_messages_ q' = total_messages_ (MMQ_new (MSG := string) 1).
Proof.
  apply (payload_failure_keeps_reservation false (ByCopy long_message)
           (MMQ_new 1) one_reserved 0).
  - reflexivity.
  - discriminate.
  - reflexivity.
Defined.

Lemma status_changes_are_transitions_witness :
  Datatypes.length
    (circular_buffer_
       (sys_queue (after true [Producing 0]
                     (boot 2 [[ByCopy "M00"%string]])))) =
    Datatypes.length
      (circular_buffer_ (sys_queue (boot 2 [[ByCopy "M00"%string]]))) /\
  forall j e e',
    entry_at (circular_buffer_ (sys_queue (boot 2 [[ByCopy "M00"%string]]))) j
      = Some e ->
    entry_at (circular_buffer_
                (sys_queue (after true [Producing 0]
                              (boot 2 [[ByCopy "M00"%string]])))) j
      = Some e' ->
    status e' = status e \/ transition (status e) (status e').
Proof.
  apply (status_changes_are_transitions true 2 [[ByCopy "M00"%string]]
           (boot 2 [[ByCopy "M00"%string]])
           (after true [Producing 0] (boot 2 [[ByCopy "M00"%string]]))
           (Producing 0)).
  - apply reachable_start.
  - reflexivity.
Defined.


Lemma capacity_is_a_caller_obligation_witness :
  in_bounds 2 drop_run /\ forall t, step true t drop_run <> Crash.
Proof.
  apply (proj1 (capacity_is_a_caller_obligation true
                  [[ByCopy "M00"; ByCopy "M01"; ByCopy "M02";
                    ByCopy "M03"]]%string) 2 drop_run).
  - lia.
  - apply after_reachable.
Defined.

End Strings.

(** * The sinks of the tests (Bricks/mq/inmemory/test.cc)

    A sink is called by the consumer thread once for each dispatch, in
    order, so what it computes is a fold over the record of dispatches.
    An [assert] that fails ends the fold with [None]. *)

(** Lists whose elements go up by at least one at each place, from [lo]
    on, and stay below the largest [size_t]. *)
Inductive ascending : Z -> list Z -> Prop :=
| ascending_nil lo : ascending lo []
| ascending_cons lo a l :
    lo <= a < size_max -> ascending (a + 1) l -> ascending lo (a :: l).

Lemma ascending_weaken (lo lo' : Z) (l : list Z) :
  lo <= lo' -> ascending lo' l -> ascending lo l.
Proof.
  intros Hle Ha. destruct Ha as [|lo' a l Hb Hl]; constructor; [lia|assumption].
Qed.

Lemma ascending_take (lo : Z) (l : list Z) (k : nat) :
  ascending lo l -> ascending lo (take k l).
Proof.
  intros Ha. revert k. induction Ha as [|lo a l Hb Hl IH]; intros k.
  - rewrite take_nil. constructor.
  - destruct k as [|k]; simpl; constructor; auto.
Qed.

Lemma ascending_wrap (lo : Z) (l : list Z) :
  0 <= lo -> ascending lo l -> map wrap l = l.
Proof.
  intros Hlo Ha. induction Ha as [|lo a l Hb Hl IH]; [reflexivity|].
  simpl. rewrite IH by lia. f_equal.
  unfold wrap, size_max in *. apply Z.mod_small. lia.
Qed.

Lemma accepted_numbers_ascending (c : Z) (h : list Return) :
  c + Z.of_nat (count_if is_returned h) <= size_max ->
  ascending c (accepted_numbers c h).
Proof.
  revert c. induction h as [|[[|]|] h IH]; intros c Hc; simpl in *.
  - constructor.
  - constructor; [lia|]. apply IH. lia.
  - apply ascending_weaken with (lo' := c + 1); [lia|]. apply IH. lia.
  - apply IH. lia.
Qed.

Module SmokeTest.

(** [struct Consumer] of [TEST(InMemoryMQ, SmokeTest)]. *)
Record Consumer : Type := mkSink {
  messages_ : String.string;
  expected_next_message_index_ : Z;
  dropped_messages_ : Z;
  processed_messages_ : Z
}.

(** [Consumer()]. *)
Definition Consumer_new : Consumer :=
  {| messages_ := String.EmptyString;
     expected_next_message_index_ := 0;
     dropped_messages_ := 0;
     processed_messages_ := 0 |}.

(** ['\n']. *)
Definition newline : String.string :=
  String.String (Ascii.ascii_of_nat 10) String.EmptyString.

(** [void operator()(const std::string& s, size_t index)]; all the
    arithmetic is on [size_t]. *)
Definition call (c : Consumer) (s : String.string) (index : Z)
  : option Consumer :=
  if index <? expected_next_message_index_ c then None
  else
    let dropped :=
      wrap (dropped_messages_ c +
            wrap (index - expected_next_message_index_ c)) in
    let expected := wrap (index + 1) in
    let messages := String.append (messages_ c) (String.append s newline) in
    let processed := wrap (processed_messages_ c + 1) in
    if wrap (expected - processed) =? dropped then
      Some {| messages_ := messages;
              expected_next_message_index_ := expected;
              dropped_messages_ := dropped;
              processed_messages_ := processed |}
    else None.

(** The sink takes the message and its index (the form of the call with
    two arguments). *)
Fixpoint feed (c : Consumer) (log : list (@Dispatch String.string))
  : option Consumer :=
  match log with
  | [] => Some c
  | d :: rest =>
      match call c (d_message d) (d_index d) with
      | Some c' => feed c' rest
      | None => None
      end
  end.

Fixpoint lines (log : list (@Dispatch String.string)) : String.string :=
  match log with
  | [] => String.EmptyString
  | d :: rest =>
      String.append (String.append (d_message d) newline) (lines rest)
  end.

Lemma append_assoc (a b c : String.string) :
  String.append (String.append a b) c = String.append a (String.append b c).
Proof. induction a as [|x a IH]; simpl; [reflexivity|]. rewrite IH. reflexivity. Qed.

(** The state between two calls: the counters are [size_t] values and
    [dropped_messages_] is the difference of the other two. *)
Record steady (c : Consumer) : Prop := mkSteady {
  st_processed :
    0 <= processed_messages_ c <= expected_next_message_index_ c;
  st_expected : expected_next_message_index_ c <= size_max;
  st_dropped :
    dropped_messages_ c =
    expected_next_message_index_ c - processed_messages_ c
}.

(** On indices that go up, no [assert] of the sink fails. *)
Lemma feed_ascending (log : list (@Dispatch String.string)) (c : Consumer) :
  steady c ->
  ascending (expected_next_message_index_ c) (map d_index log) ->
  exists c',
    feed c log = Some c' /\
    steady c' /\
    processed_messages_ c' = processed_messages_ c + Z.of_nat (length log) /\
    messages_ c' = String.append (messages_ c) (lines log) /\
    expected_next_message_index_ c' =
      match last log with
      | Some d => d_index d + 1
      | None => expected_next_message_index_ c
      end.
Proof.
  revert c. induction log as [|d log IH]; intros c Hc Ha.
  - exists c. simpl. repeat split; try apply Hc; try lia.
    induction (messages_ c) as [|x m IHm]; simpl; congruence.
  - destruct Hc as [Hp He Hd]. simpl in Ha. inversion Ha as [|lo a l Hb Hl];
      subst.
    assert (forall z, 0 <= z <= size_max -> wrap z = z) as Hwrap.
    { intros z Hz. unfold wrap, size_max in *. apply Z.mod_small. lia. }
    simpl. unfold call.
    destruct (Z.ltb_spec (d_index d) (expected_next_message_index_ c));
      [lia|].
    rewrite (Hwrap (d_index d - _)) by lia.
    rewrite (Hwrap (d_index d + 1)) by lia.
    rewrite (Hwrap (processed_messages_ c + 1)) by lia.
    rewrite (Hwrap (dropped_messages_ c + _)) by lia.
    rewrite (Hwrap (d_index d + 1 - _)) by lia.
    destruct (Z.eqb_spec (d_index d + 1 - (processed_messages_ c + 1))
                (dropped_messages_ c +
                 (d_index d - expected_next_message_index_ c))); [|lia].
    match goal with |- context [feed ?c1 log] => destruct (IH c1) as
        (c' & Hf & Hs' & Hp' & Hm' & He') end.
    { constructor; simpl; lia. }
    { simpl. assumption. }
    exists c'. split; [assumption|]. split; [assumption|].
    simpl in Hp', Hm', He'. split; [lia|]. split.
    + rewrite Hm'. rewrite <- !append_assoc. reflexivity.
    + rewrite He'. destruct log as [|d' log']; [reflexivity|].
      simpl. destruct (last (d' :: log')) eqn:Hlast; [reflexivity|].
      apply last_None in Hlast. discriminate.
Qed.

(** The smoke test, for any capacity, any messages and any schedule: with
    one producer thread and fewer than 2^64 - 1 calls, the [assert]s of the
    sink never fail; it has counted the dispatches and gathered their
    messages, a line each, in order; its [dropped_messages_] is the index
    after the last one minus the number of dispatches, and under the block
    policy it is 0. *)
Theorem smoke_test_sink_is_content
  {ARGS : Type} {MT : MessageType String.string ARGS}
  (DROP : bool) (n : Z) (cs : list Call) (s : System) :
  1 <= n <= size_max ->
  reachable DROP (boot n [cs]) s ->
  (forall p, sys_producers s = [p] ->
             Z.of_nat (length (outcomes p)) <= size_max) ->
  exists c,
    feed Consumer_new (sys_dispatched s) = Some c /\
    processed_messages_ c = Z.of_nat (length (sys_dispatched s)) /\
    messages_ c = lines (sys_dispatched s) /\
    dropped_messages_ c =
      expected_next_message_index_ c - processed_messages_ c /\
    expected_next_message_index_ c =
      match last (sys_dispatched s) with
      | Some d => d_index d + 1
      | None => 0
      end /\
    (DROP = false -> dropped_messages_ c = 0).
Proof.
  intros Hn Hr Hfew.
  destruct (dispatched_are_numbers _ _ _ _ Hn Hr) as (p & D & Hps & Hidx).
  specialize (Hfew p Hps).
  assert (ascending 0 (take D (numbers p))) as Hasc.
  { apply ascending_take. apply accepted_numbers_ascending.
    pose proof (count_if_le_length is_returned (outcomes p)). lia. }
  rewrite (ascending_wrap 0) in Hidx by (lia || assumption).
  destruct (feed_ascending (sys_dispatched s) Consumer_new)
    as (c & Hf & [Hp He Hd] & Hproc & Hmsg & Hexp).
  { constructor; simpl; unfold size_max; lia. }
  { simpl. rewrite Hidx. assumption. }
  exists c. simpl in *. split; [assumption|]. split; [lia|].
  split; [assumption|]. split; [assumption|]. split; [assumption|].
  intros ->. rewrite Hd, Hexp, Hproc.
  destruct (last (sys_dispatched s)) as [d|] eqn:Hlast.
  - apply last_Some in Hlast as [log' Hlog'].
    assert (map d_index (sys_dispatched s) !! length log' =
            Some (d_index d)) as Hk.
    { rewrite Hlog', map_app. simpl.
      replace (length log') with (length (map d_index log') + 0)%nat
        by (rewrite length_map; lia).
      rewrite lookup_app_r by lia.
      replace (length (map d_index log') + 0 - length (map d_index log'))%nat
        with 0%nat by lia.
      reflexivity. }
    rewrite Hidx in Hk. apply lookup_take_Some in Hk as [Hk _].
    rewrite (block_numbers_are_positions n cs s p _ _ Hn Hr Hps Hk).
    rewrite Hlog', length_app. simpl. lia.
  - apply last_None in Hlast. rewrite Hlast. simpl. lia.
Qed.

End SmokeTest.
Module Suspendable.

(** [struct SuspendableConsumer].  [suspend_processing_] and
    [processing_delay_ms_] only hold the consumer thread up (a spin and a
    sleep); they change nothing the sink computes. *)
Record SuspendableConsumer : Type := mkSuspendable {
  messages_ : list String.string;
  processed_messages_ : Z;
  total_messages_pushed_into_the_queue_ : Z;
  observed_gap_in_message_indexes_ : bool
}.

(** [SuspendableConsumer()]. *)
Definition SuspendableConsumer_new : SuspendableConsumer :=
  {| messages_ := [];
     processed_messages_ := 0;
     total_messages_pushed_into_the_queue_ := 0;
     observed_gap_in_message_indexes_ := false |}.

(** [void operator()(const std::string& s, size_t index, size_t total)]. *)
Definition call (c : SuspendableConsumer)
  (s : String.string) (index total : Z) : option SuspendableConsumer :=
  let gap :=
    observed_gap_in_message_indexes_ c ||
    negb (index =? processed_messages_ c) in
  let messages := messages_ c ++ [s] in
  if total <? total_messages_pushed_into_the_queue_ c then None
  else
    Some {| messages_ := messages;
            processed_messages_ := wrap (processed_messages_ c + 1);
            total_messages_pushed_into_the_queue_ := total;
            observed_gap_in_message_indexes_ := gap |}.

Fixpoint feed (c : SuspendableConsumer) (log : list (@Dispatch String.string))
  : option SuspendableConsumer :=
  match log with
  | [] => Some c
  | d :: rest =>
      match call c (d_message d) (d_index d) (d_total d) with
      | Some c' => feed c' rest
      | None => None
      end
  end.

(** Whether some index differs from its place, counting [size_t] places
    from [start]. *)
Fixpoint gaps (start : Z) (l : list Z) : bool :=
  match l with
  | [] => false
  | a :: l' => negb (a =? start) || gaps (wrap (start + 1)) l'
  end.

(** What the sink has computed, if its [assert] held at every call. *)
Lemma feed_Some (log : list (@Dispatch String.string))
  (c c' : SuspendableConsumer) :
  feed c log = Some c' ->
  messages_ c' = messages_ c ++ map d_message log /\
  processed_messages_ c' =
    (if decide (log = []) then processed_messages_ c
     else wrap (processed_messages_ c + Z.of_nat (length log))) /\
  observed_gap_in_message_indexes_ c' =
    observed_gap_in_message_indexes_ c ||
    gaps (processed_messages_ c) (map d_index log) /\
  total_messages_pushed_into_the_queue_ c' =
    match last log with
    | Some d => d_total d
    | None => total_messages_pushed_into_the_queue_ c
    end.
Proof.
  revert c. induction log as [|d log IH]; intros c Hf; simpl in Hf.
  - injection Hf as <-. simpl. rewrite app_nil_r, orb_false_r. auto.
  - unfold call in Hf.
    destruct (d_total d <? total_messages_pushed_into_the_queue_ c);
      [discriminate|].
    apply IH in Hf as (Hm & Hp & Hg & Ht). simpl in Hm, Hp, Hg, Ht.
    split; [rewrite Hm, <- app_assoc; reflexivity|]. split; [|split].
    + rewrite Hp. destruct (decide (d :: log = [])); [discriminate|].
      destruct (decide (log = [])) as [->|]; [reflexivity|].
      unfold wrap. rewrite Zplus_mod_idemp_l. f_equal. simpl length. lia.
    + rewrite Hg. simpl. rewrite orb_assoc. reflexivity.
    + rewrite Ht. destruct log as [|d' log']; [reflexivity|].
      simpl. destruct (last (d' :: log')) eqn:Hlast; [reflexivity|].
      apply last_None in Hlast. discriminate.
Qed.

(** The [assert] holds on counts that never step down. *)
Lemma feed_in_order (log : list (@Dispatch String.string))
  (c : SuspendableConsumer) :
  (forall x d, log !! x = Some d ->
               total_messages_pushed_into_the_queue_ c <= d_total d) ->
  (forall x y d d', (x <= y)%nat -> log !! x = Some d -> log !! y = Some d' ->
                    d_total d <= d_total d') ->
  exists c', feed c log = Some c'.
Proof.
  revert c. induction log as [|d log IH]; intros c Hlo Hord; simpl.
  - eauto.
  - unfold call.
    destruct (Z.ltb_spec (d_total d)
                (total_messages_pushed_into_the_queue_ c)) as [Hlt|_].
    + specialize (Hlo 0%nat d eq_refl). lia.
    + apply IH; simpl.
      * intros x d' Hx. apply (Hord 0%nat (S x) d d'); [lia|reflexivity|].
        exact Hx.
      * intros x y d1 d2 Hxy Hx Hy.
        apply (Hord (S x) (S y) d1 d2); [lia|exact Hx|exact Hy].
Qed.

Lemma gaps_true (start : Z) (l : list Z) :
  0 <= start -> start + Z.of_nat (length l) <= size_max ->
  (gaps start l = true <->
   exists k a, l !! k = Some a /\ a <> start + Z.of_nat k).
Proof.
  revert start. induction l as [|a l IH]; intros start Hs Hlen; simpl.
  - split; [discriminate|]. intros (k & a & Hk & _). discriminate.
  - simpl length in Hlen.
    assert (wrap (start + 1) = start + 1) as Hw.
    { unfold wrap, size_max in *. apply Z.mod_small. lia. }
    rewrite orb_true_iff, Hw, IH by lia. split.
    + intros [Hne|(k & b & Hk & Hb)].
      * exists 0%nat, a. split; [reflexivity|].
        destruct (Z.eqb_spec a start); [discriminate|lia].
      * exists (S k), b. split; [assumption|lia].
    + intros (k & b & Hk & Hb). destruct k as [|k]; simpl in Hk.
      * injection Hk as <-. left.
        destruct (Z.eqb_spec a start); [lia|reflexivity].
      * right. exists k, b. split; [assumption|lia].
Qed.

(** The sink of the overflow tests, whatever the number of producers, the
    policy and the schedule, as long as fewer than 2^64 calls have
    returned: its [assert] on the counts never fails, and it has gathered
    the messages of the dispatches, in order, and counted them. *)
Theorem suspendable_sink_is_content
  {ARGS : Type} {MT : MessageType String.string ARGS}
  (DROP : bool) (n : Z) (calls : list (list Call)) (s : System) :
  reachable DROP (boot n calls) s ->
  Z.of_nat (counted (sys_producers s)) < 2 ^ 64 ->
  exists c,
    feed SuspendableConsumer_new (sys_dispatched s) = Some c /\
    messages_ c = map d_message (sys_dispatched s) /\
    processed_messages_ c =
      wrap (Z.of_nat (length (sys_dispatched s))) /\
    total_messages_pushed_into_the_queue_ c =
      match last (sys_dispatched s) with
      | Some d => d_total d
      | None => 0
      end.
Proof.
  intros Hr Hfew.
  destruct (feed_in_order (sys_dispatched s) SuspendableConsumer_new)
    as [c Hf].
  - intros x d Hx. simpl.
    apply (dispatched_totals_in_order DROP n calls s x x d d Hr Hfew);
      auto.
  - intros x y d d' Hxy Hx Hy.
    apply (dispatched_totals_in_order DROP n calls s x y d d' Hr Hfew);
      auto.
  - exists c. split; [assumption|].
    apply feed_Some in Hf as (Hm & Hp & _ & Ht). simpl in *.
    split; [assumption|]. split; [|assumption].
    rewrite Hp. destruct (decide (sys_dispatched s = [])) as [->|];
      reflexivity.
Qed.

(** With one producer thread and fewer than 2^64 - 1 calls, the sink
    observes a gap in the indices exactly when it was handed a message
    whose submission came after a rejected one; under the block policy it
    observes none. *)
Theorem suspendable_sink_observes_drops
  {ARGS : Type} {MT : MessageType String.string ARGS}
  (DROP : bool) (n : Z) (cs : list Call) (s : System)
  (p : Producer) (c : SuspendableConsumer) :
  1 <= n <= size_max ->
  reachable DROP (boot n [cs]) s ->
  sys_producers s = [p] ->
  Z.of_nat (length (outcomes p)) <= size_max ->
  feed SuspendableConsumer_new (sys_dispatched s) = Some c ->
  (observed_gap_in_message_indexes_ c = true <->
   exists k d j,
     sys_dispatched s !! k = Some d /\
     outcomes p !! j = Some (Ret true) /\
     count_if is_accepted (take j (outcomes p)) = k /\
     (0 < count_if is_dropped (take j (outcomes p)))%nat) /\
  (DROP = false -> observed_gap_in_message_indexes_ c = false).
Proof.
  intros Hn Hr Hps Hfew Hf.
  destruct (dispatched_are_numbers _ _ _ _ Hn Hr) as (p' & D & Hps' & Hidx).
  rewrite Hps in Hps'. injection Hps' as <-.
  assert (ascending 0 (take D (numbers p))) as Hasc.
  { apply ascending_take. apply accepted_numbers_ascending.
    pose proof (count_if_le_length is_returned (outcomes p)). lia. }
  rewrite (ascending_wrap 0) in Hidx by (lia || assumption).
  assert (forall k a,
            map d_index (sys_dispatched s) !! k = Some a ->
            exists j,
              outcomes p !! j = Some (Ret true) /\
              count_if is_accepted (take j (outcomes p)) = k /\
              a = Z.of_nat k +
                  Z.of_nat (count_if is_dropped (take j (outcomes p))))
    as Hnum.
  { intros k a Hk. rewrite Hidx in Hk.
    apply lookup_take_Some in Hk as [Hk _].
    apply accepted_numbers_lookup in Hk as (j & Hj & Hacc & ->).
    exists j. rewrite count_returned_split, Hacc. auto with lia. }
  assert (Z.of_nat (length (map d_index (sys_dispatched s))) <= size_max)
    as Hlen.
  { rewrite Hidx, length_take.
    unfold numbers. rewrite accepted_numbers_length.
    pose proof (count_if_le_length is_accepted (outcomes p)). lia. }
  apply feed_Some in Hf as (_ & _ & Hg & _). simpl in Hg.
  assert (observed_gap_in_message_indexes_ c = true <->
          exists k a, map d_index (sys_dispatched s) !! k = Some a /\
                      a <> Z.of_nat k) as Hgap.
  { rewrite Hg. rewrite gaps_true by lia. reflexivity. }
  split.
  - rewrite Hgap. split.
    + intros (k & a & Hk & Ha).
      destruct (Hnum k a Hk) as (j & Hj & Hacc & ->).
      apply list_lookup_fmap_Some in Hk as (d & _ & Hd).
      exists k, d, j. repeat split; try assumption. lia.
    + intros (k & d & j & Hd & Hj & Hacc & Hdrop).
      exists k, (d_index d).
      assert (map d_index (sys_dispatched s) !! k = Some (d_index d)) as Hk.
      { apply list_lookup_fmap_Some. eauto. }
      split; [assumption|].
      destruct (Hnum k _ Hk) as (j' & Hj' & Hacc' & Ha).
      assert (j' = j) as ->; [|lia].
      clear - Hj Hj' Hacc Hacc'. revert Hacc'. rewrite <- Hacc. clear Hacc.
      revert j j' Hj Hj'.
      induction (outcomes p) as [|r h IH]; intros j j' Hj Hj' Heq;
        [discriminate|].
      destruct j as [|j], j' as [|j']; simpl in *; try reflexivity.
      * injection Hj as ->. simpl in Heq. lia.
      * injection Hj' as ->. simpl in Heq. lia.
      * f_equal. apply IH; try assumption. lia.
  - intros ->. apply not_true_is_false. intros Hobs.
    apply Hgap in Hobs as (k & a & Hk & Ha). apply Ha.
    rewrite Hidx in Hk. apply lookup_take_Some in Hk as [Hk _].
    eapply block_numbers_are_positions; eassumption.
Qed.

End Suspendable.


(** * The further properties at an input *)

Module Scenarios.

Import String.
Import Strings.

Definition four_calls : list (@Call String.string String.string) :=
  [ByCopy "M00"; ByCopy "M01"; ByCopy "M02"; ByCopy "M03"]%string.

(** The drop policy, capacity 2, after two accepted calls: the buffer is
    full and the producer is about to make its third call. *)
Definition drop_full : System :=
  after true (replicate 10 (Producing 0)) (boot 2 [four_calls]).

Definition smoke_calls : list (@Call String.string String.string) :=
  [ByCopy "one"; ByCopy "two"; ByCopy "three"; ByCopy "four"]%string.

(** The block policy: three calls accepted and dispatched, then the
    destructor has set [destructing_]; the fourth call has not begun. *)
Definition block_shut : System :=
  after false
    (replicate 10 (Producing 0) ++ replicate 3 Consuming ++
     replicate 5 (Producing 0) ++ replicate 6 Consuming ++ [Destroying])
    (boot 2 [smoke_calls]).

Lemma drop_policy_never_waits_witness :
  exists s', step true (Producing 0) drop_full = Next s'.
Proof.
  eapply (drop_policy_never_waits 2 [four_calls] drop_full 0).
  - lia.
  - apply after_reachable.
  - reflexivity.
  - vm_compute. discriminate.
Defined.

Definition block_shut_producer : Producer :=
  match sys_producers block_shut with
  | p :: _ => p
  | [] => {| p_calls := []; p_pc := P_Allocate; p_returns := [] |}
  end.

Lemma shutdown_releases_producers_witness :
  exists s',
    step false (Producing 0) block_shut = Next s' /\
    (p_pc block_shut_producer = P_Allocate ->
     sys_queue s' = sys_queue block_shut /\
     sys_producers s' !! 0%nat =
       Some (at_pc (P_Count false) block_shut_producer)).
Proof.
  apply (shutdown_releases_producers 2 [smoke_calls] block_shut 0
           block_shut_producer).
  - lia.
  - apply after_reachable.
  - reflexivity.
  - reflexivity.
  - vm_compute. discriminate.
Defined.

Lemma at_most_one_dispatch_after_shutdown_witness :
  exists more,
    sys_dispatched
      (after false [Producing 0; Producing 0; Consuming] block_shut) =
      sys_dispatched block_shut ++ more /\
    (Datatypes.length more +
     dispatching
       (sys_consumer
          (after false [Producing 0; Producing 0; Consuming] block_shut))
     <= dispatching (sys_consumer block_shut))%nat.
Proof.
  apply (at_most_one_dispatch_after_shutdown false block_shut).
  - reflexivity.
  - apply after_reachable.
Defined.


Lemma sink_sees_counts_grow_witness :
  total_messages_ (sys_queue race_run) =
    Z.of_nat (counted (sys_producers race_run)) /\
  (forall x d,
     sys_dispatched race_run !! x = Some d ->
     0 <= d_index d <= d_total d /\
     d_total d <= total_messages_ (sys_queue race_run)) /\
  (forall x y d d',
     (x <= y)%nat ->
     sys_dispatched race_run !! x = Some d ->
     sys_dispatched race_run !! y = Some d' ->
     d_total d <= d_total d').
Proof.
  apply (sink_sees_counts_grow false 2
           [[ByCopy "a"]; [ByCopy "b"]]%string race_run).
  - apply after_reachable.
  - vm_compute. reflexivity.
Defined.

Lemma delivery_in_call_order_witness :
  exists tags : list (nat * nat),
    Datatypes.length tags = Datatypes.length (sys_dispatched race_run) /\
    (forall x d,
       sys_dispatched race_run !! x = Some d ->
       exists i a cs c p,
         tags !! x = Some (i, a) /\
         [[ByCopy "a"]; [ByCopy "b"]]%string !! i = Some cs /\
         cs !! a = Some c /\
         payload_of c = Some (d_message d) /\
         sys_producers race_run !! i = Some p /\
         outcomes p !! a = Some (Ret true)) /\
    (forall x y i a b,
       (x < y)%nat ->
       tags !! x = Some (i, a) -> tags !! y = Some (i, b) -> (a < b)%nat).
Proof.
  apply (delivery_in_call_order false 2
           [[ByCopy "a"]; [ByCopy "b"]]%string race_run).
  - unfold size_max. lia.
  - apply after_reachable.
Defined.

Lemma smoke_test_sink_is_content_witness :
  exists c,
    SmokeTest.feed SmokeTest.Consumer_new (sys_dispatched block_run) = Some c /\
    SmokeTest.processed_messages_ c =
      Z.of_nat (Datatypes.length (sys_dispatched block_run)) /\
    SmokeTest.messages_ c = SmokeTest.lines (sys_dispatched block_run) /\
    SmokeTest.dropped_messages_ c =
      SmokeTest.expected_next_message_index_ c -
      SmokeTest.processed_messages_ c /\
    SmokeTest.expected_next_message_index_ c =
      match last (sys_dispatched block_run) with
      | Some d => d_index d + 1
      | None => 0
      end /\
    (false = false -> SmokeTest.dropped_messages_ c = 0).
Proof.
  apply (SmokeTest.smoke_test_sink_is_content false 2 smoke_calls block_run).
  - unfold size_max. lia.
  - apply after_reachable.
  - intros p Hp. vm_compute in Hp. injection Hp as <-.
    vm_compute. discriminate.
Defined.

Lemma suspendable_sink_is_content_witness :
  exists c,
    Suspendable.feed Suspendable.SuspendableConsumer_new
      (sys_dispatched race_run) = Some c /\
    Suspendable.messages_ c = map d_message (sys_dispatched race_run) /\
    Suspendable.processed_messages_ c =
      wrap (Z.of_nat (Datatypes.length (sys_dispatched race_run))) /\
    Suspendable.total_messages_pushed_into_the_queue_ c =
      match last (sys_dispatched race_run) with
      | Some d => d_total d
      | None => 0
      end.
Proof.
  apply (Suspendable.suspendable_sink_is_content false 2
           [[ByCopy "a"]; [ByCopy "b"]]%string race_run).
  - apply after_reachable.
  - vm_compute. reflexivity.
Defined.

(** The sink of the overflow test after the run [drop_run], and the
    producer of that run. *)
Definition drop_run_sink : Suspendable.SuspendableConsumer :=
  match Suspendable.feed Suspendable.SuspendableConsumer_new
          (sys_dispatched drop_run) with
  | Some c => c
  | None => Suspendable.SuspendableConsumer_new
  end.

Definition drop_run_producer : Producer :=
  match sys_producers drop_run with
  | p :: _ => p
  | [] => {| p_calls := []; p_pc := P_Allocate; p_returns := [] |}
  end.

Lemma suspendable_sink_observes_drops_witness :
  (Suspendable.observed_gap_in_message_indexes_ drop_run_sink = true <->
   exists k d j,
     sys_dispatched drop_run !! k = Some d /\
     outcomes drop_run_producer !! j = Some (Ret true) /\
     count_if is_accepted (take j (outcomes drop_run_producer)) = k /\
     (0 < count_if is_dropped (take j (outcomes drop_run_producer)))%nat) /\
  (true = false ->
   Suspendable.observed_gap_in_message_indexes_ drop_run_sink = false).
Proof.
  apply (Suspendable.suspendable_sink_observes_drops true 2 four_calls drop_run
           drop_run_producer drop_run_sink).
  - unfold size_max. lia.
  - apply after_reachable.
  - reflexivity.
  - vm_compute. discriminate.
  - reflexivity.
Defined.

Lemma consumer_exits_after_shutdown_witness :
  exists s',
    run false [Consuming; Producing 0; Consuming; Consuming] block_shut =
      Some s' /\
    c_pc (sys_consumer s') = C_Exited.
Proof.
  apply (consumer_exits_after_shutdown false 2 [smoke_calls] block_shut
           [Consuming; Producing 0; Consuming; Consuming]).
  - lia.
  - apply after_reachable.
  - reflexivity.
  - simpl. lia.
Defined.

Definition drop_full_producer : Producer :=
  match sys_producers drop_full with
  | p :: _ => p
  | [] => {| p_calls := []; p_pc := P_Allocate; p_returns := [] |}
  end.

Lemma consumer_catches_up_witness :
  exists m s',
    (m <= backlog (count_if is_accepted (outcomes drop_full_producer))
            drop_full)%nat /\
    run true (replicate m Consuming) drop_full = Some s' /\
    sys_producers s' = [drop_full_producer] /\
    c_pc (sys_consumer s') = C_Await /\
    map d_index (sys_dispatched s') = map wrap (numbers drop_full_producer) /\
    Datatypes.length (sys_dispatched s') =
      count_if is_accepted (outcomes drop_full_producer).
Proof.
  apply (consumer_catches_up true 2 four_calls drop_full drop_full_producer).
  - unfold size_max. lia.
  - apply after_reachable.
  - reflexivity.
  - assert (p_returns drop_full_producer = [Ret true; Ret true]) as ->
      by reflexivity.
    intros H. apply elem_of_cons in H as [H|H]; [discriminate|].
    apply elem_of_cons in H as [H|H]; [discriminate|].
    apply elem_of_nil in H. exact H.
  - reflexivity.
Defined.

(** The block policy, capacity 2, after two accepted calls: the buffer is
    full and the producer waits in its third call. *)
Definition block_full : System :=
  after false (replicate 10 (Producing 0)) (boot 2 [smoke_calls]).

Definition block_full_producer : Producer :=
  match sys_producers block_full with
  | p :: _ => p
  | [] => {| p_calls := []; p_pc := P_Allocate; p_returns := [] |}
  end.

Lemma block_policy_one_producer_no_deadlock_witness :
  (exists s', step false (Producing 0) block_full = Next s') \/
  (exists s', step false Consuming block_full = Next s').
Proof.
  apply (block_policy_one_producer_no_deadlock 2 smoke_calls block_full
           block_full_producer).
  - unfold size_max. lia.
  - apply after_reachable.
  - reflexivity.
  - assert (p_returns block_full_producer = [Ret true; Ret true]) as ->
      by reflexivity.
    intros H. apply elem_of_cons in H as [H|H]; [discriminate|].
    apply elem_of_cons in H as [H|H]; [discriminate|].
    apply elem_of_nil in H. exact H.
  - reflexivity.
  - vm_compute. discriminate.
Defined.

(** The drop policy right after the first reservation. *)
Definition one_held : System :=
  after true [Producing 0] (boot 2 [four_calls]).

Lemma reservations_are_owned_witness :
  status_at (sys_queue one_held) 0 = Some BEING_IMPORTED <->
  exists i p, sys_producers one_held !! i = Some p /\ held p = Some 0.
Proof.
  apply (reservations_are_owned true 2 [four_calls] one_held 0).
  - unfold size_max. lia.
  - apply after_reachable.
  - intros [|i] p Hp.
    + vm_compute in Hp. injection Hp as <-. simpl. apply not_elem_of_nil.
    + destruct i; discriminate.
Defined.

Lemma accepted_messages_are_conserved_witness :
  accepted (sys_producers drop_run) =
    (Datatypes.length (sys_dispatched drop_run) +
     ready_entries (circular_buffer_ (sys_queue drop_run)) +
     dispatching (sys_consumer drop_run))%nat /\
  (accepted (sys_producers drop_run) <=
   Datatypes.length (sys_dispatched drop_run) + Z.to_nat 2)%nat.
Proof.
  apply (accepted_messages_are_conserved true 2 [four_calls] drop_run).
  - lia.
  - apply after_reachable.
Defined.

Definition race_run_producer : Producer :=
  match sys_producers race_run with
  | p :: _ => p
  | [] => {| p_calls := []; p_pc := P_Allocate; p_returns := [] |}
  end.

Lemma block_policy_rejects_nothing_before_shutdown_witness :
  count_if is_dropped (outcomes race_run_producer) = 0%nat.
Proof.
  apply (block_policy_rejects_nothing_before_shutdown 2
           [[ByCopy "a"]; [ByCopy "b"]]%string race_run 0 race_run_producer).
  - unfold size_max. lia.
  - apply after_reachable.
  - reflexivity.
  - reflexivity.
Defined.

End Scenarios.
